(** * The harmonic engine of quantumelodic-mvp, embedded in Rocq

    The engine ([src/harmonic_engine/engine.py]) maps a natal chart to a
    pair of mode identifiers, a tension index, a dominant element and a
    sonic payload.  Its arithmetic is Python [float] arithmetic, that is
    IEEE 754 binary64: the embedding keeps it as such, on Rocq's primitive
    floats, whose operations are specified by [SpecFloat].  Python
    dictionaries are insertion-ordered association lists, because the
    engine's tie-breaks follow iteration order; exceptions are an explicit
    result type. *)

From Stdlib Require Import ZArith List String Bool Lia Floats Sorted.
Import ListNotations.

Local Open Scope Z_scope.

(** ** Exceptions *)

Inductive exn := ValueError | OverflowError | IndexError.

Inductive res (A : Type) : Type :=
| Ok (a : A)
| Raise (e : exn).

Arguments Ok {A} a.
Arguments Raise {A} e.

Definition bind {A B} (r : res A) (k : A -> res B) : res B :=
  match r with
  | Ok a => k a
  | Raise e => Raise e
  end.

Notation "x <- r ;; k" := (bind r (fun x => k))
  (at level 61, r at next level, right associativity).

(** ** The Python runtime the engine relies on *)

Module Py.

(** *** Dictionaries: association lists in insertion order *)

Section Dict.
Context {V : Type}.

Definition dict := list (string * V).

Fixpoint get (d : dict) (k : string) : option V :=
  match d with
  | [] => None
  | (k', v) :: d' => if String.eqb k' k then Some v else get d' k
  end.

(** [d[k] = v]: an existing key keeps its place, a new one goes last. *)
Fixpoint set (d : dict) (k : string) (v : V) : dict :=
  match d with
  | [] => [(k, v)]
  | (k', v') :: d' =>
      if String.eqb k' k then (k', v) :: d' else (k', v') :: set d' k v
  end.

Definition keys (d : dict) : list string := map fst d.
Definition values (d : dict) : list V := map snd d.

(** [d.get(k, default)] *)
Definition get_default (d : dict) (k : string) (default : V) : V :=
  match get d k with
  | Some v => v
  | None => default
  end.
End Dict.

Arguments dict : clear implicits.

(** [list(dict.fromkeys(l))]: the keys of [l], first occurrences only. *)
Definition fromkeys (l : list string) : list string :=
  keys (fold_left (fun d k => set d k tt) l []).

(** *** Floats *)

Definition sign_bit (x : spec_float) : bool :=
  match x with
  | S754_zero s | S754_infinity s | S754_finite s _ _ => s
  | S754_nan => false
  end.

(** [int(x)]: truncation towards zero; [nan] and the infinities raise. *)
Definition int_of_float (x : float) : res Z :=
  match Prim2SF x with
  | S754_zero _ => Ok 0
  | S754_finite s m e => Ok (cond_Zopp s (Z.shiftl (Z.pos m) e))
  | S754_infinity _ => Raise OverflowError
  | S754_nan => Raise ValueError
  end.

(** [float(n)], as in [n / 100.0]: correctly rounded, and an
    [OverflowError] when [n] is beyond the binary64 range. *)
Definition float_of_int (n : Z) : res float :=
  match binary_normalize prec emax n 0 false with
  | S754_infinity _ => Raise OverflowError
  | x => Ok (SF2Prim x)
  end.

(** [max(a, b)] on floats: the first argument unless the second is
    greater. *)
Definition max (a b : float) : float := if PrimFloat.ltb a b then b else a.

(** C's [fmod]: the exact remainder, with the sign of the dividend. *)
Definition SFfmod (x y : spec_float) : spec_float :=
  match x, y with
  | S754_nan, _ | _, S754_nan => S754_nan
  | S754_infinity _, _ => S754_nan
  | _, S754_zero _ => S754_nan
  | _, S754_infinity _ => x
  | S754_zero _, S754_finite _ _ _ => x
  | S754_finite sx mx ex, S754_finite _ my ey =>
      let e := Z.min ex ey in
      let r := (Z.pos mx * 2 ^ (ex - e)) mod (Z.pos my * 2 ^ (ey - e)) in
      binary_normalize prec emax (cond_Zopp sx r) e sx
  end.

Definition fmod (x y : float) : float :=
  SF2Prim (SFfmod (Prim2SF x) (Prim2SF y)).

(** C's [floor]. *)
Definition SFfloor (x : spec_float) : spec_float :=
  match x with
  | S754_finite s m e =>
      if 0 <=? e then x
      else binary_normalize prec emax (Z.shiftl (cond_Zopp s (Z.pos m)) e) 0 s
  | _ => x
  end.

Definition floor (x : float) : float := SF2Prim (SFfloor (Prim2SF x)).

(** [copysign(0.0, x)] *)
Definition copysign_zero (x : float) : float :=
  if sign_bit (Prim2SF x) then (-0.0)%float else 0.0%float.

(** The quotient and remainder of CPython's [_float_div_mod], which
    [float.__mod__] and [float.__floordiv__] share; the divisor is
    non-zero at each use in the engine. *)
Definition float_div_mod (vx wx : float) : float * float :=
  let mod0 := fmod vx wx in
  let div0 := ((vx - mod0) / wx)%float in
  let '(div, mod1) :=
    if negb (PrimFloat.eqb mod0 0.0%float) then
      if negb (Bool.eqb (PrimFloat.ltb wx 0.0%float)
                        (PrimFloat.ltb mod0 0.0%float))
      then ((div0 - 1.0)%float, (mod0 + wx)%float)
      else (div0, mod0)
    else (div0, copysign_zero wx) in
  let floordiv :=
    if negb (PrimFloat.eqb div 0.0%float) then
      let fd := floor div in
      if PrimFloat.ltb 0.5%float (div - fd)%float then (fd + 1.0)%float
      else fd
    else copysign_zero (vx / wx)%float in
  (floordiv, mod1).

(** [vx % wx] *)
Definition float_rem (vx wx : float) : float := snd (float_div_mod vx wx).

(** [vx // wx] *)
Definition float_floor_div (vx wx : float) : float :=
  fst (float_div_mod vx wx).

(** *** Lists *)

(** [l[i]], negative indices counting from the end. *)
Definition index {A} (l : list A) (i : Z) : res A :=
  let n := Z.of_nat (List.length l) in
  let j := if i <? 0 then i + n else i in
  if (0 <=? j) && (j <? n) then
    match nth_error l (Z.to_nat j) with
    | Some a => Ok a
    | None => Raise IndexError
    end
  else Raise IndexError.

(** [max(items, key=key)], the comparison of keys being [gt]: the first
    item whose key no later key exceeds; [None] stands for the
    [ValueError] of an empty sequence, which the engine guards against. *)
Fixpoint max_from {A K} (gt : K -> K -> bool) (key : A -> K) (best : A)
    (items : list A) : A :=
  match items with
  | [] => best
  | x :: rest =>
      max_from gt key (if gt (key x) (key best) then x else best) rest
  end.

Definition max_by {A K} (gt : K -> K -> bool) (key : A -> K)
    (items : list A) : option A :=
  match items with
  | [] => None
  | x :: rest => Some (max_from gt key x rest)
  end.

Definition float_gt (a b : float) : bool := PrimFloat.ltb b a.
Definition int_gt (a b : Z) : bool := b <? a.

(** [x or y] on values read from a row: [x] when present and non-empty. *)
Definition or_else (x y : option string) : option string :=
  match x with
  | Some EmptyString | None => y
  | Some _ => x
  end.

(** [if x:] on such a value. *)
Definition truthy (x : option string) : bool :=
  match x with
  | Some EmptyString | None => false
  | Some _ => true
  end.

End Py.

(** ** Data model *)

(** [ephemeris_engine.calculator.PlanetPosition] *)
Record PlanetPosition := {
  name : string;
  lon : float;
  lat : float;
  distance : float
}.

(** What [chart.positions] may hold under a key: a [PlanetPosition], the
    value [None], or an object without a [lon] attribute (such as the raw
    dictionaries of [get_planet_positions]). *)
Inductive position_value :=
| PosNone
| PosRecord (p : PlanetPosition)
| PosOther.

(** An aspect dictionary as [find_aspects] builds it.  The engine reads
    the keys ['aspect'] and ['orb'] with [dict.get], so either may be
    absent. *)
Record Aspect := {
  planet_a : string;
  planet_b : string;
  aspect : option string;
  angle : float;
  difference : float;
  orb : option float
}.

(** [ephemeris_engine.chart_builder.Chart] *)
Record Chart := {
  sun_sign : string;
  moon_sign : string;
  rising_sign : string;
  positions : Py.dict position_value;
  aspects : list Aspect
}.

(** A row of a canonical CSV: column name to value. *)
Definition Row := Py.dict string.

(** What [_load_data] returns: the canonical tables, read from the CSV
    files under [mappings/]. *)
Record Tables := {
  pent : Py.dict Row;
  quad : Py.dict Row;
  modal_index : Py.dict Row;
  timbre_map : Py.dict (list string)
}.

(** [harmonic_engine.models] *)
Record SonicPayload := {
  waveform : string;
  recommended_tempo_bpm : Z;
  timbres : list string
}.

Record HarmonicResult := {
  primary_pentatonic_mode : string;
  primary_quadratonic_mode : string;
  harmonic_tension_index : Z;
  dominant_element : string;
  sonic_payload : SonicPayload
}.

(** ** The engine, [harmonic_engine/engine.py] *)

Module Engine.

Local Open Scope string_scope.

Definition PLANET_WEIGHTS : Py.dict float :=
  [("Sun", 3.0%float); ("Moon", 2.5%float); ("Rising", 2.0%float)].

Definition DEFAULT_PLANET_WEIGHT : float := 1.0%float.

Definition ASPECT_WEIGHTS : Py.dict float :=
  [("Conjunction", 1.0%float); ("Opposition", 3.0%float);
   ("Trine", 1.5%float); ("Square", 2.5%float); ("Sextile", 1.0%float)].

Definition ELEMENT_BY_SIGN : Py.dict string :=
  [("Aries", "Fire"); ("Leo", "Fire"); ("Sagittarius", "Fire");
   ("Taurus", "Earth"); ("Virgo", "Earth"); ("Capricorn", "Earth");
   ("Gemini", "Air"); ("Libra", "Air"); ("Aquarius", "Air");
   ("Cancer", "Water"); ("Scorpio", "Water"); ("Pisces", "Water")].

Definition _get_planet_weight (planet_name : string) : float :=
  Py.get_default PLANET_WEIGHTS planet_name DEFAULT_PLANET_WEIGHT.

Definition signs : list string :=
  ["Aries"; "Taurus"; "Gemini"; "Cancer"; "Leo"; "Virgo"; "Libra";
   "Scorpio"; "Sagittarius"; "Capricorn"; "Aquarius"; "Pisces"].

(** [signs[int((lon % 360) // 30)]] *)
Definition _infer_sign_from_lon (lon : float) : res string :=
  i <- Py.int_of_float
         (Py.float_floor_div (Py.float_rem lon 360.0%float) 30.0%float) ;;
  Py.index signs i.

(** [getattr(pos, 'lon', 0.0)] *)
Definition getattr_lon (pos : position_value) : float :=
  match pos with
  | PosRecord p => lon p
  | PosNone | PosOther => 0.0%float
  end.

(** *** Modal aggregation *)

(** [defaultdict(float)]: [scores[k] += w] *)
Definition add_score (scores : Py.dict float) (k : string) (w : float)
  : Py.dict float :=
  Py.set scores k (Py.get_default scores k 0.0%float + w)%float.

(** The contributors of a chart: Sun, Moon and Rising, then the keys of
    [chart.positions], each once. *)
Definition contributors (chart : Chart) : list string :=
  Py.fromkeys (["Sun"; "Moon"; "Rising"] ++ Py.keys (positions chart)).

(** The sign a contributor votes with; [None] is the [continue] of a
    contributor whose position is [None]. *)
Definition contributor_sign (chart : Chart) (p : string)
  : res (option string) :=
  if String.eqb p "Rising" then Ok (Some (rising_sign chart))
  else if String.eqb p "Sun" then Ok (Some (sun_sign chart))
  else if String.eqb p "Moon" then Ok (Some (moon_sign chart))
  else
    match Py.get (positions chart) p with
    | None | Some PosNone => Ok None
    | Some pos =>
        sign <- _infer_sign_from_lon (getattr_lon pos) ;;
        Ok (Some sign)
    end.

Definition pent_id_of (family : Row) : option string :=
  Py.or_else (Py.get family "pentatonic_mode_id")
             (Py.get family "pentatonic_mode").

Definition quad_id_of (family : Row) : option string :=
  Py.or_else (Py.get family "quadratonic_mode_id")
             (Py.get family "quadratonic_mode").

Definition vote_for (scores : Py.dict float) (id : option string)
    (weight : float) : Py.dict float :=
  match id with
  | Some k => if Py.truthy id then add_score scores k weight else scores
  | None => scores
  end.

(** One turn of the loop over the contributors, on the pair of score
    dictionaries. *)
Definition vote (T : Tables) (chart : Chart)
    (st : Py.dict float * Py.dict float) (p : string)
  : res (Py.dict float * Py.dict float) :=
  let weight := _get_planet_weight p in
  s <- contributor_sign chart p ;;
  match s with
  | None => Ok st
  | Some sign =>
      let family := Py.get_default (modal_index T) sign [] in
      Ok (vote_for (fst st) (pent_id_of family) weight,
          vote_for (snd st) (quad_id_of family) weight)
  end.

Fixpoint votes (T : Tables) (chart : Chart)
    (st : Py.dict float * Py.dict float) (ps : list string)
  : res (Py.dict float * Py.dict float) :=
  match ps with
  | [] => Ok st
  | p :: rest => st' <- vote T chart st p ;; votes T chart st' rest
  end.

(** [max(scores.items(), key=lambda x: x[1])[0] if scores else 'UNKNOWN'] *)
Definition primary (scores : Py.dict float) : string :=
  match Py.max_by Py.float_gt snd scores with
  | Some item => fst item
  | None => "UNKNOWN"
  end.

Definition _aggregate_canonical_modes (T : Tables) (chart : Chart)
  : res (string * string) :=
  st <- votes T chart ([], []) (contributors chart) ;;
  Ok (primary (fst st), primary (snd st)).

(** *** Tension *)

Definition aspect_weight (a : Aspect) : float :=
  match aspect a with
  | Some name => Py.get_default ASPECT_WEIGHTS name 1.0%float
  | None => 1.0%float
  end.

Definition aspect_orb (a : Aspect) : float :=
  match orb a with
  | Some o => o
  | None => 0.0%float
  end.

(** The body of the loop over the aspects. *)
Definition tension_step (score : float) (a : Aspect) : float :=
  let weight := aspect_weight a in
  let orb := aspect_orb a in
  let closeness := Py.max 0.0%float (1.0 - orb / 10.0)%float in
  (score + weight * (1.0 + closeness))%float.

Definition tension_of_aspects (l : list Aspect) : res Z :=
  let score := fold_left tension_step l 0.0%float in
  let max_expected := 40.0%float in
  k <- Py.int_of_float ((score / max_expected) * 100.0)%float ;;
  Ok (Z.min 100 k).

Definition _compute_harmonic_tension (chart : Chart) : res Z :=
  tension_of_aspects (aspects chart).

(** *** Dominant element *)

(** [Counter]: [counts[k] += n] *)
Definition count (counts : Py.dict Z) (k : string) (n : Z) : Py.dict Z :=
  Py.set counts k (Py.get_default counts k 0 + n).

Fixpoint count_signs (counts : Py.dict Z) (vs : list position_value)
  : res (Py.dict Z) :=
  match vs with
  | [] => Ok counts
  | ppos :: rest =>
      sign <- _infer_sign_from_lon (getattr_lon ppos) ;;
      count_signs (count counts sign 1) rest
  end.

Definition count_element (element_counts : Py.dict Z) (item : string * Z)
  : Py.dict Z :=
  let element := Py.get_default ELEMENT_BY_SIGN (fst item) "Unknown" in
  count element_counts element (snd item).

(** The tally of elements, in the order the signs were first counted. *)
Definition element_tally (chart : Chart) : res (Py.dict Z) :=
  let sign_counts := count [] (sun_sign chart) 1 in
  let sign_counts := count sign_counts (moon_sign chart) 1 in
  let sign_counts := count sign_counts (rising_sign chart) 1 in
  sign_counts <- count_signs sign_counts (Py.values (positions chart)) ;;
  Ok (fold_left count_element sign_counts []).

(** [element_counts.most_common(1)[0][0] if element_counts else 'Unknown'] *)
Definition _determine_dominant_element (chart : Chart) : res string :=
  element_counts <- element_tally chart ;;
  match Py.max_by Py.int_gt snd element_counts with
  | Some item => Ok (fst item)
  | None => Ok "Unknown"
  end.

(** *** Sonic payload *)

Definition waveform_map : Py.dict string :=
  [("Water", "sine"); ("Fire", "sawtooth"); ("Air", "triangle");
   ("Earth", "square")].

Definition tempo_of (tension : Z) : res Z :=
  t <- Py.float_of_int tension ;;
  k <- Py.int_of_float ((t / 100.0) * 80.0)%float ;;
  Ok (60 + k).

Definition _build_sonic_payload (T : Tables) (dominant_element : string)
    (tension : Z) : res SonicPayload :=
  let waveform := Py.get_default waveform_map dominant_element "sine" in
  tempo <- tempo_of tension ;;
  let timbres := Py.get_default (timbre_map T) dominant_element [] in
  let timbres :=
    match timbres with
    | [] =>
        if String.eqb dominant_element "Water"
           || String.eqb dominant_element "Air"
        then ["piano"; "strings"] else ["guitar"; "organ"]
    | _ => timbres
    end in
  Ok {| waveform := waveform;
        recommended_tempo_bpm := tempo;
        timbres := timbres |}.

Definition run_harmonic_engine (T : Tables) (chart : Chart)
  : res HarmonicResult :=
  modes <- _aggregate_canonical_modes T chart ;;
  tension <- _compute_harmonic_tension chart ;;
  dominant_element <- _determine_dominant_element chart ;;
  payload <- _build_sonic_payload T dominant_element tension ;;
  Ok {| primary_pentatonic_mode := fst modes;
        primary_quadratonic_mode := snd modes;
        harmonic_tension_index := tension;
        dominant_element := dominant_element;
        sonic_payload := payload |}.

End Engine.

(** ** The scenario of the specification *)

Module Scenario.

Local Open Scope string_scope.

Definition family (sign pent_id quad_id : string) : Row :=
  [("sign", sign); ("pentatonic_mode_id", pent_id);
   ("quadratonic_mode_id", quad_id)].

Definition tables : Tables :=
  {| pent := [];
     quad := [];
     modal_index :=
       [("Leo", family "Leo" "PENT-LEO-1" "QUAD-LEO-1");
        ("Gemini", family "Gemini" "PENT-GEM-1" "QUAD-GEM-1");
        ("Aquarius", family "Aquarius" "PENT-AQU-1" "QUAD-AQU-1")];
     timbre_map := [] |}.

Definition chart : Chart :=
  {| sun_sign := "Leo";
     moon_sign := "Gemini";
     rising_sign := "Aquarius";
     positions := [];
     aspects := [] |}.

Definition an_aspect (kind : string) (deviation : float) : Aspect :=
  {| planet_a := "Sun";
     planet_b := "Moon";
     aspect := Some kind;
     angle := 0.0%float;
     difference := 0.0%float;
     orb := Some deviation |}.

Definition empty_tables : Tables :=
  {| pent := []; quad := []; modal_index := []; timbre_map := [] |}.

(** A planet at 130 degrees, in Leo. *)
Definition mars : position_value :=
  PosRecord {| name := "Mars";
               lon := 130.0%float;
               lat := 0.0%float;
               distance := 1.5%float |}.

(** The chart with a key in [positions] whose value is [None]. *)
Definition chart_with_gap : Chart :=
  {| sun_sign := "Leo";
     moon_sign := "Gemini";
     rising_sign := "Aquarius";
     positions := [("Mars", PosNone)];
     aspects := [] |}.


(** A deviation of about [-1.7e308]; nothing in the scorer bounds it. *)
Definition wide_orb : float := (-0x1.e42d130773b76p+1023)%float.

Definition two_wide_oppositions : list Aspect :=
  [an_aspect "Opposition" wide_orb; an_aspect "Opposition" wide_orb].

End Scenario.

(** ** Subscripts that raise

    [d[k]] on a dictionary raises a [KeyError] that carries the key. *)

Inductive found (A : Type) : Type :=
| Found (a : A)
| KeyError (key : string).

Arguments Found {A} a.
Arguments KeyError {A} key.

Definition bind_found {A B} (r : found A) (k : A -> found B) : found B :=
  match r with
  | Found a => k a
  | KeyError key => KeyError key
  end.

Notation "x <~ r ;; k" := (bind_found r (fun x => k))
  (at level 61, r at next level, right associativity).

(** [d[k]] *)
Definition item {V} (d : Py.dict V) (k : string) : found V :=
  match Py.get d k with
  | Some v => Found v
  | None => KeyError k
  end.

(** ** The ephemeris helpers, [ephemeris_engine/calculator.py] *)

Module Calculator.

Local Open Scope string_scope.

Definition SIGN_NAMES : list string :=
  ["Aries"; "Taurus"; "Gemini"; "Cancer"; "Leo"; "Virgo";
   "Libra"; "Scorpio"; "Sagittarius"; "Capricorn"; "Aquarius"; "Pisces"].

(** [angle % 360.0] *)
Definition normalize_angle (angle : float) : float :=
  Py.float_rem angle 360.0%float.

(** [SIGN_NAMES[int(lon // 30) % 12]], on the normalized longitude. *)
Definition zodiac_sign_from_longitude (lon : float) : res string :=
  let lon := normalize_angle lon in
  i <- Py.int_of_float (Py.float_floor_div lon 30.0%float) ;;
  let idx := i mod 12 in
  Py.index SIGN_NAMES idx.

(** [PlanetPosition(n, v['lon'], v['lat'], v['distance'])] *)
Definition planet_position (n : string) (v : Py.dict float)
  : found PlanetPosition :=
  x_lon <~ item v "lon" ;;
  x_lat <~ item v "lat" ;;
  x_distance <~ item v "distance" ;;
  Found {| name := n; lon := x_lon; lat := x_lat; distance := x_distance |}.

(** The dictionary comprehension, over [positions.items()]. *)
Fixpoint planetposition_items (out : Py.dict PlanetPosition)
    (items : list (string * Py.dict float)) : found (Py.dict PlanetPosition) :=
  match items with
  | [] => Found out
  | (n, v) :: rest =>
      p <~ planet_position n v ;;
      planetposition_items (Py.set out n p) rest
  end.

Definition to_planetposition_dict (positions : Py.dict (Py.dict float))
  : found (Py.dict PlanetPosition) :=
  planetposition_items [] positions.

End Calculator.

(** ** The aspect finder, [ephemeris_engine/aspect_finder.py] *)

Module AspectFinder.

Local Open Scope string_scope.

(** Name, exact angle and orb of each major aspect. *)
Definition ASPECTS : list (string * float * float) :=
  [("Conjunction", 0.0, 8.0); ("Opposition", 180.0, 8.0);
   ("Trine", 120.0, 6.0); ("Square", 90.0, 6.0);
   ("Sextile", 60.0, 4.0)]%float.

Definition angle_difference (a b : float) : float :=
  let diff := abs (Py.float_rem (a - b) 360.0)%float in
  if (180.0 <? diff)%float then (360.0 - diff)%float else diff.

(** The loop over [ASPECTS] with its [break]: the record of the first
    aspect within orb, if any. *)
Fixpoint first_aspect (a b : string) (diff : float)
    (kinds : list (string * float * float)) : option Aspect :=
  match kinds with
  | [] => None
  | (aspect_name, angle, orb) :: rest =>
      if (abs (diff - angle) <=? orb)%float then
        Some {| planet_a := a;
                planet_b := b;
                aspect := Some aspect_name;
                angle := angle;
                difference := diff;
                orb := Some (abs (diff - angle)) |}
      else first_aspect a b diff rest
  end.

(** [positions[a]['lon']] *)
Definition lon_of (positions : Py.dict (Py.dict float)) (a : string)
  : found float :=
  v <~ item positions a ;; item v "lon".

(** The inner loop: [a = names[i]] against each later name. *)
Fixpoint pairs_with (positions : Py.dict (Py.dict float)) (a : string)
    (later : list string) (results : list Aspect) : found (list Aspect) :=
  match later with
  | [] => Found results
  | b :: rest =>
      lon_a <~ lon_of positions a ;;
      lon_b <~ lon_of positions b ;;
      let diff := angle_difference lon_a lon_b in
      let results :=
        match first_aspect a b diff ASPECTS with
        | Some r => (results ++ [r])%list
        | None => results
        end in
      pairs_with positions a rest results
  end.

(** The outer loop, over the names from index [i] on. *)
Fixpoint pairs (positions : Py.dict (Py.dict float)) (names : list string)
    (results : list Aspect) : found (list Aspect) :=
  match names with
  | [] => Found results
  | a :: rest =>
      results <~ pairs_with positions a rest results ;;
      pairs positions rest results
  end.

Definition find_aspects (positions : Py.dict (Py.dict float))
  : found (list Aspect) :=
  pairs positions (Py.keys positions) [].

End AspectFinder.

(** ** The chart mapper, [harmonic_engine/chart_mapper.py] *)

Module ChartMapper.

Local Open Scope string_scope.

(** [index.get(sign, {})], the index being the modal family table. *)
Definition map_sign_to_modal_family (T : Tables) (sign : string) : Row :=
  Py.get_default (modal_index T) sign [].

Definition map_chart_to_modal_families (T : Tables) (chart : Chart)
  : Py.dict Row :=
  let result := [] in
  let result := Py.set result "Sun" (map_sign_to_modal_family T (sun_sign chart)) in
  let result := Py.set result "Moon" (map_sign_to_modal_family T (moon_sign chart)) in
  let result := Py.set result "Rising" (map_sign_to_modal_family T (rising_sign chart)) in
  result.

End ChartMapper.

(** ** Scales and tracks, [midi_engine] *)

Module Midi.

Local Open Scope string_scope.

(** [midi_engine.composition_builder] *)
Record Note := {
  midi : Z;
  length_beats : float;
  velocity : Z
}.

Record Track := {
  name : string;
  notes : list Note
}.

Record Composition := {
  tracks : list Track;
  tempo_bpm : Z
}.

Definition ELEMENT_ROOT : Py.dict Z :=
  [("Fire", 62); ("Earth", 60); ("Air", 64); ("Water", 65)].

(** The inner loop of [generate_scale_notes]: one pass over the
    intervals. *)
Fixpoint add_intervals (current : Z) (notes : list Z) (intervals : list Z)
  : Z * list Z :=
  match intervals with
  | [] => (current, notes)
  | i :: rest =>
      let current := current + i in
      add_intervals current (notes ++ [current])%list rest
  end.

(** [for _ in range(octaves)] *)
Fixpoint add_octaves (octaves : nat) (current : Z) (notes : list Z)
    (intervals : list Z) : list Z :=
  match octaves with
  | O => notes
  | S n =>
      let '(current, notes) := add_intervals current notes intervals in
      add_octaves n current notes intervals
  end.

(** [for _ in range(repeats): for n in notes: seq.append(Note(...))] *)
Fixpoint repeat_notes (repeats : nat) (seq : list Note) (notes : list Z)
    (note_length : float) (velocity : Z) : list Note :=
  match repeats with
  | O => seq
  | S n =>
      repeat_notes n
        (fold_left
           (fun seq n =>
              (seq ++ [{| midi := n; length_beats := note_length;
                          velocity := velocity |}])%list)
           notes seq)
        notes note_length velocity
  end.

Definition build_arpeggio_track (name : string) (notes : list Z)
    (repeats : Z) (note_length : float) (velocity : Z) : Track :=
  {| name := name;
     notes := repeat_notes (Z.to_nat repeats) [] notes note_length velocity |}.

Definition build_bass_track (name : string) (notes : list Z)
    (repeats : Z) (note_length : float) (velocity : Z) : Track :=
  let bass_notes :=
    match notes with
    | [] => [48]
    | _ => map (fun n => n - 12) (firstn 4 notes)
    end in
  {| name := name;
     notes := repeat_notes (Z.to_nat repeats) [] bass_notes note_length velocity |}.

Section ScaleGenerator.

(** [parse_semitone_pattern]: the integers a dash-separated pattern
    holds.  The scale is built from its result, whatever it is. *)
Variable parse_semitone_pattern : string -> list Z.

Definition generate_scale_notes (root_midi : Z) (pattern : string)
    (octaves : Z) : list Z :=
  let intervals := parse_semitone_pattern pattern in
  match intervals with
  | [] => [root_midi]
  | _ => add_octaves (Z.to_nat octaves) root_midi [root_midi] intervals
  end.

(** [generate_midi_from_result], up to the composition it exports. *)
Definition composition_of_result (T : Tables) (result : HarmonicResult)
  : Composition :=
  let pent_mode := Py.get (pent T) (primary_pentatonic_mode result) in
  let quad_mode := Py.get (quad T) (primary_quadratonic_mode result) in
  let semitone_pattern :=
    match pent_mode with
    | Some (_ :: _ as row) => Py.get row "semitone_pattern"
    | _ => None
    end in
  let semitone_pattern :=
    if negb (Py.truthy semitone_pattern) then
      match quad_mode with
      | Some (_ :: _ as row) => Py.get row "semitone_pattern"
      | _ => semitone_pattern
      end
    else semitone_pattern in
  let semitone_pattern :=
    match semitone_pattern with
    | Some p => if Py.truthy semitone_pattern then p else "2-2-3-2-3"
    | None => "2-2-3-2-3"
    end in
  let root := Py.get_default ELEMENT_ROOT (dominant_element result) 60 in
  let notes := generate_scale_notes root semitone_pattern 2 in
  let arpeggio := build_arpeggio_track "lead" notes 8 0.5%float 90 in
  let bass := build_bass_track "bass" notes 8 2.0%float 70 in
  {| tracks := [arpeggio; bass];
     tempo_bpm := recommended_tempo_bpm (sonic_payload result) |}.

End ScaleGenerator.

End Midi.

(** ** Prompt styles, [ai_music_engine] *)

Module Style.

Local Open Scope string_scope.

(** [ai_music_engine/style_mappings.py] *)
Definition PLANET_INSTRUMENTS : Py.dict (list string) :=
  [("Sun", ["lead synth"; "brass"]);
   ("Moon", ["pad"; "soft piano"]);
   ("Mercury", ["pluck synth"; "acoustic guitar"]);
   ("Venus", ["electric piano"; "warm pad"]);
   ("Mars", ["distorted guitar"; "taiko"]);
   ("Jupiter", ["orchestral brass"; "choir"]);
   ("Saturn", ["low organ"; "muted brass"]);
   ("Uranus", ["FM synth"; "glitch percussion"]);
   ("Neptune", ["choir pad"; "glass harmonics"]);
   ("Pluto", ["sub-bass"; "dark drone"])].

Definition tension_to_dynamics (hti : Z) : string :=
  if (hti <? 20)%Z then "very soft, sparse dynamics"
  else if (hti <? 40)%Z then "soft, gentle dynamics"
  else if (hti <? 60)%Z then "moderate dynamics, steady pulse"
  else if (hti <? 80)%Z then "strong dynamics, pronounced accents"
  else "very strong, aggressive dynamics with heavy impact".

(** [ai_music_engine/prompt_builder.py]: the methods of
    [MusicPromptBuilder], on the result the builder holds. *)
Definition _get_structure_description (result : HarmonicResult) : string :=
  let tense := harmonic_tension_index result in
  if (tense <? 30)%Z then "ambient intro -> gentle theme -> ambient outro"
  else if (tense <? 60)%Z then "intro -> build -> motif -> bridge -> resolution"
  else "strong intro -> driving section -> intense climax -> release".

(** [for i in instruments: if i not in out: out.append(i)] *)
Definition remove_duplicates (instruments : list string) : list string :=
  fold_left
    (fun out i => if existsb (String.eqb i) out then out else (out ++ [i])%list)
    instruments [].

Definition _get_instrument_suggestions (result : HarmonicResult) : list string :=
  let elem := dominant_element result in
  let of_planet p := Py.get_default PLANET_INSTRUMENTS p [] in
  let instruments :=
    if String.eqb elem "Fire" then (of_planet "Mars" ++ of_planet "Sun")%list
    else if String.eqb elem "Water" then (of_planet "Moon" ++ of_planet "Neptune")%list
    else if String.eqb elem "Air" then (of_planet "Mercury" ++ of_planet "Uranus")%list
    else if String.eqb elem "Earth" then (of_planet "Venus" ++ of_planet "Saturn")%list
    else [] in
  firstn 6 (remove_duplicates instruments).

End Style.

(** ** A sample sky *)

Module Sample.

Local Open Scope string_scope.

Definition raw (x_lon : float) : Py.dict float :=
  [("lon", x_lon); ("lat", 0.0%float); ("distance", 1.0%float)].

(** Sun at 130, Moon at 70.5 and Mars at 310 degrees: a sextile, an
    opposition and a trine. *)
Definition raw_positions : Py.dict (Py.dict float) :=
  [("Sun", raw 130.0); ("Moon", raw 70.5); ("Mars", raw 310.0)].

(** The scenario's chart with Mars in Leo. *)
Definition chart_with_mars : Chart :=
  {| sun_sign := "Leo";
     moon_sign := "Gemini";
     rising_sign := "Aquarius";
     positions := [("Mars", Scenario.mars)];
     aspects := [Scenario.an_aspect "Trine" 2.0%float] |}.

(** A longitude just below zero, [-2 ^ -67]. *)
Definition just_below_zero : float := (-0x1p-67)%float.

(** The major pentatonic pattern, [2-2-3-2-3], already parsed. *)
Definition major_pentatonic (pattern : string) : list Z := [2; 2; 3; 2; 3].

Definition forty_trines : list Aspect :=
  repeat (Scenario.an_aspect "Trine" 2.0%float) 40.

End Sample.

(** * Vocabulary of the properties *)

(** ** The tension formula, as the specification words it

    The weight table by cases, the closeness, the sum over the aspect
    records and the final [floor], all in binary64 arithmetic and in list
    order. *)

Module Spec.

Local Open Scope string_scope.

Definition weight (kind : option string) : float :=
  match kind with
  | Some k =>
      if String.eqb k "Conjunction" then 1.0%float
      else if String.eqb k "Opposition" then 3.0%float
      else if String.eqb k "Trine" then 1.5%float
      else if String.eqb k "Square" then 2.5%float
      else if String.eqb k "Sextile" then 1.0%float
      else 1.0%float
  | None => 1.0%float
  end.

(** [max(0, 1 - orb_deviation / 10)] *)
Definition closeness (orb_deviation : float) : float :=
  let c := (1.0 - orb_deviation / 10.0)%float in
  if (0.0 <? c)%float then c else 0.0%float.

Definition contribution (a : Aspect) : float :=
  (weight (aspect a) * (1.0 + closeness (Engine.aspect_orb a)))%float.

Definition sum (xs : list float) : float :=
  fold_left PrimFloat.add xs 0.0%float.

Definition total (l : list Aspect) : float := sum (map contribution l).

(** [floor(x)] as an integer: towards minus infinity, where [int] goes
    towards zero; undefined on [nan] and the infinities, as Python's
    [math.floor] is. *)
Definition floor (x : float) : res Z :=
  match Prim2SF x with
  | S754_zero _ => Ok 0
  | S754_finite s m e => Ok (Z.shiftl (cond_Zopp s (Z.pos m)) e)
  | S754_infinity _ => Raise OverflowError
  | S754_nan => Raise ValueError
  end.

(** [min(100, floor(total / 40.0 * 100))] *)
Definition tension (l : list Aspect) : res Z :=
  k <- floor (total l / 40.0 * 100.0)%float ;; Ok (Z.min 100 k).

End Spec.

(** ** Aspect lists *)

(** What [int] is applied to at the end of the loop. *)
Definition scaled_total (l : list Aspect) : float :=
  (fold_left Engine.tension_step l 0.0 / 40.0 * 100.0)%float.

(** No deviation is negative: what [find_aspects] produces, an absolute
    value. *)
Definition orbs_nonneg (l : list Aspect) : Prop :=
  forall a, In a l -> (0.0 <=? Engine.aspect_orb a)%float = true.

(** ** Tempo *)

Definition tempo_ok (t : Z) : bool :=
  match Engine.tempo_of t with
  | Ok bpm => bpm =? 60 + t * 80 / 100
  | Raise _ => false
  end.

(** ** Longitudes and signs *)

(** The bounds of the twelve 30-degree segments. *)
Definition segment_start (k : nat) : float :=
  nth k [0.0; 30.0; 60.0; 90.0; 120.0; 150.0; 180.0; 210.0; 240.0; 270.0;
         300.0; 330.0; 360.0]%float nan.

(** [30 k <= lon < 30 (k + 1)]: segment [k] is the one of [lon], that is
    [k = floor(lon / 30)]. *)
Definition in_segment (lon : float) (k : nat) : bool :=
  (segment_start k <=? lon)%float && (lon <? segment_start (S k))%float.

Definition whole (k : nat) : float :=
  nth k [0.0; 1.0; 2.0; 3.0; 4.0; 5.0; 6.0; 7.0; 8.0; 9.0; 10.0; 11.0]%float nan.

(** What [_float_div_mod] does with the quotient once the remainder is
    settled. *)
Definition snap (div vx wx : float) : float :=
  if negb (div =? 0.0)%float then
    let fd := Py.floor div in
    if (0.5 <? div - fd)%float then (fd + 1.0)%float else fd
  else Py.copysign_zero (vx / wx)%float.

(** ** Charts *)

(** The invariant of the data model: a longitude lies in [[0, 360)]. *)
Definition lon_in_range (x : float) : bool :=
  (0.0 <=? x)%float && (x <? 360.0)%float.

Definition well_formed (chart : Chart) : Prop :=
  forall k p, In (k, PosRecord p) (positions chart) -> lon_in_range (lon p) = true.

Definition luminaries : list string := ["Sun"; "Moon"; "Rising"]%string.

(** The chart with one more key in [chart.positions]. *)
Definition add_position (chart : Chart) (p : string) (pos : position_value) : Chart :=
  {| sun_sign := sun_sign chart;
     moon_sign := moon_sign chart;
     rising_sign := rising_sign chart;
     positions := positions chart ++ [(p, pos)];
     aspects := aspects chart |}.

(** A contributor with no position, or whose sign has no row in the modal
    family table. *)
Definition casts_no_vote (T : Tables) (chart : Chart) (p : string) : Prop :=
  Engine.contributor_sign chart p = Ok None \/
  exists s, Engine.contributor_sign chart p = Ok (Some s) /\
            Py.get (modal_index T) s = None.

(** The score of [w] is strictly greater than every other score. *)
Definition leads (scores : Py.dict float) (w : string) : Prop :=
  exists sw, Py.get scores w = Some sw /\
             forall k x, In (k, x) scores -> k <> w -> (x <? sw)%float = true.

(** ** Binary64 numbers by their values

    A finite binary64 number is a mantissa [m] and an exponent [e >= -1074]
    with [m < 2 ^ 53], canonical when [m] has as many bits as its exponent
    allows.  All the exponents that arise are above [-K]: values are
    compared as integers, scaled by [2 ^ K]. *)

Module B64.

Abbreviation fexp := (SpecFloat.fexp prec emax).
Abbreviation digits := Zdigits2.
Abbreviation K := 2200.

(** The record that [shr] leaves of the quotient [N / D]: its integer part,
    and where the remainder lies with respect to one half. *)
Definition inbetween (N D : Z) (mrs : shr_record) : Prop :=
  shr_m mrs = N / D /\
  match shr_r mrs, shr_s mrs with
  | false, false => N mod D = 0
  | false, true => 0 < 2 * (N mod D) < D
  | true, false => 2 * (N mod D) = D
  | true, true => D < 2 * (N mod D)
  end.

(** What [binary_round_aux] builds from the rounded mantissa. *)
Definition round_result (s : bool) (m2 e2 : Z) : spec_float :=
  match m2 with
  | 0 => S754_zero s
  | Z.pos m => if e2 <=? emax - prec then S754_finite s m e2 else S754_infinity s
  | Z.neg _ => S754_nan
  end.

(** The value [m * 2 ^ e], scaled by [2 ^ K] to stay an integer. *)
Definition val (m e : Z) : Z := m * 2 ^ (e + K).

Definition canonical (m e : Z) : Prop := 0 < m /\ fexp (digits m + e) = e.

(** [c] is the scaled value of a binary64 number. *)
Definition repr (c : Z) : Prop :=
  exists M E, canonical M E /\ E <= 971 /\ val M E = c.

(** [x] is finite and positive, of scaled value [v]. *)
Definition fin (x : float) (v : Z) : Prop :=
  exists m e, Prim2SF x = S754_finite false m e /\ val (Z.pos m) e = v.

(** [x] is [+0.0], positive and finite, or [+infinity]. *)
Definition nonneg (x : float) : Prop :=
  Prim2SF x = S754_zero false \/ (exists v, fin x v) \/
  Prim2SF x = S754_infinity false.

(** [x] is [+infinity], or finite and at least [c]. *)
Definition at_least (c : Z) (x : float) : Prop :=
  Prim2SF x = S754_infinity false \/ exists v, fin x v /\ c <= v.

(** [x] is [+0.0], or finite, positive and at most [c]. *)
Definition at_most (c : Z) (x : float) : Prop :=
  Prim2SF x = S754_zero false \/ exists v, fin x v /\ v <= c.

(** The scaled value of [2 ^ -7]: every constant of the engine is a
    multiple of it. *)
Definition u7 : Z := 2 ^ (K - 7).

(** The scaled value of [h / 2]: the planet weights are halves. *)
Definition halves (h : Z) : Z := h * 2 ^ (-1 + K).

(** After [n] votes a score dictionary has distinct, non-empty keys and
    holds between 1 and [6 n] halves under each. *)
Definition scores_ok (n : Z) (d : Py.dict float) : Prop :=
  NoDup (Py.keys d) /\
  forall k x, In (k, x) d ->
    k <> EmptyString /\ exists h, 0 < h <= 6 * n /\ fin x (halves h).

End B64.

Import B64.

(** ** Words for the further properties *)

Section Words.

Local Open Scope string_scope.

(** A raw position holds a longitude. *)
Definition has_lon (v : Py.dict float) : Prop := Py.get v "lon" <> None.

(** An aspect record as the finder builds it: of one of the five kinds,
    with that kind's exact angle, and an orb that is the distance of the
    difference to the exact angle, between 0 and the kind's limit. *)
Definition within_orb (r : Aspect) : Prop :=
  exists kind exact limit o,
    In (kind, exact, limit) AspectFinder.ASPECTS /\
    aspect r = Some kind /\ angle r = exact /\ orb r = Some o /\
    o = abs (difference r - exact)%float /\
    (0.0 <=? o)%float = true /\ (o <=? limit)%float = true.

(** [a] comes before [b] in [names]. *)
Definition precedes (names : list string) (a b : string) : Prop :=
  exists l1 l2 l3, names = (l1 ++ a :: l2 ++ b :: l3)%list.

(** The five labels an element tally can hold. *)
Definition element_labels : list string :=
  ["Fire"; "Earth"; "Air"; "Water"; "Unknown"].

Definition waveforms : list string := ["sine"; "sawtooth"; "triangle"; "square"].

(** The sum of the counts of a tally. *)
Definition tally_total (d : Py.dict Z) : Z := fold_right Z.add 0 (Py.values d).

(** A contributor of the chart votes with a sign whose row offers [id]. *)
Definition offered (id_of : Row -> option string) (T : Tables) (chart : Chart)
    (id : string) : Prop :=
  exists p sign,
    In p (Engine.contributors chart) /\
    Engine.contributor_sign chart p = Ok (Some sign) /\
    id_of (ChartMapper.map_sign_to_modal_family T sign) = Some id.

(** The finder can read the longitude stored under [a]. *)
Definition readable (positions : Py.dict (Py.dict float)) (a : string) : Prop :=
  exists x, AspectFinder.lon_of positions a = Found x.

(** [ELEMENT_BY_SIGN.get(sign, 'Unknown')] *)
Definition element_of (s : string) : string :=
  Py.get_default Engine.ELEMENT_BY_SIGN s "Unknown".

(** The notes reached from [from] by stepping through [intervals]. *)
Fixpoint climb (from : Z) (intervals : list Z) : list Z :=
  match intervals with
  | [] => []
  | i :: rest => (from + i) :: climb (from + i) rest
  end.

Definition sum_intervals (intervals : list Z) : Z := fold_right Z.add 0 intervals.

(** [l] repeated [n] times. *)
Definition cycle {A} (n : nat) (l : list A) : list A := List.concat (repeat l n).

(** A raw position holds the three fields of a [PlanetPosition]. *)
Definition complete (v : Py.dict float) : Prop :=
  Py.get v "lon" <> None /\ Py.get v "lat" <> None /\ Py.get v "distance" <> None.

(** [p] is the record of the raw position [v] of planet [n]. *)
Definition record_of (n : string) (v : Py.dict float) (p : PlanetPosition) : Prop :=
  name p = n /\ Py.get v "lon" = Some (lon p) /\ Py.get v "lat" = Some (lat p) /\
  Py.get v "distance" = Some (distance p).

(** [x] is neither [nan] nor an infinity. *)
Definition finite (x : float) : bool := (abs x <? infinity)%float.

End Words.

(** * Properties *)

(** * Binary64 rounding, from [SpecFloat] *)

Lemma pow2_pos e : 0 < 2 ^ e \/ e < 0.
Proof. destruct (Z_lt_le_dec e 0); [right; lia | left; apply Z.pow_pos_nonneg; lia]. Qed.

Lemma pow2_gt0 e : 0 <= e -> 0 < 2 ^ e.
Proof. intros; apply Z.pow_pos_nonneg; lia. Qed.

Lemma pow2_add a b : 0 <= a -> 0 <= b -> 2 ^ (a + b) = 2 ^ a * 2 ^ b.
Proof. intros; apply Z.pow_add_r; lia. Qed.

Lemma pow2_le a b : a <= b -> 0 <= a -> 2 ^ a <= 2 ^ b.
Proof. intros; apply Z.pow_le_mono_r; lia. Qed.

Lemma pow2_lt a b : a < b -> 0 <= a -> 2 ^ a < 2 ^ b.
Proof. intros; apply Z.pow_lt_mono_r; lia. Qed.

Lemma digits2_pos_bounds p :
  2 ^ (Z.pos (digits2_pos p) - 1) <= Z.pos p < 2 ^ Z.pos (digits2_pos p).
Proof.
  induction p as [p IH|p IH|]; cbn [digits2_pos].
  - rewrite Pos2Z.inj_succ.
    replace (Z.succ (Z.pos (digits2_pos p)) - 1) with (Z.pos (digits2_pos p) - 1 + 1) by lia.
    rewrite Z.pow_succ_r by lia. rewrite pow2_add by lia. lia.
  - rewrite Pos2Z.inj_succ.
    replace (Z.succ (Z.pos (digits2_pos p)) - 1) with (Z.pos (digits2_pos p) - 1 + 1) by lia.
    rewrite Z.pow_succ_r by lia. rewrite pow2_add by lia. lia.
  - cbn. lia.
Qed.

Lemma digits_bounds m : 0 < m -> 2 ^ (digits m - 1) <= m < 2 ^ digits m.
Proof. destruct m; try lia. intros _. apply digits2_pos_bounds. Qed.

Lemma digits_pos m : 0 < m -> 0 < digits m.
Proof. destruct m; cbn; lia. Qed.

Lemma digits_unique m k : 2 ^ (k - 1) <= m < 2 ^ k -> 0 < m -> digits m = k.
Proof.
  intros H Hm. pose proof (digits_bounds m Hm) as Hd.
  pose proof (digits_pos m Hm).
  assert (0 < k).
  { destruct (Z_lt_le_dec 0 k); [lia|]. 
    assert (2 ^ k <= 1); [|lia].
    destruct (Z.eq_dec k 0); [subst; cbn; lia|].
    rewrite Z.pow_neg_r by lia. lia. }
  destruct (Z.lt_trichotomy (digits m) k) as [Hlt|[Heq|Hgt]]; [|exact Heq|].
  - assert (2 ^ digits m <= 2 ^ (k - 1)) by (apply pow2_le; lia). lia.
  - assert (2 ^ k <= 2 ^ (digits m - 1)) by (apply pow2_le; lia). lia.
Qed.

Lemma div2_xI p : Z.pos p~1 / 2 = Z.pos p.
Proof. symmetry. apply (Z.div_unique _ 2 _ 1); lia. Qed.
Lemma mod2_xI p : Z.pos p~1 mod 2 = 1.
Proof. symmetry. apply (Z.mod_unique _ 2 (Z.pos p)); lia. Qed.
Lemma div2_xO p : Z.pos p~0 / 2 = Z.pos p.
Proof. symmetry. apply (Z.div_unique _ 2 _ 0); lia. Qed.
Lemma mod2_xO p : Z.pos p~0 mod 2 = 0.
Proof. symmetry. apply (Z.mod_unique _ 2 (Z.pos p)); lia. Qed.

Lemma shr_1_inbetween N D mrs :
  0 <= N -> 0 < D -> inbetween N D mrs -> inbetween N (D * 2) (shr_1 mrs).
Proof.
  intros HN HD [Hm Hl]. destruct mrs as [m r s]. cbn [shr_m shr_r shr_s] in *.
  assert (Hdiv : N / (D * 2) = (N / D) / 2) by (rewrite Z.div_div; lia).
  assert (Hmod : N mod (D * 2) = N mod D + D * ((N / D) mod 2))
    by (apply Z.rem_mul_r; lia).
  pose proof (Z.mod_pos_bound N D HD) as HR.
  assert (Hs : (r || s)%bool = false -> N mod D = 0).
  { destruct r, s; cbn; intros; try discriminate; lia. }
  assert (Hs' : (r || s)%bool = true -> 0 < N mod D).
  { destruct r, s; cbn; intros; try discriminate; lia. }
  rewrite <- Hm in Hdiv, Hmod.
  unfold inbetween, shr_1. 
  destruct m as [|[p|p|]|p]; cbn [shr_m shr_r shr_s].
  - rewrite Hdiv, Hmod. change (0 mod 2) with 0. change (0 / 2) with 0. split; [reflexivity|].
    destruct ((r || s)%bool); [specialize (Hs' eq_refl)|specialize (Hs eq_refl)]; lia.
  - rewrite Hdiv, Hmod. 
    rewrite div2_xI, mod2_xI.
    split; [reflexivity|].
    destruct ((r || s)%bool); [specialize (Hs' eq_refl)|specialize (Hs eq_refl)]; lia.
  - rewrite Hdiv, Hmod. 
    rewrite div2_xO, mod2_xO.
    split; [reflexivity|].
    destruct ((r || s)%bool); [specialize (Hs' eq_refl)|specialize (Hs eq_refl)]; lia.
  - rewrite Hdiv, Hmod. change (1 / 2) with 0. change (1 mod 2) with 1. 
    split; [reflexivity|].
    destruct ((r || s)%bool); [specialize (Hs' eq_refl)|specialize (Hs eq_refl)]; lia.
  - exfalso. assert (0 <= N / D) by (apply Z.div_pos; lia). lia.
Qed.

Lemma iter_pos_shr_1_inbetween p : forall N D mrs,
  0 <= N -> 0 < D -> inbetween N D mrs ->
  inbetween N (D * 2 ^ Z.pos p) (iter_pos shr_1 p mrs).
Proof.
  induction p as [p IH|p IH|]; intros N D mrs HN HD H; cbn [iter_pos].
  - replace (D * 2 ^ Z.pos p~1) with (D * 2 * 2 ^ Z.pos p * 2 ^ Z.pos p).
    + assert (0 < 2 ^ Z.pos p) by (apply pow2_gt0; lia).
      apply IH; [lia|nia|]. apply IH; [lia|lia|]. apply shr_1_inbetween; assumption.
    + replace (Z.pos p~1) with (1 + Z.pos p + Z.pos p) by lia.
      rewrite !pow2_add by lia. change (2 ^ 1) with 2. ring.
  - replace (D * 2 ^ Z.pos p~0) with (D * 2 ^ Z.pos p * 2 ^ Z.pos p).
    + assert (0 < 2 ^ Z.pos p) by (apply pow2_gt0; lia).
      apply IH; [lia|nia|]. apply IH; [lia|lia|]. assumption.
    + replace (Z.pos p~0) with (Z.pos p + Z.pos p) by lia.
      rewrite pow2_add by lia. ring.
  - change (2 ^ 1) with 2. apply shr_1_inbetween; assumption.
Qed.

Lemma shr_inbetween N D mrs e n :
  0 <= N -> 0 < D -> 0 <= n -> inbetween N D mrs ->
  inbetween N (D * 2 ^ n) (fst (shr mrs e n)) /\ snd (shr mrs e n) = e + n.
Proof.
  intros HN HD Hn H. unfold shr. destruct n as [|p|p]; cbn [fst snd].
  - rewrite Z.mul_1_r. split; [assumption|lia].
  - split; [|reflexivity]. apply iter_pos_shr_1_inbetween; assumption.
  - lia.
Qed.

Ltac fexp_lia := unfold SpecFloat.fexp, SpecFloat.emin, prec, emax in *; lia.

Lemma fexp_eq e : fexp e = Z.max (e - 53) (-1074).
Proof. reflexivity. Qed.

Lemma fexp_ge e : -1074 <= fexp e.
Proof. rewrite fexp_eq; lia. Qed.

Lemma fexp_mono a b : a <= b -> fexp a <= fexp b.
Proof. rewrite !fexp_eq; lia. Qed.

Lemma digits_nonneg m : 0 <= digits m.
Proof. destruct m; cbn; lia. Qed.

Lemma digits_div_pow2 m n :
  0 < m -> 0 <= n -> n < digits m -> 
  0 < m / 2 ^ n /\ digits (m / 2 ^ n) = digits m - n.
Proof.
  intros Hm Hn Hlt. pose proof (digits_bounds m Hm) as [Hlo Hhi].
  assert (Hp : 0 < 2 ^ n) by (apply pow2_gt0; lia).
  assert (H1 : 2 ^ (digits m - n - 1) <= m / 2 ^ n).
  { apply Z.div_le_lower_bound; [lia|].
    rewrite <- pow2_add by lia. replace (n + (digits m - n - 1)) with (digits m - 1) by lia.
    exact Hlo. }
  assert (H2 : m / 2 ^ n < 2 ^ (digits m - n)).
  { apply Z.div_lt_upper_bound; [lia|].
    rewrite <- pow2_add by lia. replace (n + (digits m - n)) with (digits m) by lia.
    exact Hhi. }
  assert (0 < 2 ^ (digits m - n - 1)) by (apply pow2_gt0; lia).
  split; [lia|]. apply digits_unique; [split; assumption|lia].
Qed.

Lemma div_pow2_small m n : 0 <= m -> digits m <= n -> m / 2 ^ n = 0.
Proof.
  intros Hm Hn. destruct (Z.eq_dec m 0) as [->|Hne]; [apply Z.div_0_l; pose proof (pow2_gt0 n); pose proof (digits_nonneg 0); cbn in *; lia|].
  pose proof (digits_bounds m ltac:(lia)) as [_ Hhi].
  pose proof (digits_pos m ltac:(lia)).
  apply Z.div_small. split; [lia|].
  assert (2 ^ digits m <= 2 ^ n) by (apply pow2_le; lia). lia.
Qed.

Lemma digits_succ m :
  0 < m -> digits (m + 1) = digits m \/
           (m + 1 = 2 ^ digits m /\ digits (m + 1) = digits m + 1).
Proof.
  intros Hm. pose proof (digits_bounds m Hm) as [Hlo Hhi].
  pose proof (digits_pos m Hm).
  destruct (Z.eq_dec (m + 1) (2 ^ digits m)) as [E|E].
  - right. split; [exact E|]. apply digits_unique; [|lia].
    replace (digits m + 1 - 1) with (digits m) by lia. split; [lia|].
    rewrite E. apply pow2_lt; lia.
  - left. apply digits_unique; lia.
Qed.

Lemma rne_cases N D mrs :
  0 < D -> inbetween N D mrs ->
  let m1 := round_nearest_even (shr_m mrs) (loc_of_shr_record mrs) in
  m1 = N / D \/ (m1 = N / D + 1 /\ N mod D <> 0).
Proof.
  intros HD [Hm Hl].
  destruct mrs as [m [|] [|]];
    cbn [shr_m shr_r shr_s round_nearest_even loc_of_shr_record] in *; subst m.
  - right; split; lia.
  - destruct (Z.even (N / D)); [left; reflexivity|right; split; lia].
  - left; reflexivity.
  - left; reflexivity.
Qed.

Lemma shr_record_of_loc_m m l : shr_m (shr_record_of_loc m l) = m.
Proof. destruct l as [|[| |]]; reflexivity. Qed.


Lemma shr_fexp_exact_second m1 e1 :
  0 <= m1 -> -1074 <= e1 ->
  (0 < m1 -> fexp (digits m1 + e1) = e1 \/
             (exists d, 0 < d /\ m1 = 2 ^ d /\ fexp (d + e1) = e1)) ->
  (m1 = 0 \/ 0 < m1) ->
  exists m2 e2,
    shr_fexp prec emax m1 e1 loc_Exact = ({| shr_m := m2; shr_r := false; shr_s := false |}, e2)
    /\ e1 <= e2 /\ m1 = m2 * 2 ^ (e2 - e1) /\ 0 <= m2 /\
    (0 < m2 -> fexp (digits m2 + e2) = e2).
Proof.
  intros Hm1 He1 Hc _. unfold shr_fexp. cbn [shr_record_of_loc].
  destruct (Z.eq_dec m1 0) as [->|Hne].
  - exists 0, e1. cbn [Zdigits2]. rewrite Z.add_0_l.
    assert (fexp e1 - e1 <= 0) by (rewrite fexp_eq; lia).
    unfold shr. destruct (fexp e1 - e1) eqn:E; try lia; (split; [reflexivity|]); repeat split; try lia.
  - destruct (Hc ltac:(lia)) as [Hcan|(d & Hd & Hpow & Hcan)].
    + exists m1, e1. rewrite Hcan, Z.sub_diag. cbn [shr].
      split; [reflexivity|]. rewrite ?Z.sub_diag, ?Z.mul_1_r. repeat split; first [lia | intros _; exact Hcan].
    + assert (Hdig : digits m1 = d + 1).
      { apply digits_unique; [|lia]. rewrite Hpow. replace (d + 1 - 1) with d by lia.
        split; [lia|apply pow2_lt; lia]. }
      rewrite Hdig.
      assert (Hf : fexp (d + 1 + e1) = e1 \/ fexp (d + 1 + e1) = e1 + 1)
        by (rewrite fexp_eq in *; lia).
      destruct Hf as [Hf|Hf]; rewrite Hf.
      * exists m1, e1. rewrite Z.sub_diag. cbn [shr]. split; [reflexivity|].
        rewrite ?Z.sub_diag, ?Z.mul_1_r. repeat split; first [lia | intros _; rewrite Hdig; exact Hf].
      * replace (e1 + 1 - e1) with 1 by lia. cbn [shr iter_pos].
        exists (2 ^ (d - 1)), (e1 + 1).
        assert (Hm : m1 = 2 * 2 ^ (d - 1)).
        { rewrite Hpow. replace d with (1 + (d - 1)) at 1 by lia. rewrite pow2_add by lia. reflexivity. }
        assert (0 < 2 ^ (d - 1)) by (apply pow2_gt0; lia).
        split.
        { rewrite Hm. destruct (2 ^ (d - 1)) as [|q|q] eqn:Eq; try lia.
          cbn. f_equal. }
        replace (e1 + 1 - e1) with 1 by lia. change (2 ^ 1) with 2.
        repeat split; try lia. intros _.
        assert (digits (2 ^ (d - 1)) = d).
        { apply digits_unique; [|lia]. split; [lia|]. apply pow2_lt; lia. }
        rewrite H0. replace (d + (e1 + 1)) with (d + 1 + e1) by lia. exact Hf.
Qed.

Lemma binary_round_aux_struct s mx ex lx N D :
  0 < D -> 0 <= N -> inbetween N D (shr_record_of_loc mx lx) ->
  ex <= fexp (digits mx + ex) ->
  let e1 := fexp (digits mx + ex) in
  let D1 := D * 2 ^ (e1 - ex) in
  exists m1 m2 e2,
    (m1 = N / D1 \/ (m1 = N / D1 + 1 /\ N mod D1 <> 0)) /\
    e1 <= e2 /\ m1 = m2 * 2 ^ (e2 - e1) /\ 0 <= m2 /\
    (0 < m2 -> fexp (digits m2 + e2) = e2) /\
    (0 < N / D1 -> fexp (digits (N / D1) + e1) = e1) /\
    (N / D1 = 0 -> e1 = -1074) /\
    binary_round_aux prec emax s mx ex lx = round_result s m2 e2.
Proof.
  intros HD HN Hib Hex e1 D1.
  assert (Hmx : mx = N / D) by (destruct Hib as [Hm _]; rewrite shr_record_of_loc_m in Hm; exact Hm).
  assert (Hmx0 : 0 <= mx) by (rewrite Hmx; apply Z.div_pos; lia).
  pose proof (shr_inbetween N D _ ex (e1 - ex) HN HD ltac:(lia) Hib) as [Hib1 He1].
  unfold binary_round_aux.
  change (shr_fexp prec emax mx ex lx)
    with (shr (shr_record_of_loc mx lx) ex (e1 - ex)).
  destruct (shr (shr_record_of_loc mx lx) ex (e1 - ex)) as [mrs' e'] eqn:E1.
  cbn [fst snd] in Hib1, He1. replace (ex + (e1 - ex)) with e1 in He1 by lia. subst e'.
  fold D1 in Hib1.
  assert (HD1 : 0 < D1) by (unfold D1; pose proof (pow2_gt0 (e1 - ex)); nia).
  pose proof (rne_cases N D1 mrs' HD1 Hib1) as Hr. cbn zeta in Hr.
  set (m1 := round_nearest_even (shr_m mrs') (loc_of_shr_record mrs')) in *.
  assert (Hm' : N / D1 = mx / 2 ^ (e1 - ex)).
  { unfold D1. rewrite <- Z.div_div by (try lia; apply pow2_gt0; lia). now rewrite Hmx. }
  assert (Hm'0 : 0 <= N / D1) by (apply Z.div_pos; lia).
  assert (He1min : -1074 <= e1) by (apply fexp_ge).
  destruct (shr_fexp_exact_second m1 e1) as (m2 & e2 & E2 & Hle & Hex2 & Hm2 & Hcan2).
  - lia.
  - exact He1min.
  - intros Hpos.
    destruct (Z_lt_le_dec (e1 - ex) (digits mx)) as [Hlt|Hge].
    + (* the truncated mantissa is positive and canonical *)
      assert (Hmxpos : 0 < mx) by (destruct mx; cbn in Hlt; lia).
      destruct (digits_div_pow2 mx (e1 - ex) Hmxpos ltac:(lia) Hlt) as [Hq Hdq].
      rewrite <- Hm' in Hq, Hdq.
      assert (Hc' : fexp (digits (N / D1) + e1) = e1).
      { rewrite Hdq. replace (digits mx - (e1 - ex) + e1) with (digits mx + ex) by lia. reflexivity. }
      destruct Hr as [->|[-> _]]; [left; exact Hc'|].
      destruct (digits_succ (N / D1) Hq) as [Hs|[Hs1 Hs2]].
      * left. rewrite Hs. exact Hc'.
      * right. exists (digits (N / D1)). split; [apply digits_pos; exact Hq|]. split; assumption.
    + rewrite (div_pow2_small mx (e1 - ex) Hmx0 Hge) in Hm'.
      assert (m1 = 1) by lia. left. rewrite H. cbn [Zdigits2 digits2_pos].
      pose proof (digits_nonneg mx). unfold e1 in *. fexp_lia.
  - lia.
  - exists m1, m2, e2. rewrite E2. cbn [shr_m].
    repeat split; try assumption.
    + intros Hq. rewrite Hm' in *.
      destruct (Z_lt_le_dec (e1 - ex) (digits mx)) as [Hlt|Hge].
      * assert (Hmxpos : 0 < mx) by (destruct mx; cbn in Hlt; lia).
        destruct (digits_div_pow2 mx (e1 - ex) Hmxpos ltac:(lia) Hlt) as [_ Hdq].
        rewrite Hdq. replace (digits mx - (e1 - ex) + e1) with (digits mx + ex) by lia.
        reflexivity.
      * rewrite (div_pow2_small mx (e1 - ex) Hmx0 Hge) in Hq. lia.
    + intros Hq. rewrite Hm' in *.
      destruct (Z_lt_le_dec (e1 - ex) (digits mx)) as [Hlt|Hge].
      * assert (Hmxpos : 0 < mx) by (destruct mx; cbn in Hlt; lia).
        destruct (digits_div_pow2 mx (e1 - ex) Hmxpos ltac:(lia) Hlt) as [Hq' _]. lia.
      * pose proof (digits_nonneg mx). unfold e1 in *. fexp_lia.
Qed.



Lemma canonical_lt_pow M E :
  0 < M -> fexp (digits M + E) = E -> M * 2 ^ (E + K) < 2 ^ (53 + E + K).
Proof.
  intros HM Hc. pose proof (digits_bounds M HM) as [_ Hhi].
  pose proof (digits_pos M HM).
  assert (digits M <= 53) by fexp_lia.
  assert (-1074 <= E) by (rewrite <- Hc; apply fexp_ge).
  assert (2 ^ digits M <= 2 ^ 53) by (apply pow2_le; lia).
  replace (53 + E + K) with (53 + (E + K)) by lia.
  rewrite (pow2_add 53 (E + K)) by lia.
  pose proof (pow2_gt0 (E + K) ltac:(lia)). nia.
Qed.

Lemma canonical_normal m e E :
  0 < m -> fexp (digits m + e) = e -> E < e -> -1074 <= E ->
  2 ^ (53 + E + K) <= m * 2 ^ (e + K).
Proof.
  intros Hm Hc HE HEmin. pose proof (digits_bounds m Hm) as [Hlo _].
  assert (digits m = 53) by fexp_lia. rewrite H in Hlo.
  replace (e + K) with ((e - E - 1) + (1 + E + K)) by lia.
  rewrite (pow2_add (e - E - 1) (1 + E + K)) by lia.
  replace (53 + E + K) with (52 + (1 + E + K)) by lia.
  rewrite (pow2_add 52 (1 + E + K)) by lia.
  pose proof (pow2_gt0 (1 + E + K) ltac:(lia)).
  pose proof (pow2_gt0 (e - E - 1) ltac:(lia)).
  change (53 - 1) with 52 in Hlo.
  assert (2 ^ 52 <= m * 2 ^ (e - E - 1)) by nia.
  apply Z.mul_le_mono_nonneg_r with (p := 2 ^ (1 + E + K)) in H2; lia.
Qed.

Lemma canonical_exp_mono m e M E :
  0 < m -> 0 < M -> fexp (digits m + e) = e -> fexp (digits M + E) = E ->
  m * 2 ^ (e + K) <= M * 2 ^ (E + K) -> e <= E.
Proof.
  intros Hm HM Hc HC Hle. destruct (Z_lt_le_dec E e) as [Hlt|]; [|lia].
  assert (-1074 <= E) by (rewrite <- HC; apply fexp_ge).
  pose proof (canonical_normal m e E Hm Hc Hlt H).
  pose proof (canonical_lt_pow M E HM HC). lia.
Qed.




Lemma round_sandwich s mx ex lx N D :
  0 < D -> 0 <= N -> inbetween N D (shr_record_of_loc mx lx) ->
  ex <= fexp (digits mx + ex) -> - K <= ex ->
  exists m2 e2,
    0 <= m2 /\ (0 < m2 -> canonical m2 e2) /\
    binary_round_aux prec emax s mx ex lx = round_result s m2 e2 /\
    (forall M E, canonical M E ->
       val M E * D <= N * 2 ^ (ex + K) -> val M E <= val m2 e2) /\
    (forall M E, canonical M E ->
       N * 2 ^ (ex + K) <= val M E * D -> val m2 e2 <= val M E).
Proof.
  intros HD HN Hib Hex HK.
  destruct (binary_round_aux_struct s mx ex lx N D HD HN Hib Hex)
    as (m1 & m2 & e2 & Hm1 & He & Hex2 & Hm2 & Hc2 & Hcq & Hq0 & Hres).
  set (e1 := fexp (digits mx + ex)) in *.
  set (D1 := D * 2 ^ (e1 - ex)) in *.
  assert (He1 : -1074 <= e1) by apply fexp_ge.
  pose proof (pow2_gt0 (e1 - ex) ltac:(lia)) as Hpn.
  pose proof (pow2_gt0 (ex + K) ltac:(lia)) as Hpa.
  assert (HD1 : 0 < D1) by (unfold D1; nia).
  assert (Hp1 : 2 ^ (e1 + K) = 2 ^ (e1 - ex) * 2 ^ (ex + K)).
  { rewrite <- pow2_add by lia. f_equal; lia. }
  assert (Hq : 0 <= N / D1) by (apply Z.div_pos; lia).
  assert (Hv : val m2 e2 = m1 * 2 ^ (e1 + K)).
  { unfold val. rewrite Hex2. replace (e2 + K) with ((e2 - e1) + (e1 + K)) by lia.
    rewrite (pow2_add (e2 - e1) (e1 + K)) by lia. ring. }
  pose proof (pow2_gt0 (e1 + K) ltac:(lia)) as Hpe1.
  pose proof (Z.div_mod N D1 ltac:(lia)) as Hdm.
  pose proof (Z.mod_pos_bound N D1 HD1) as Hmod.
  exists m2, e2. split; [assumption|]. split; [|split; [assumption|split]].
  - intros Hpos. split; [assumption|]. apply Hc2; assumption.
  - (* lower bounds *)
    intros M E [HM HC] Hle. unfold val in Hle. rewrite Hv.
    assert (HEmin : -1074 <= E) by (rewrite <- HC; apply fexp_ge).
    pose proof (pow2_gt0 (E + K) ltac:(lia)) as HpE.
    assert (Hkey : M * 2 ^ (E + K) <= (N / D1) * 2 ^ (e1 + K)).
    { destruct (Z_lt_le_dec E e1) as [Hlt|Hge].
      - assert (0 < N / D1).
        { destruct (Z.eq_dec (N / D1) 0) as [E0|]; [|lia]. specialize (Hq0 E0). lia. }
        pose proof (canonical_normal (N / D1) e1 E H (Hcq H) Hlt HEmin).
        pose proof (canonical_lt_pow M E HM HC). lia.
      - assert (HpE2 : 2 ^ (E + K) = 2 ^ (E - e1) * 2 ^ (e1 + K)).
        { rewrite <- pow2_add by lia. f_equal; lia. }
        pose proof (pow2_gt0 (E - e1) ltac:(lia)) as HpE'.
        assert (M * 2 ^ (E - e1) <= N / D1).
        { apply Z.div_le_lower_bound; [lia|].
          rewrite HpE2, Hp1 in Hle. unfold D1.
          apply Z.mul_le_mono_pos_r with (2 ^ (ex + K)); [lia|].
          lia. }
        rewrite HpE2. nia. }
    unfold val. assert (N / D1 <= m1) by lia. nia.
  - (* upper bounds *)
    intros M E [HM HC] Hle. unfold val in Hle. rewrite Hv.
    assert (HEmin : -1074 <= E) by (rewrite <- HC; apply fexp_ge).
    pose proof (pow2_gt0 (E + K) ltac:(lia)) as HpE.
    unfold val.
    destruct (Z_lt_le_dec E e1) as [Hlt|Hge].
    + exfalso.
      assert (0 < N / D1).
      { destruct (Z.eq_dec (N / D1) 0) as [E0|]; [|lia]. specialize (Hq0 E0). lia. }
      pose proof (canonical_normal (N / D1) e1 E H (Hcq H) Hlt HEmin) as Hn.
      pose proof (canonical_lt_pow M E HM HC) as Hl.
      assert (N / D1 * D1 <= N) by lia.
      assert (N / D1 * 2 ^ (e1 + K) * D <= N * 2 ^ (ex + K)).
      { rewrite Hp1. unfold D1 in H0. nia. }
      nia.
    + assert (HpE2 : 2 ^ (E + K) = 2 ^ (E - e1) * 2 ^ (e1 + K)).
      { rewrite <- pow2_add by lia. f_equal; lia. }
      pose proof (pow2_gt0 (E - e1) ltac:(lia)) as HpE'.
      assert (HN2 : N <= M * 2 ^ (E - e1) * D1).
      { rewrite HpE2, Hp1 in Hle. unfold D1.
        apply Z.mul_le_mono_pos_r with (2 ^ (ex + K)); [lia|]. lia. }
      assert (m1 <= M * 2 ^ (E - e1)).
      { destruct Hm1 as [->|[-> Hne]].
        - apply Z.div_le_upper_bound; lia.
        - assert (N / D1 < M * 2 ^ (E - e1)); [|lia].
          apply Z.div_lt_upper_bound; [lia|].
          destruct (Z.eq_dec N (M * 2 ^ (E - e1) * D1)) as [EN|]; [|lia].
          rewrite EN, Z.mod_mul in Hne; lia. }
      rewrite HpE2. nia.
Qed.

Lemma val_pos m e : 0 < m -> - K <= e -> 0 < val m e.
Proof. intros. unfold val. pose proof (pow2_gt0 (e + K) ltac:(lia)). nia. Qed.

Lemma canonical_emin m e : canonical m e -> -1074 <= e.
Proof. intros [_ H]. rewrite <- H. apply fexp_ge. Qed.

Lemma canonical_le_exp m e M E :
  canonical m e -> canonical M E -> val m e <= val M E -> e <= E.
Proof.
  intros [Hm Hc] [HM HC]. apply canonical_exp_mono; assumption.
Qed.

Lemma canonical_unique m e M E :
  canonical m e -> canonical M E -> val m e = val M E -> m = M /\ e = E.
Proof.
  intros Hc HC Hv.
  assert (e = E).
  { apply Z.le_antisymm; eapply canonical_le_exp; eauto; lia. }
  subst E. split; [|reflexivity].
  pose proof (canonical_emin _ _ Hc).
  unfold val in Hv. pose proof (pow2_gt0 (e + K) ltac:(lia)). nia.
Qed.

(** The canonical pair of a representable scaled value is what rounding
    returns. *)
Lemma round_exact s mx ex lx N D M E :
  0 < D -> 0 <= N -> inbetween N D (shr_record_of_loc mx lx) ->
  ex <= fexp (digits mx + ex) -> - K <= ex ->
  canonical M E -> N * 2 ^ (ex + K) = val M E * D ->
  binary_round_aux prec emax s mx ex lx = round_result s M E.
Proof.
  intros HD HN Hib Hex HK HC Heq.
  destruct (round_sandwich s mx ex lx N D HD HN Hib Hex HK)
    as (m2 & e2 & Hm2 & Hc2 & Hres & Hlo & Hhi).
  specialize (Hlo M E HC ltac:(lia)). specialize (Hhi M E HC ltac:(lia)).
  pose proof (val_pos M E (proj1 HC) ltac:(pose proof (canonical_emin _ _ HC); lia)).
  assert (0 < m2).
  { destruct (Z.eq_dec m2 0) as [E0|]; [|lia]. rewrite E0 in Hlo. unfold val in Hlo at 2. lia. }
  destruct (canonical_unique m2 e2 M E (Hc2 H0) HC ltac:(lia)) as [-> ->].
  exact Hres.
Qed.

Lemma bounded_canonical m e :
  bounded prec emax m e = true <-> canonical (Z.pos m) e /\ e <= 971.
Proof.
  unfold bounded, canonical_mantissa, canonical. cbn [Zdigits2].
  rewrite andb_true_iff, Z.eqb_eq, Z.leb_le.
  change (emax - prec) with 971. intuition lia.
Qed.

Lemma digits_ge m k : 0 <= k -> 2 ^ k <= m -> k + 1 <= digits m.
Proof.
  intros Hk Hm. pose proof (pow2_gt0 k Hk).
  pose proof (digits_bounds m ltac:(lia)) as [_ Hhi].
  destruct (Z_lt_le_dec (digits m) (k + 1)) as [Hlt|]; [|lia].
  pose proof (digits_pos m ltac:(lia)).
  assert (2 ^ digits m <= 2 ^ k) by (apply pow2_le; lia). lia.
Qed.

Lemma digits_mul_pow2 m n : 0 < m -> 0 <= n -> digits (m * 2 ^ n) = digits m + n.
Proof.
  intros Hm Hn. pose proof (digits_bounds m Hm) as [Hlo Hhi].
  pose proof (digits_pos m Hm). pose proof (pow2_gt0 n Hn).
  apply digits_unique; [|nia].
  replace (digits m + n - 1) with (digits m - 1 + n) by lia.
  rewrite !pow2_add by lia. nia.
Qed.

Lemma inbetween_exact m : inbetween m 1 (shr_record_of_loc m loc_Exact).
Proof.
  unfold inbetween. cbn. rewrite Z.div_1_r, Z.mod_1_r. split; reflexivity.
Qed.

(** *** Multiplication *)

Lemma mul_enough_digits mx ex my ey :
  canonical mx ex -> canonical my ey ->
  ex + ey <= fexp (digits (mx * my) + (ex + ey)).
Proof.
  intros [Hx Hcx] [Hy Hcy].
  pose proof (digits_bounds mx Hx) as [Hlx _].
  pose proof (digits_bounds my Hy) as [Hly _].
  pose proof (digits_pos mx Hx). pose proof (digits_pos my Hy).
  assert (2 ^ (digits mx - 1 + (digits my - 1)) <= mx * my).
  { rewrite pow2_add by lia.
    pose proof (pow2_gt0 (digits mx - 1) ltac:(lia)).
    pose proof (pow2_gt0 (digits my - 1) ltac:(lia)). nia. }
  pose proof (digits_ge (mx * my) (digits mx - 1 + (digits my - 1)) ltac:(lia) H1).
  fexp_lia.
Qed.

Lemma SFmul_sandwich sx mx ex sy my ey :
  bounded prec emax mx ex = true -> bounded prec emax my ey = true ->
  exists m2 e2,
    0 <= m2 /\ (0 < m2 -> canonical m2 e2) /\
    SFmul prec emax (S754_finite sx mx ex) (S754_finite sy my ey)
      = round_result (xorb sx sy) m2 e2 /\
    (forall M E, canonical M E ->
       val M E * 2 ^ K <= val (Z.pos mx) ex * val (Z.pos my) ey ->
       val M E <= val m2 e2) /\
    (forall M E, canonical M E ->
       val (Z.pos mx) ex * val (Z.pos my) ey <= val M E * 2 ^ K ->
       val m2 e2 <= val M E).
Proof.
  intros Hbx Hby. apply bounded_canonical in Hbx, Hby.
  destruct Hbx as [Hcx Hex], Hby as [Hcy Hey].
  pose proof (canonical_emin _ _ Hcx). pose proof (canonical_emin _ _ Hcy).
  cbn [SFmul].
  destruct (round_sandwich (xorb sx sy) (Z.pos (mx * my)) (ex + ey) loc_Exact
              (Z.pos (mx * my)) 1)
    as (m2 & e2 & Hm2 & Hc2 & Hres & Hlo & Hhi); try lia.
  - apply inbetween_exact.
  - rewrite Pos2Z.inj_mul. apply mul_enough_digits; assumption.
  - assert (Hv : Z.pos (mx * my) * 2 ^ (ex + ey + K) * 2 ^ K
                 = val (Z.pos mx) ex * val (Z.pos my) ey).
    { unfold val. rewrite Pos2Z.inj_mul.
      replace (ex + ey + K) with ((ex + K) + ey) by lia.
      rewrite <- Z.mul_assoc, <- (pow2_add (ex + K + ey) K) by lia.
      replace (ex + K + ey + K) with ((ex + K) + (ey + K)) by lia.
      rewrite (pow2_add (ex + K) (ey + K)) by lia. ring. }
    pose proof (pow2_gt0 K ltac:(lia)) as HpK.
    exists m2, e2.
    split; [assumption|]. split; [assumption|]. split; [assumption|]. split.
    + intros M E HC Hle. apply Hlo; [assumption|].
      rewrite <- Hv in Hle. nia.
    + intros M E HC Hle. apply Hhi; [assumption|].
      rewrite <- Hv in Hle. nia.
Qed.

(** *** Division *)

Lemma new_location_inbetween N D :
  0 < D -> 0 <= N ->
  inbetween N D (shr_record_of_loc (N / D) (new_location D (N mod D))).
Proof.
  intros HD HN. pose proof (Z.mod_pos_bound N D HD) as Hmod.
  unfold inbetween. rewrite shr_record_of_loc_m. split; [reflexivity|].
  unfold new_location, new_location_even, new_location_odd.
  destruct (Z.even D) eqn:Ev.
  - destruct (Z.eqb_spec (N mod D) 0) as [E0|Hne]; [cbn; exact E0|].
    destruct (Z.compare_spec (2 * (N mod D)) D);
      cbn [shr_record_of_loc shr_r shr_s]; lia.
  - destruct (Z.eqb_spec (N mod D) 0) as [E0|Hne]; [cbn; exact E0|].
    assert (Hodd : Z.odd D = true) by (rewrite <- Z.negb_even, Ev; reflexivity).
    apply Z.odd_spec in Hodd. destruct Hodd as [k Hk].
    destruct (Z.compare_spec (2 * (N mod D) + 1) D);
      cbn [shr_record_of_loc shr_r shr_s]; lia.
Qed.

Lemma SFdiv_sandwich sx mx ex sy my ey :
  bounded prec emax mx ex = true -> bounded prec emax my ey = true ->
  exists m2 e2,
    0 <= m2 /\ (0 < m2 -> canonical m2 e2) /\
    SFdiv prec emax (S754_finite sx mx ex) (S754_finite sy my ey)
      = round_result (xorb sx sy) m2 e2 /\
    (forall M E, canonical M E ->
       val M E * val (Z.pos my) ey <= val (Z.pos mx) ex * 2 ^ K ->
       val M E <= val m2 e2) /\
    (forall M E, canonical M E ->
       val (Z.pos mx) ex * 2 ^ K <= val M E * val (Z.pos my) ey ->
       val m2 e2 <= val M E).
Proof.
  intros Hbx Hby. apply bounded_canonical in Hbx, Hby.
  destruct Hbx as [Hcx Hex], Hby as [Hcy Hey].
  pose proof (canonical_emin _ _ Hcx) as Hexm.
  pose proof (canonical_emin _ _ Hcy) as Heym.
  cbn [SFdiv]. unfold SFdiv_core_binary.
  set (d1 := digits (Z.pos mx)). set (d2 := digits (Z.pos my)).
  set (e' := Z.min (fexp (d1 + ex - (d2 + ey))) (ex - ey)).
  set (s := ex - ey - e').
  assert (Hs : 0 <= s) by (unfold s, e'; lia).
  set (m' := match s with Z.pos _ => Z.shiftl (Z.pos mx) s | 0 => Z.pos mx | Z.neg _ => 0 end).
  assert (Hm' : m' = Z.pos mx * 2 ^ s).
  { unfold m'. destruct s eqn:Es; try lia.
    apply Z.shiftl_mul_pow2. lia. }
  pose proof (pow2_gt0 s Hs) as Hps.
  destruct (Z.div_eucl m' (Z.pos my)) as [q r] eqn:Ediv.
  assert (Hq : q = m' / Z.pos my) by (unfold Z.div; rewrite Ediv; reflexivity).
  assert (Hr : r = m' mod Z.pos my) by (unfold Z.modulo; rewrite Ediv; reflexivity).
  assert (He'K : - K <= e') by (unfold e'; pose proof (fexp_ge (d1 + ex - (d2 + ey))); lia).
  destruct (round_sandwich (xorb sx sy) q e' (new_location (Z.pos my) r) m' (Z.pos my))
    as (m2 & e2 & Hm2 & Hc2 & Hres & Hlo & Hhi); try lia.
  - subst q r. apply new_location_inbetween; lia.
  - (* enough digits *)
    destruct (Z_le_gt_dec e' (-1074)) as [Hle|Hgt].
    + pose proof (fexp_ge (digits q + e')). lia.
    + assert (Hf : e' <= d1 + ex - (d2 + ey) - 53) by (unfold e' in *; fexp_lia).
      pose proof (digits_bounds (Z.pos mx) ltac:(lia)) as [Hlx _].
      pose proof (digits_bounds (Z.pos my) ltac:(lia)) as [_ Hhy].
      fold d1 in Hlx. fold d2 in Hhy.
      pose proof (digits_pos (Z.pos mx) ltac:(lia)) as Hd1. fold d1 in Hd1.
      pose proof (digits_pos (Z.pos my) ltac:(lia)) as Hd2. fold d2 in Hd2.
      assert (Hk : 0 <= d1 + s - d2 - 1) by (unfold s; lia).
      assert (2 ^ (d1 + s - d2 - 1) <= q).
      { rewrite Hq. apply Z.div_le_lower_bound; [lia|].
        rewrite Hm'.
        assert (2 ^ (d1 - 1 + s) = 2 ^ (d1 + s - d2 - 1) * 2 ^ d2).
        { rewrite <- pow2_add by lia. f_equal. lia. }
        rewrite (pow2_add (d1 - 1) s) in H by lia.
        pose proof (pow2_gt0 (d1 + s - d2 - 1) Hk).
        pose proof (pow2_gt0 (d1 - 1) ltac:(lia)). nia. }
      pose proof (digits_ge q _ Hk H).
      assert (d1 + ex - (d2 + ey) <= digits q + e') by (unfold s in *; lia).
      pose proof (fexp_mono _ _ H1). unfold e' in *. lia.
  - assert (Hv : m' * 2 ^ (e' + K) * 2 ^ (ey + K) = val (Z.pos mx) ex * 2 ^ K).
    { unfold val. rewrite Hm'.
      rewrite <- !Z.mul_assoc. f_equal.
      rewrite <- !pow2_add by lia. f_equal. unfold s. lia. }
    pose proof (pow2_gt0 (ey + K) ltac:(lia)) as Hpy.
    exists m2, e2.
    split; [assumption|]. split; [assumption|]. split; [assumption|]. split.
    + intros M E HC Hle. apply Hlo; [assumption|].
      rewrite <- Hv in Hle. unfold val in Hle at 2. nia.
    + intros M E HC Hle. apply Hhi; [assumption|].
      rewrite <- Hv in Hle. unfold val in Hle at 2. nia.
Qed.

(** *** Rounding a mantissa and an exponent: [binary_round] *)

Lemma iter_xO_pow2 m d : Z.pos (Pos.iter xO m d) = Z.pos m * 2 ^ Z.pos d.
Proof.
  induction d as [|d IH] using Pos.peano_ind.
  - cbn. lia.
  - rewrite Pos.iter_succ, Pos2Z.inj_xO, IH, Pos2Z.inj_succ, Z.pow_succ_r by lia.
    ring.
Qed.

Lemma shl_align_spec mx ex ex' :
  snd (shl_align mx ex ex') = Z.min ex ex' /\
  Z.pos (fst (shl_align mx ex ex'))
    = Z.pos mx * 2 ^ (ex - snd (shl_align mx ex ex')).
Proof.
  unfold shl_align. destruct (ex' - ex) as [|d|d] eqn:Ed; cbn [fst snd].
  - split; [lia|]. rewrite Z.sub_diag. cbn. lia.
  - split; [lia|]. rewrite Z.sub_diag. cbn. lia.
  - split; [lia|]. rewrite iter_xO_pow2. f_equal. f_equal. lia.
Qed.

Lemma binary_round_sandwich s m e :
  - K <= e ->
  exists m2 e2,
    0 <= m2 /\ (0 < m2 -> canonical m2 e2) /\
    binary_round prec emax s m e = round_result s m2 e2 /\
    (forall M E, canonical M E -> val M E <= val (Z.pos m) e -> val M E <= val m2 e2) /\
    (forall M E, canonical M E -> val (Z.pos m) e <= val M E -> val m2 e2 <= val M E).
Proof.
  intros HK. unfold binary_round.
  pose proof (shl_align_spec m e (fexp (Z.pos (digits2_pos m) + e))) as [Hez Hmz].
  destruct (shl_align m e (fexp (Z.pos (digits2_pos m) + e))) as [mz ez].
  cbn [fst snd] in Hez, Hmz.
  change (Z.pos (digits2_pos m)) with (digits (Z.pos m)) in *.
  pose proof (fexp_ge (digits (Z.pos m) + e)) as Hf.
  assert (Hd : digits (Z.pos mz) + ez = digits (Z.pos m) + e).
  { rewrite Hmz, digits_mul_pow2 by lia. lia. }
  destruct (round_sandwich s (Z.pos mz) ez loc_Exact (Z.pos mz) 1)
    as (m2 & e2 & Hm2 & Hc2 & Hres & Hlo & Hhi); try lia.
  - apply inbetween_exact.
  - rewrite Hd. lia.
  - assert (Hv : Z.pos mz * 2 ^ (ez + K) = val (Z.pos m) e).
    { unfold val. rewrite Hmz, <- Z.mul_assoc, <- pow2_add by lia. f_equal. f_equal. lia. }
    exists m2, e2.
    split; [assumption|]. split; [assumption|]. split; [assumption|]. split.
    + intros M E HC Hle. apply Hlo; [assumption|]. lia.
    + intros M E HC Hle. apply Hhi; [assumption|]. lia.
Qed.

Lemma binary_round_exact s m e M E :
  - K <= e -> canonical M E -> val (Z.pos m) e = val M E ->
  binary_round prec emax s m e = round_result s M E.
Proof.
  intros HK HC Hv.
  destruct (binary_round_sandwich s m e HK) as (m2 & e2 & Hm2 & Hc2 & Hres & Hlo & Hhi).
  specialize (Hlo M E HC ltac:(lia)). specialize (Hhi M E HC ltac:(lia)).
  pose proof (val_pos M E (proj1 HC) ltac:(pose proof (canonical_emin _ _ HC); lia)).
  assert (0 < m2).
  { destruct (Z.eq_dec m2 0) as [E0|]; [|lia]. rewrite E0 in Hlo. unfold val in Hlo at 2. lia. }
  destruct (canonical_unique m2 e2 M E (Hc2 H0) HC ltac:(lia)) as [-> ->].
  exact Hres.
Qed.

(** *** Addition and subtraction of positive finite numbers *)

Lemma align_val mx ex ez :
  ez <= ex -> - K <= ez ->
  Z.pos (fst (shl_align mx ex ez)) * 2 ^ (ez + K) = val (Z.pos mx) ex.
Proof.
  intros Hle HK. pose proof (shl_align_spec mx ex ez) as [Hs Hm].
  rewrite Hm, Hs. replace (Z.min ex ez) with ez by lia.
  unfold val. rewrite <- Z.mul_assoc, <- pow2_add by lia. f_equal. f_equal. lia.
Qed.

Lemma SFadd_sandwich mx ex my ey :
  -1074 <= ex -> -1074 <= ey ->
  exists m2 e2,
    0 <= m2 /\ (0 < m2 -> canonical m2 e2) /\
    SFadd prec emax (S754_finite false mx ex) (S754_finite false my ey)
      = round_result false m2 e2 /\
    (forall M E, canonical M E ->
       val M E <= val (Z.pos mx) ex + val (Z.pos my) ey -> val M E <= val m2 e2) /\
    (forall M E, canonical M E ->
       val (Z.pos mx) ex + val (Z.pos my) ey <= val M E -> val m2 e2 <= val M E).
Proof.
  intros Hx Hy. cbn [SFadd cond_Zopp].
  set (ez := Z.min ex ey).
  pose proof (align_val mx ex ez ltac:(lia) ltac:(lia)) as Hvx.
  pose proof (align_val my ey ez ltac:(lia) ltac:(lia)) as Hvy.
  destruct (Z.pos (fst (shl_align mx ex ez)) + Z.pos (fst (shl_align my ey ez)))
    as [|S|S] eqn:ES; try lia.
  cbn [binary_normalize].
  destruct (binary_round_sandwich false S ez ltac:(lia))
    as (m2 & e2 & Hm2 & Hc2 & Hres & Hlo & Hhi).
  assert (Hv : val (Z.pos S) ez = val (Z.pos mx) ex + val (Z.pos my) ey).
  { unfold val at 1. rewrite <- ES. rewrite Z.mul_add_distr_r. lia. }
  rewrite Hv in *.
  exists m2, e2. repeat (split; [assumption|]). assumption.
Qed.

Lemma SFsub_pos mx ex my ey :
  -1074 <= ex -> -1074 <= ey ->
  val (Z.pos my) ey < val (Z.pos mx) ex ->
  exists m2 e2,
    0 <= m2 /\ (0 < m2 -> canonical m2 e2) /\
    SFsub prec emax (S754_finite false mx ex) (S754_finite false my ey)
      = round_result false m2 e2 /\
    (forall M E, canonical M E ->
       val M E <= val (Z.pos mx) ex - val (Z.pos my) ey -> val M E <= val m2 e2) /\
    (forall M E, canonical M E ->
       val (Z.pos mx) ex - val (Z.pos my) ey <= val M E -> val m2 e2 <= val M E).
Proof.
  intros Hx Hy Hlt. cbn [SFsub cond_Zopp].
  set (ez := Z.min ex ey).
  pose proof (align_val mx ex ez ltac:(lia) ltac:(lia)) as Hvx.
  pose proof (align_val my ey ez ltac:(lia) ltac:(lia)) as Hvy.
  pose proof (pow2_gt0 (ez + K) ltac:(lia)) as Hp.
  destruct (Z.pos (fst (shl_align mx ex ez)) - Z.pos (fst (shl_align my ey ez)))
    as [|S|S] eqn:ES; try nia.
  cbn [binary_normalize].
  destruct (binary_round_sandwich false S ez ltac:(lia))
    as (m2 & e2 & Hm2 & Hc2 & Hres & Hlo & Hhi).
  assert (Hv : val (Z.pos S) ez = val (Z.pos mx) ex - val (Z.pos my) ey).
  { unfold val at 1. rewrite <- ES. rewrite Z.mul_sub_distr_r. lia. }
  rewrite Hv in *.
  exists m2, e2. repeat (split; [assumption|]). assumption.
Qed.

(** A subtraction that does not come out positive gives a zero or a
    number with the sign bit set. *)
Lemma SFsub_nonpos mx ex my ey :
  -1074 <= ex -> -1074 <= ey ->
  val (Z.pos mx) ex <= val (Z.pos my) ey ->
  SFltb (S754_zero false)
    (SFsub prec emax (S754_finite false mx ex) (S754_finite false my ey)) = false.
Proof.
  intros Hx Hy Hle. cbn [SFsub cond_Zopp].
  set (ez := Z.min ex ey).
  pose proof (align_val mx ex ez ltac:(lia) ltac:(lia)) as Hvx.
  pose proof (align_val my ey ez ltac:(lia) ltac:(lia)) as Hvy.
  pose proof (pow2_gt0 (ez + K) ltac:(lia)) as Hp.
  destruct (Z.pos (fst (shl_align mx ex ez)) - Z.pos (fst (shl_align my ey ez)))
    as [|S|S] eqn:ES; try nia.
  - reflexivity.
  - cbn [binary_normalize].
    destruct (binary_round_sandwich true S ez ltac:(lia))
      as (m2 & e2 & _ & _ & Hres & _).
    rewrite Hres. unfold round_result.
    destruct m2; [reflexivity| |reflexivity].
    destruct (e2 <=? emax - prec); reflexivity.
Qed.

(** ** Floats by their values *)

Lemma SFcompare_pos m1 e1 m2 e2 :
  canonical (Z.pos m1) e1 -> canonical (Z.pos m2) e2 ->
  SFcompare (S754_finite false m1 e1) (S754_finite false m2 e2)
    = Some (val (Z.pos m1) e1 ?= val (Z.pos m2) e2).
Proof.
  intros H1 H2. cbn [SFcompare]. f_equal.
  pose proof (canonical_emin _ _ H1). pose proof (canonical_emin _ _ H2).
  destruct (Z.compare_spec e1 e2) as [E|L|G].
  - subst e2. change (Pos.compare_cont Eq m1 m2) with (Pos.compare m1 m2).
    unfold val. pose proof (pow2_gt0 (e1 + K) ltac:(lia)).
    rewrite Pos2Z.inj_compare.
    destruct (Z.compare_spec (Z.pos m1) (Z.pos m2));
      symmetry; [apply Z.compare_eq_iff|apply Z.compare_lt_iff|apply Z.compare_gt_iff]; nia.
  - symmetry. apply Z.compare_lt_iff.
    destruct (Z_lt_le_dec (val (Z.pos m1) e1) (val (Z.pos m2) e2)); [assumption|].
    pose proof (canonical_le_exp _ _ _ _ H2 H1 ltac:(lia)). lia.
  - symmetry. apply Z.compare_gt_iff.
    destruct (Z_lt_le_dec (val (Z.pos m2) e2) (val (Z.pos m1) e1)); [assumption|].
    pose proof (canonical_le_exp _ _ _ _ H1 H2 ltac:(lia)). lia.
Qed.

Lemma float_valid x :
  match Prim2SF x with
  | S754_finite _ m e => canonical (Z.pos m) e /\ e <= 971
  | _ => True
  end.
Proof.
  pose proof (Prim2SF_valid x) as H. destruct (Prim2SF x); try exact I.
  apply bounded_canonical. exact H.
Qed.






Lemma fin_canonical x v :
  fin x v -> exists m e, Prim2SF x = S754_finite false m e /\
                         val (Z.pos m) e = v /\ canonical (Z.pos m) e /\ e <= 971.
Proof.
  intros (m & e & Hx & Hv). exists m, e. pose proof (float_valid x) as Hval.
  rewrite Hx in Hval. tauto.
Qed.

Lemma fin_pos x v : fin x v -> 0 < v.
Proof.
  intros H. apply fin_canonical in H. destruct H as (m & e & _ & <- & Hc & _).
  apply val_pos; [lia|]. pose proof (canonical_emin _ _ Hc). lia.
Qed.

Lemma fin_repr x v : fin x v -> repr v.
Proof.
  intros H. apply fin_canonical in H. destruct H as (m & e & _ & Hv & Hc & He).
  exists (Z.pos m), e. auto.
Qed.

Lemma fin_unique x v w : fin x v -> fin x w -> v = w.
Proof.
  intros (m & e & H1 & <-) (m' & e' & H2 & <-). rewrite H1 in H2.
  injection H2 as <- <-. reflexivity.
Qed.

Lemma repr_pos c : repr c -> 0 < c.
Proof.
  intros (M & E & Hc & _ & <-). apply val_pos; [apply Hc|].
  pose proof (canonical_emin _ _ Hc). lia.
Qed.

Lemma at_least_nonneg c x : at_least c x -> nonneg x.
Proof. intros [H|(v & H & _)]; [right; right; exact H|right; left; eauto]. Qed.

Lemma at_most_nonneg c x : at_most c x -> nonneg x.
Proof. intros [H|(v & H & _)]; [left; exact H|right; left; eauto]. Qed.

Lemma at_least_weaken c c' x : c' <= c -> at_least c x -> at_least c' x.
Proof. intros Hc [H|(v & H & Hv)]; [left; exact H|right; exists v; split; [exact H|lia]]. Qed.

Lemma at_most_weaken c c' x : c <= c' -> at_most c x -> at_most c' x.
Proof. intros Hc [H|(v & H & Hv)]; [left; exact H|right; exists v; split; [exact H|lia]]. Qed.

(** What a rounding to a positive or null mantissa yields. *)
Lemma round_result_at_least c m2 e2 x :
  Prim2SF x = round_result false m2 e2 -> 0 < c -> c <= val m2 e2 ->
  0 <= m2 -> at_least c x.
Proof.
  intros Hx Hc Hle Hm2. unfold round_result in Hx.
  destruct m2 as [|p|p]; try lia.
  - unfold val in Hle. lia.
  - destruct (e2 <=? emax - prec); [right|left; exact Hx].
    exists (val (Z.pos p) e2). split; [exists p, e2; auto|lia].
Qed.

Lemma round_result_at_most c m2 e2 x E :
  Prim2SF x = round_result false m2 e2 -> val m2 e2 <= c ->
  0 <= m2 -> (0 < m2 -> e2 <= E) -> E <= 971 -> at_most c x.
Proof.
  intros Hx Hle Hm2 He HE. unfold round_result in Hx.
  destruct m2 as [|p|p]; try lia.
  - left; exact Hx.
  - specialize (He ltac:(lia)).
    replace (e2 <=? emax - prec) with true in Hx
      by (symmetry; apply Z.leb_le; change (emax - prec) with 971; lia).
    right. exists (val (Z.pos p) e2). split; [exists p, e2; auto|lia].
Qed.

(** *** Addition *)

Lemma add_at_least_l c x y :
  repr c -> at_least c x -> nonneg y -> at_least c (x + y)%float.
Proof.
  intros Hr Hx Hy. pose proof (repr_pos c Hr) as Hc0.
  destruct Hr as (M & E & HC & _ & HM).
  destruct Hx as [Hx|(v & Hx & Hv)].
  - left. rewrite add_spec, Hx. unfold SF64add.
    destruct Hy as [Hy|[(w & Hy)|Hy]]; [| apply fin_canonical in Hy; destruct Hy as (m & e & Hy & _)|];
      rewrite Hy; reflexivity.
  - apply fin_canonical in Hx. destruct Hx as (mx & ex & Hx & Hvx & Hcx & Hex).
    destruct Hy as [Hy|[(w & Hy)|Hy]].
    + right. exists v. split; [|exact Hv]. exists mx, ex. split; [|exact Hvx].
      rewrite add_spec, Hx, Hy. reflexivity.
    + apply fin_canonical in Hy. destruct Hy as (my & ey & Hy & Hvy & Hcy & Hey).
      pose proof (canonical_emin _ _ Hcx). pose proof (canonical_emin _ _ Hcy).
      destruct (SFadd_sandwich mx ex my ey) as (m2 & e2 & Hm2 & Hc2 & Hres & Hlo & _); try lia.
      apply (round_result_at_least c m2 e2); try assumption.
      * rewrite add_spec, Hx, Hy. exact Hres.
      * rewrite <- HM. apply Hlo; [exact HC|].
        pose proof (val_pos (Z.pos my) ey ltac:(lia) ltac:(lia)). lia.
    + left. rewrite add_spec, Hx, Hy. reflexivity.
Qed.

Lemma add_at_least_r c x y :
  repr c -> nonneg x -> at_least c y -> at_least c (x + y)%float.
Proof.
  intros Hr Hx Hy. pose proof (repr_pos c Hr) as Hc0.
  destruct Hr as (M & E & HC & _ & HM).
  destruct Hy as [Hy|(v & Hy & Hv)].
  - left. rewrite add_spec, Hy. unfold SF64add.
    destruct Hx as [Hx|[(w & Hx)|Hx]]; [| apply fin_canonical in Hx; destruct Hx as (m & e & Hx & _)|];
      rewrite Hx; reflexivity.
  - apply fin_canonical in Hy. destruct Hy as (my & ey & Hy & Hvy & Hcy & Hey).
    destruct Hx as [Hx|[(w & Hx)|Hx]].
    + right. exists v. split; [|exact Hv]. exists my, ey. split; [|exact Hvy].
      rewrite add_spec, Hx, Hy. reflexivity.
    + apply fin_canonical in Hx. destruct Hx as (mx & ex & Hx & Hvx & Hcx & Hex).
      pose proof (canonical_emin _ _ Hcx). pose proof (canonical_emin _ _ Hcy).
      destruct (SFadd_sandwich mx ex my ey) as (m2 & e2 & Hm2 & Hc2 & Hres & Hlo & _); try lia.
      apply (round_result_at_least c m2 e2); try assumption.
      * rewrite add_spec, Hx, Hy. exact Hres.
      * rewrite <- HM. apply Hlo; [exact HC|].
        pose proof (val_pos (Z.pos mx) ex ltac:(lia) ltac:(lia)). lia.
    + left. rewrite add_spec, Hx, Hy. reflexivity.
Qed.

Lemma add_at_most a b c x y :
  repr c -> 0 <= a -> 0 <= b -> a + b <= c -> at_most a x -> at_most b y ->
  at_most c (x + y)%float.
Proof.
  intros (M & E & HC & HE & HM) Ha Hb Hab Hx Hy.
  destruct Hx as [Hx|(v & Hx & Hv)]; destruct Hy as [Hy|(w & Hy & Hw)].
  - left. rewrite add_spec, Hx, Hy. reflexivity.
  - right. exists w. split; [|lia]. destruct Hy as (my & ey & Hy & Hvy).
    exists my, ey. split; [|exact Hvy]. rewrite add_spec, Hx, Hy. reflexivity.
  - right. exists v. split; [|lia]. destruct Hx as (mx & ex & Hx & Hvx).
    exists mx, ex. split; [|exact Hvx]. rewrite add_spec, Hx, Hy. reflexivity.
  - apply fin_canonical in Hx. destruct Hx as (mx & ex & Hx & Hvx & Hcx & Hex).
    apply fin_canonical in Hy. destruct Hy as (my & ey & Hy & Hvy & Hcy & Hey).
    pose proof (canonical_emin _ _ Hcx). pose proof (canonical_emin _ _ Hcy).
    destruct (SFadd_sandwich mx ex my ey) as (m2 & e2 & Hm2 & Hc2 & Hres & _ & Hhi); try lia.
    assert (Hle : val m2 e2 <= val M E) by (apply Hhi; [exact HC|lia]).
    apply (round_result_at_most c m2 e2 _ E); try assumption; try lia.
    + rewrite add_spec, Hx, Hy. exact Hres.
    + intros Hpos. apply (canonical_le_exp m2 e2 M E); auto.
Qed.

(** *** Multiplication *)

Lemma mul_at_least a b c x y :
  repr c -> 0 <= a -> 0 <= b -> c * 2 ^ K <= a * b ->
  at_least a x -> at_least b y -> at_least c (x * y)%float.
Proof.
  intros Hr Ha Hb Hab Hx Hy. pose proof (repr_pos c Hr) as Hc0.
  destruct Hr as (M & E & HC & _ & HM).
  destruct Hx as [Hx|(v & Hx & Hv)]; destruct Hy as [Hy|(w & Hy & Hw)].
  - left. rewrite mul_spec, Hx, Hy. reflexivity.
  - left. destruct Hy as (my & ey & Hy & _). rewrite mul_spec, Hx, Hy. reflexivity.
  - left. destruct Hx as (mx & ex & Hx & _). rewrite mul_spec, Hx, Hy. reflexivity.
  - pose proof (float_valid x) as Vx. pose proof (float_valid y) as Vy.
    destruct Hx as (mx & ex & Hx & Hvx). destruct Hy as (my & ey & Hy & Hvy).
    rewrite Hx in Vx. rewrite Hy in Vy.
    apply bounded_canonical in Vx, Vy.
    destruct (SFmul_sandwich false mx ex false my ey Vx Vy)
      as (m2 & e2 & Hm2 & Hc2 & Hres & Hlo & _).
    apply (round_result_at_least c m2 e2); try assumption.
    + rewrite mul_spec, Hx, Hy. exact Hres.
    + rewrite <- HM. apply Hlo; [exact HC|]. rewrite HM, Hvx, Hvy. nia.
Qed.

Lemma mul_at_most a b c x y :
  repr c -> 0 <= a -> 0 <= b -> a * b <= c * 2 ^ K ->
  at_most a x -> at_most b y -> at_most c (x * y)%float.
Proof.
  intros (M & E & HC & HE & HM) Ha Hb Hab Hx Hy.
  destruct Hx as [Hx|(v & Hx & Hv)]; destruct Hy as [Hy|(w & Hy & Hw)].
  - left. rewrite mul_spec, Hx, Hy. reflexivity.
  - left. destruct Hy as (my & ey & Hy & _). rewrite mul_spec, Hx, Hy. reflexivity.
  - left. destruct Hx as (mx & ex & Hx & _). rewrite mul_spec, Hx, Hy. reflexivity.
  - pose proof (fin_pos _ _ Hx). pose proof (fin_pos _ _ Hy).
    pose proof (float_valid x) as Vx. pose proof (float_valid y) as Vy.
    destruct Hx as (mx & ex & Hx & Hvx). destruct Hy as (my & ey & Hy & Hvy).
    rewrite Hx in Vx. rewrite Hy in Vy.
    apply bounded_canonical in Vx, Vy.
    destruct (SFmul_sandwich false mx ex false my ey Vx Vy)
      as (m2 & e2 & Hm2 & Hc2 & Hres & _ & Hhi).
    assert (Hle : val m2 e2 <= val M E).
    { apply Hhi; [exact HC|]. rewrite HM, Hvx, Hvy. nia. }
    apply (round_result_at_most c m2 e2 _ E); try assumption; try lia.
    + rewrite mul_spec, Hx, Hy. exact Hres.
    + intros Hpos. apply (canonical_le_exp m2 e2 M E); auto.
Qed.

(** *** Division by a positive finite number *)

Lemma div_at_least a b c x y :
  repr c -> 0 <= a -> c * b <= a * 2 ^ K ->
  at_least a x -> fin y b -> at_least c (x / y)%float.
Proof.
  intros Hr Ha Hab Hx Hy. pose proof (repr_pos c Hr) as Hc0.
  destruct Hr as (M & E & HC & _ & HM).
  pose proof (fin_pos _ _ Hy) as Hb0.
  pose proof (float_valid y) as Vy.
  destruct Hy as (my & ey & Hy & Hvy). rewrite Hy in Vy.
  destruct Hx as [Hx|(v & Hx & Hv)].
  - left. rewrite div_spec, Hx, Hy. reflexivity.
  - pose proof (float_valid x) as Vx.
    destruct Hx as (mx & ex & Hx & Hvx). rewrite Hx in Vx.
    apply bounded_canonical in Vx, Vy.
    destruct (SFdiv_sandwich false mx ex false my ey Vx Vy)
      as (m2 & e2 & Hm2 & Hc2 & Hres & Hlo & _).
    apply (round_result_at_least c m2 e2); try assumption.
    + rewrite div_spec, Hx, Hy. exact Hres.
    + rewrite <- HM. apply Hlo; [exact HC|]. rewrite HM, Hvx, Hvy.
      pose proof (pow2_gt0 K ltac:(lia)). nia.
Qed.

Lemma div_at_most a b c x y :
  repr c -> 0 <= a -> a * 2 ^ K <= c * b ->
  at_most a x -> fin y b -> at_most c (x / y)%float.
Proof.
  intros (M & E & HC & HE & HM) Ha Hab Hx Hy.
  pose proof (fin_pos _ _ Hy) as Hb0.
  pose proof (float_valid y) as Vy.
  destruct Hy as (my & ey & Hy & Hvy). rewrite Hy in Vy.
  destruct Hx as [Hx|(v & Hx & Hv)].
  - left. rewrite div_spec, Hx, Hy. reflexivity.
  - pose proof (float_valid x) as Vx.
    destruct Hx as (mx & ex & Hx & Hvx). rewrite Hx in Vx.
    apply bounded_canonical in Vx, Vy.
    destruct (SFdiv_sandwich false mx ex false my ey Vx Vy)
      as (m2 & e2 & Hm2 & Hc2 & Hres & _ & Hhi).
    assert (Hle : val m2 e2 <= val M E).
    { apply Hhi; [exact HC|]. rewrite HM, Hvx, Hvy.
      pose proof (pow2_gt0 K ltac:(lia)). nia. }
    apply (round_result_at_most c m2 e2 _ E); try assumption; try lia.
    + rewrite div_spec, Hx, Hy. exact Hres.
    + intros Hpos. apply (canonical_le_exp m2 e2 M E); auto.
Qed.

(** *** Integers are representable up to [2 ^ 53], also scaled *)

Lemma repr_scaled n j :
  0 < n < 2 ^ 53 -> -1022 <= j <= 971 -> repr (n * 2 ^ (j + K)).
Proof.
  intros Hn Hj. pose proof (digits_bounds n ltac:(lia)) as [Hlo Hhi].
  pose proof (digits_pos n ltac:(lia)) as Hd.
  assert (Hd53 : digits n <= 53).
  { destruct (Z_le_gt_dec (digits n) 53); [assumption|].
    assert (2 ^ 53 <= 2 ^ (digits n - 1)) by (apply pow2_le; lia). lia. }
  exists (n * 2 ^ (53 - digits n)), (j + digits n - 53).
  pose proof (pow2_gt0 (53 - digits n) ltac:(lia)).
  split; [split; [nia|]|split; [lia|]].
  - rewrite digits_mul_pow2 by lia. fexp_lia.
  - unfold val. rewrite <- Z.mul_assoc, <- pow2_add by lia. f_equal. f_equal. lia.
Qed.

Lemma repr_int n : 0 < n < 2 ^ 53 -> repr (n * 2 ^ K).
Proof. intros Hn. apply (repr_scaled n 0); lia. Qed.

(** *** Comparisons *)

Lemma ltb_fin x y v w : fin x v -> fin y w -> (x <? y)%float = (v <? w).
Proof.
  intros Hx Hy. apply fin_canonical in Hx, Hy.
  destruct Hx as (mx & ex & Hx & <- & Hcx & _), Hy as (my & ey & Hy & <- & Hcy & _).
  rewrite ltb_spec, Hx, Hy. unfold SFltb. rewrite SFcompare_pos by assumption.
  unfold Z.ltb. reflexivity.
Qed.

Lemma leb_fin x y v w : fin x v -> fin y w -> (x <=? y)%float = (v <=? w).
Proof.
  intros Hx Hy. apply fin_canonical in Hx, Hy.
  destruct Hx as (mx & ex & Hx & <- & Hcx & _), Hy as (my & ey & Hy & <- & Hcy & _).
  rewrite leb_spec, Hx, Hy. unfold SFleb. rewrite SFcompare_pos by assumption.
  unfold Z.leb. destruct (_ ?= _); reflexivity.
Qed.

Lemma fin_inj x y v : fin x v -> fin y v -> x = y.
Proof.
  intros Hx Hy. apply fin_canonical in Hx, Hy.
  destruct Hx as (mx & ex & Hx & Hvx & Hcx & _), Hy as (my & ey & Hy & Hvy & Hcy & _).
  apply Prim2SF_inj. rewrite Hx, Hy.
  destruct (canonical_unique _ _ _ _ Hcx Hcy ltac:(lia)) as [Hm He].
  injection Hm as ->. subst. reflexivity.
Qed.

(** *** [int] of a non-negative float *)

Lemma shiftl_ge n m e :
  0 <= n -> -1074 <= e -> n * 2 ^ K <= val (Z.pos m) e ->
  n <= Z.shiftl (Z.pos m) e.
Proof.
  intros Hn He Hle. unfold val in Hle.
  destruct (Z_le_gt_dec 0 e) as [Hpos|Hneg].
  - rewrite Z.shiftl_mul_pow2 by lia. rewrite (pow2_add e K) in Hle by lia.
    pose proof (pow2_gt0 K ltac:(lia)). nia.
  - rewrite Z.shiftl_div_pow2 by lia. apply Z.div_le_lower_bound; [apply pow2_gt0; lia|].
    assert (2 ^ K = 2 ^ (- e) * 2 ^ (e + K)) by (rewrite <- pow2_add by lia; f_equal; lia).
    rewrite H in Hle. pose proof (pow2_gt0 (e + K) ltac:(lia)). nia.
Qed.

Lemma shiftl_nonneg m e : 0 <= Z.shiftl (Z.pos m) e.
Proof. apply Z.shiftl_nonneg. lia. Qed.

Lemma u7_pos : 0 < u7.
Proof. apply pow2_gt0. lia. Qed.

Lemma unit_u7 : 2 ^ K = 128 * u7.
Proof. unfold u7. change 128 with (2 ^ 7). rewrite <- pow2_add by lia. reflexivity. Qed.

Lemma fin_const x n m e :
  Prim2SF x = S754_finite false m e -> -1074 <= e ->
  Z.pos m * 2 ^ (e + 1074) = n * 2 ^ (1074 - 7) ->
  fin x (n * u7).
Proof.
  intros Hx He Hv. exists m, e. split; [exact Hx|].
  unfold val, u7. replace (e + K) with ((e + 1074) + (K - 1074)) by lia.
  rewrite pow2_add by lia. rewrite Z.mul_assoc, Hv.
  rewrite <- Z.mul_assoc, <- pow2_add by lia. reflexivity.
Qed.

Ltac fin_const := eapply fin_const; [vm_compute; reflexivity | lia | vm_compute; reflexivity].

Lemma fin_1 : fin 1.0%float (128 * u7). Proof. fin_const. Qed.
Lemma fin_1_5 : fin 1.5%float (192 * u7). Proof. fin_const. Qed.
Lemma fin_2 : fin 2.0%float (256 * u7). Proof. fin_const. Qed.
Lemma fin_2_5 : fin 2.5%float (320 * u7). Proof. fin_const. Qed.
Lemma fin_3 : fin 3.0%float (384 * u7). Proof. fin_const. Qed.
Lemma fin_6 : fin 6.0%float (768 * u7). Proof. fin_const. Qed.
Lemma fin_10 : fin 10.0%float (1280 * u7). Proof. fin_const. Qed.
Lemma fin_40 : fin 40.0%float (5120 * u7). Proof. fin_const. Qed.
Lemma fin_100 : fin 100.0%float (12800 * u7). Proof. fin_const. Qed.

Lemma repr_u7 n : 0 < n < 2 ^ 53 -> repr (n * u7).
Proof. intros Hn. unfold u7. replace (K - 7) with (-7 + K) by lia. apply repr_scaled; lia. Qed.

Lemma zero_nonneg : nonneg 0.0%float.
Proof. left. reflexivity. Qed.

Lemma fin_at_least x v : fin x v -> at_least v x.
Proof. intros H. right. exists v. split; [exact H|lia]. Qed.

Lemma fin_at_most x v : fin x v -> at_most v x.
Proof. intros H. right. exists v. split; [exact H|lia]. Qed.

Lemma ltb_zero_nonneg c :
  (0.0 <? c)%float = true ->
  Prim2SF c = S754_infinity false \/ exists v, fin c v.
Proof.
  rewrite ltb_spec. change (Prim2SF 0.0%float) with (S754_zero false).
  unfold SFltb. destruct (Prim2SF c) as [s|[|]|  |[|] m e] eqn:E; cbn; try discriminate.
  - intros _. left. reflexivity.
  - intros _. right. exists (val (Z.pos m) e), m, e. auto.
Qed.

(** *** The closeness of an aspect *)

Lemma closeness_cases c :
  Py.max 0.0%float c = 0.0%float \/
  (Py.max 0.0%float c = c /\
   (Prim2SF c = S754_infinity false \/ exists v, fin c v)).
Proof.
  unfold Py.max. destruct (0.0 <? c)%float eqn:E; [right|left; reflexivity].
  split; [reflexivity|]. apply ltb_zero_nonneg. exact E.
Qed.

Lemma closeness_nonneg c : nonneg (Py.max 0.0%float c).
Proof.
  destruct (closeness_cases c) as [E|[E [H|H]]]; rewrite E.
  - apply zero_nonneg.
  - right; right; exact H.
  - right; left; exact H.
Qed.

(** *** The weight of an aspect *)

Lemma aspect_weight_cases a :
  Engine.aspect_weight a = 1.0%float \/ Engine.aspect_weight a = 3.0%float \/
  Engine.aspect_weight a = 1.5%float \/ Engine.aspect_weight a = 2.5%float.
Proof.
  unfold Engine.aspect_weight. destruct (aspect a) as [name|]; [|auto].
  unfold Py.get_default, Engine.ASPECT_WEIGHTS. cbn [Py.get].
  repeat match goal with
         | |- context [String.eqb ?k name] => destruct (String.eqb k name); auto 6
         end.
Qed.

Lemma aspect_weight_fin a :
  exists w, fin (Engine.aspect_weight a) (w * u7) /\ 128 <= w <= 384.
Proof.
  destruct (aspect_weight_cases a) as [E|[E|[E|E]]]; rewrite E.
  - exists 128. split; [apply fin_1|lia].
  - exists 384. split; [apply fin_3|lia].
  - exists 192. split; [apply fin_1_5|lia].
  - exists 320. split; [apply fin_2_5|lia].
Qed.

(** *** One turn of the loop adds at least 1 *)

Lemma contribution_at_least a :
  at_least (128 * u7)
    (Engine.aspect_weight a *
     (1.0 + Py.max 0.0 (1.0 - Engine.aspect_orb a / 10.0)))%float.
Proof.
  pose proof u7_pos as Hu.
  destruct (aspect_weight_fin a) as (w & Hw & Hwb).
  apply (mul_at_least (w * u7) (128 * u7)).
  - apply repr_u7. lia.
  - lia.
  - lia.
  - rewrite unit_u7. nia.
  - apply fin_at_least. exact Hw.
  - apply add_at_least_l.
    + apply repr_u7. lia.
    + apply fin_at_least. apply fin_1.
    + apply closeness_nonneg.
Qed.

Lemma tension_step_at_least score a :
  nonneg score -> at_least (128 * u7) (Engine.tension_step score a).
Proof.
  intros Hs. unfold Engine.tension_step. cbn zeta.
  apply add_at_least_r; [apply repr_u7; lia|exact Hs|apply contribution_at_least].
Qed.

Lemma tension_fold_at_least l score :
  at_least (128 * u7) score ->
  at_least (128 * u7) (fold_left Engine.tension_step l score).
Proof.
  revert score. induction l as [|a l IH]; intros score Hs; cbn [fold_left]; [exact Hs|].
  apply IH. apply tension_step_at_least. eapply at_least_nonneg; eauto.
Qed.

Lemma tension_total_at_least l :
  l <> [] -> at_least (128 * u7) (fold_left Engine.tension_step l 0.0%float).
Proof.
  destruct l as [|a l]; [congruence|]. intros _. cbn [fold_left].
  apply tension_fold_at_least. apply tension_step_at_least. apply zero_nonneg.
Qed.

Lemma tension_total_nonneg l :
  nonneg (fold_left Engine.tension_step l 0.0%float).
Proof.
  destruct l as [|a l]; [apply zero_nonneg|].
  eapply at_least_nonneg. apply tension_total_at_least. discriminate.
Qed.

(** *** Shapes of quotients and products of non-negative numbers *)

Lemma round_result_nonneg x m2 e2 :
  Prim2SF x = round_result false m2 e2 -> 0 <= m2 -> nonneg x.
Proof.
  intros Hx Hm. unfold round_result in Hx. destruct m2 as [|p|p]; try lia.
  - left; exact Hx.
  - destruct (e2 <=? emax - prec); [right; left|right; right; exact Hx].
    exists (val (Z.pos p) e2), p, e2. auto.
Qed.

Lemma div_nonneg x y b : nonneg x -> fin y b -> nonneg (x / y)%float.
Proof.
  intros Hx Hy. pose proof (float_valid y) as Vy.
  destruct Hy as (my & ey & Hy & _). rewrite Hy in Vy.
  destruct Hx as [Hx|[(v & Hx)|Hx]].
  - left. rewrite div_spec, Hx, Hy. reflexivity.
  - pose proof (float_valid x) as Vx.
    destruct Hx as (mx & ex & Hx & _). rewrite Hx in Vx.
    apply bounded_canonical in Vx, Vy.
    destruct (SFdiv_sandwich false mx ex false my ey Vx Vy)
      as (m2 & e2 & Hm2 & _ & Hres & _).
    apply (round_result_nonneg _ m2 e2); [|exact Hm2].
    rewrite div_spec, Hx, Hy. exact Hres.
  - right; right. rewrite div_spec, Hx, Hy. reflexivity.
Qed.

Lemma mul_nonneg x y b : nonneg x -> fin y b -> nonneg (x * y)%float.
Proof.
  intros Hx Hy. pose proof (float_valid y) as Vy.
  destruct Hy as (my & ey & Hy & _). rewrite Hy in Vy.
  destruct Hx as [Hx|[(v & Hx)|Hx]].
  - left. rewrite mul_spec, Hx, Hy. reflexivity.
  - pose proof (float_valid x) as Vx.
    destruct Hx as (mx & ex & Hx & _). rewrite Hx in Vx.
    apply bounded_canonical in Vx, Vy.
    destruct (SFmul_sandwich false mx ex false my ey Vx Vy)
      as (m2 & e2 & Hm2 & _ & Hres & _).
    apply (round_result_nonneg _ m2 e2); [|exact Hm2].
    rewrite mul_spec, Hx, Hy. exact Hres.
  - right; right. rewrite mul_spec, Hx, Hy. reflexivity.
Qed.

(** *** [int] on non-negative floats *)

Lemma int_of_float_nonneg v :
  nonneg v ->
  Py.int_of_float v = Raise OverflowError \/
  exists k, Py.int_of_float v = Ok k /\ 0 <= k.
Proof.
  unfold Py.int_of_float. intros [H|[(w & m & e & H & _)|H]]; rewrite H.
  - right. exists 0. split; [reflexivity|lia].
  - right. eexists. split; [reflexivity|]. cbn [cond_Zopp]. apply shiftl_nonneg.
  - left. reflexivity.
Qed.

Lemma int_of_float_at_least n v :
  0 <= n -> at_least (n * 2 ^ K) v ->
  Py.int_of_float v = Raise OverflowError \/
  exists k, Py.int_of_float v = Ok k /\ n <= k.
Proof.
  unfold Py.int_of_float. intros Hn [H|(w & Hf & Hw)].
  - rewrite H. left. reflexivity.
  - apply fin_canonical in Hf. destruct Hf as (m & e & H & Hv & Hc & _).
    rewrite H. right. eexists. split; [reflexivity|]. cbn [cond_Zopp].
    apply shiftl_ge; [lia|apply (canonical_emin _ _ Hc)|lia].
Qed.

Lemma int_of_float_at_most c v :
  at_most c v -> exists k, Py.int_of_float v = Ok k /\ 0 <= k.
Proof.
  unfold Py.int_of_float. intros [H|(w & (m & e & H & _) & _)]; rewrite H.
  - exists 0. split; [reflexivity|lia].
  - eexists. split; [reflexivity|]. cbn [cond_Zopp]. apply shiftl_nonneg.
Qed.

(** *** The tension index: range *)


Lemma scaled_total_nonneg l : nonneg (scaled_total l).
Proof.
  unfold scaled_total. eapply mul_nonneg; [|apply fin_100].
  eapply div_nonneg; [|apply fin_40]. apply tension_total_nonneg.
Qed.

Lemma scaled_total_at_least l : l <> [] -> at_least (2 * 2 ^ K) (scaled_total l).
Proof.
  intros Hl. unfold scaled_total. pose proof u7_pos as Hu.
  rewrite unit_u7. replace (2 * (128 * u7)) with (256 * u7) by lia.
  apply (mul_at_least (3 * u7) (12800 * u7)).
  - apply repr_u7. lia.
  - lia.
  - lia.
  - rewrite unit_u7. nia.
  - apply (div_at_least (128 * u7) (5120 * u7)).
    + apply repr_u7. lia.
    + lia.
    + rewrite unit_u7. nia.
    + apply tension_total_at_least. exact Hl.
    + apply fin_40.
  - apply fin_at_least. apply fin_100.
Qed.

Lemma tension_range l :
  Engine.tension_of_aspects l = Raise OverflowError \/
  exists k, Engine.tension_of_aspects l = Ok k /\ 0 <= k <= 100.
Proof.
  unfold Engine.tension_of_aspects. cbn zeta. fold (scaled_total l).
  destruct (int_of_float_nonneg _ (scaled_total_nonneg l)) as [H|(k & H & Hk)];
    rewrite H; cbn [bind].
  - left. reflexivity.
  - right. eexists. split; [reflexivity|]. lia.
Qed.

Lemma tension_nonempty l :
  l <> [] ->
  Engine.tension_of_aspects l = Raise OverflowError \/
  exists k, Engine.tension_of_aspects l = Ok k /\ 2 <= k <= 100.
Proof.
  intros Hl. unfold Engine.tension_of_aspects. cbn zeta. fold (scaled_total l).
  destruct (int_of_float_at_least 2 _ ltac:(lia) (scaled_total_at_least l Hl))
    as [H|(k & H & Hk)]; rewrite H; cbn [bind].
  - left. reflexivity.
  - right. eexists. split; [reflexivity|]. lia.
Qed.

(** *** Deviations that are not negative: no overflow *)

Lemma leb_zero_cases o :
  (0.0 <=? o)%float = true ->
  (exists s, Prim2SF o = S754_zero s) \/ (exists v, fin o v) \/
  Prim2SF o = S754_infinity false.
Proof.
  rewrite leb_spec. change (Prim2SF 0.0%float) with (S754_zero false).
  unfold SFleb. destruct (Prim2SF o) as [s|[|]|  |[|] m e] eqn:E; cbn; try discriminate; intros _.
  - left. eauto.
  - right; right. reflexivity.
  - right; left. exists (val (Z.pos m) e), m, e. auto.
Qed.

Lemma one_minus_zero y s : Prim2SF y = S754_zero s -> (1.0 - y)%float = 1.0%float.
Proof.
  intros Hy. apply Prim2SF_inj. rewrite sub_spec, Hy. reflexivity.
Qed.

Lemma max_zero_one : Py.max 0.0%float 1.0%float = 1.0%float.
Proof. reflexivity. Qed.

Lemma closeness_of_quotient y :
  (exists s, Prim2SF y = S754_zero s) \/ nonneg y ->
  at_most (128 * u7) (Py.max 0.0 (1.0 - y))%float.
Proof.
  intros Hy.
  assert (Hz : forall s, Prim2SF y = S754_zero s ->
               at_most (128 * u7) (Py.max 0.0 (1.0 - y))%float).
  { intros s Hs. rewrite (one_minus_zero y s Hs), max_zero_one.
    apply fin_at_most. apply fin_1. }
  destruct Hy as [(s & Hs)|[Hs|[(v & Hv)|Hinf]]]; eauto.
  - (* a positive finite quotient *)
    apply fin_canonical in Hv. destruct Hv as (m & e & Hy & Hv & Hc & He).
    pose proof fin_1 as H1. apply fin_canonical in H1.
    destruct H1 as (m1 & e1 & H1 & Hv1 & Hc1 & He1).
    pose proof (canonical_emin _ _ Hc). pose proof (canonical_emin _ _ Hc1).
    destruct (Z_lt_le_dec v (128 * u7)) as [Hlt|Hge].
    + destruct (SFsub_pos m1 e1 m e) as (m2 & e2 & Hm2 & Hc2 & Hres & _ & Hhi); try lia.
      assert (Hle : val m2 e2 <= val (Z.pos m1) e1).
      { apply Hhi; [exact Hc1|]. pose proof (val_pos (Z.pos m) e ltac:(lia) ltac:(lia)). lia. }
      assert (Hc' : at_most (128 * u7) (1.0 - y)%float).
      { apply (round_result_at_most _ m2 e2 _ e1); try assumption; try lia.
        - rewrite sub_spec, H1, Hy. exact Hres.
        - intros Hpos. apply (canonical_le_exp m2 e2 (Z.pos m1) e1); auto. }
      destruct (closeness_cases (1.0 - y)%float) as [E|[E _]]; rewrite E; [|exact Hc'].
      left. reflexivity.
    + assert (Hl : (0.0 <? 1.0 - y)%float = false).
      { rewrite ltb_spec, sub_spec, H1, Hy.
        change (Prim2SF 0.0%float) with (S754_zero false).
        apply SFsub_nonpos; lia. }
      unfold Py.max. rewrite Hl. left. reflexivity.
  - (* an infinite quotient *)
    assert (Hl : (0.0 <? 1.0 - y)%float = false).
    { rewrite ltb_spec, sub_spec, Hinf. reflexivity. }
    unfold Py.max. rewrite Hl. left. reflexivity.
Qed.

Lemma closeness_at_most o :
  (0.0 <=? o)%float = true ->
  at_most (128 * u7) (Py.max 0.0 (1.0 - o / 10.0))%float.
Proof.
  intros Ho. apply closeness_of_quotient.
  destruct (leb_zero_cases o Ho) as [(s & Hs)|[(v & Hv)|Hinf]].
  - left. exists (xorb s false). rewrite div_spec, Hs. reflexivity.
  - right. eapply div_nonneg; [|apply fin_10]. right; left; eauto.
  - right. eapply div_nonneg; [|apply fin_10]. right; right; exact Hinf.
Qed.

Lemma contribution_at_most a :
  (0.0 <=? Engine.aspect_orb a)%float = true ->
  at_most (768 * u7)
    (Engine.aspect_weight a *
     (1.0 + Py.max 0.0 (1.0 - Engine.aspect_orb a / 10.0)))%float.
Proof.
  intros Ho. pose proof u7_pos as Hu.
  destruct (aspect_weight_fin a) as (w & Hw & Hwb).
  apply (mul_at_most (w * u7) (256 * u7)).
  - apply repr_u7. lia.
  - lia.
  - lia.
  - rewrite unit_u7. nia.
  - apply fin_at_most. exact Hw.
  - apply (add_at_most (128 * u7) (128 * u7)).
    + apply repr_u7. lia.
    + lia.
    + lia.
    + lia.
    + apply fin_at_most. apply fin_1.
    + apply closeness_at_most. exact Ho.
Qed.


Lemma tension_fold_at_most l : forall score n,
  orbs_nonneg l -> 0 <= n -> 6 * (n + Z.of_nat (List.length l)) < 2 ^ 53 ->
  at_most (6 * n * 2 ^ K) score ->
  at_most (6 * (n + Z.of_nat (List.length l)) * 2 ^ K)
          (fold_left Engine.tension_step l score).
Proof.
  induction l as [|a l IH]; intros score n Ho Hn Hb Hs.
  - cbn [List.length fold_left]. rewrite Z.add_0_r. exact Hs.
  - cbn [fold_left]. rewrite length_cons, Nat2Z.inj_succ in *.
    replace (n + Z.succ (Z.of_nat (List.length l)))
      with ((n + 1) + Z.of_nat (List.length l)) in * by lia.
    apply IH; try lia.
    + intros b Hb'. apply Ho. right; exact Hb'.
    + unfold Engine.tension_step. cbn zeta. pose proof u7_pos.
      apply (add_at_most (6 * n * 2 ^ K) (768 * u7)).
      * apply repr_int. lia.
      * pose proof (pow2_gt0 K ltac:(lia)). nia.
      * lia.
      * rewrite unit_u7. lia.
      * exact Hs.
      * apply contribution_at_most. apply Ho. left; reflexivity.
Qed.

Lemma scaled_total_at_most l :
  orbs_nonneg l -> Z.of_nat (List.length l) <= 2 ^ 43 ->
  exists c, at_most c (scaled_total l).
Proof.
  intros Ho Hlen.
  set (n := Z.of_nat (List.length l)) in *.
  destruct (Z.eq_dec n 0) as [Hn0|Hn0].
  - exists 0. left. destruct l; [reflexivity|]. unfold n in Hn0. rewrite length_cons in Hn0. lia.
  - assert (Hn : 0 < n) by (unfold n in *; lia).
    pose proof (tension_fold_at_most l 0.0%float 0 Ho ltac:(lia)) as Ht.
    rewrite Z.add_0_l in Ht. fold n in Ht.
    specialize (Ht ltac:(lia) ltac:(left; reflexivity)).
    exists (600 * n * 2 ^ K). unfold scaled_total.
    pose proof (pow2_gt0 K ltac:(lia)) as HK. pose proof u7_pos.
    apply (mul_at_most (6 * n * 2 ^ K) (12800 * u7)).
    + apply repr_int. lia.
    + nia.
    + lia.
    + rewrite unit_u7. nia.
    + apply (div_at_most (6 * n * 2 ^ K) (5120 * u7)).
      * apply repr_int. lia.
      * nia.
      * rewrite unit_u7. nia.
      * exact Ht.
      * apply fin_40.
    + apply fin_at_most. apply fin_100.
Qed.

Lemma tension_returns l :
  orbs_nonneg l -> Z.of_nat (List.length l) <= 2 ^ 43 ->
  exists k, Engine.tension_of_aspects l = Ok k /\ 0 <= k <= 100 /\
            (l <> [] -> 2 <= k).
Proof.
  intros Ho Hlen. destruct (scaled_total_at_most l Ho Hlen) as (c & Hc).
  destruct (int_of_float_at_most c _ Hc) as (k & Hk & Hk0).
  assert (E : Engine.tension_of_aspects l = Ok (Z.min 100 k)).
  { unfold Engine.tension_of_aspects. cbn zeta. fold (scaled_total l).
    rewrite Hk. reflexivity. }
  exists (Z.min 100 k). split; [exact E|]. split; [lia|].
  intros Hl. destruct (tension_nonempty l Hl) as [H|(k' & H & Hk')];
    rewrite E in H; [discriminate|]. injection H as H. lia.
Qed.

Lemma canonical_lt_2_53 m e : canonical m e -> m < 2 ^ 53.
Proof.
  intros [Hm Hc]. pose proof (digits_bounds m Hm) as [_ Hhi].
  pose proof (digits_pos m Hm).
  assert (digits m <= 53) by fexp_lia.
  assert (2 ^ digits m <= 2 ^ 53) by (apply pow2_le; lia). lia.
Qed.

(** Every multiple of a power of two with at most 53 significant bits
    is a binary64 value, subnormal ones included. *)
Lemma repr_dyadic n j :
  0 < n < 2 ^ 53 -> -1074 <= j <= 971 -> repr (n * 2 ^ (j + K)).
Proof.
  intros Hn Hj. pose proof (digits_bounds n ltac:(lia)) as [Hlo Hhi].
  pose proof (digits_pos n ltac:(lia)) as Hd.
  assert (Hd53 : digits n <= 53).
  { destruct (Z_le_gt_dec (digits n) 53); [assumption|].
    assert (2 ^ 53 <= 2 ^ (digits n - 1)) by (apply pow2_le; lia). lia. }
  set (E := fexp (digits n + j)).
  assert (HE : -1074 <= E <= j) by (unfold E; fexp_lia).
  exists (n * 2 ^ (j - E)), E.
  pose proof (pow2_gt0 (j - E) ltac:(lia)).
  split; [split; [nia|]|split; [lia|]].
  - rewrite digits_mul_pow2 by lia. replace (digits n + (j - E) + E) with (digits n + j) by lia.
    reflexivity.
  - unfold val. rewrite <- Z.mul_assoc, <- pow2_add by lia. f_equal. f_equal. lia.
Qed.

Lemma round_result_fin x M E v :
  Prim2SF x = round_result false M E -> canonical M E -> E <= 971 ->
  val M E = v -> fin x v.
Proof.
  intros Hx [HM HC] HE Hv. unfold round_result in Hx.
  destruct M as [|p|p]; try lia.
  replace (E <=? emax - prec) with true in Hx
    by (symmetry; apply Z.leb_le; change (emax - prec) with 971; lia).
  exists p, E. auto.
Qed.

(** *** Exact sums and differences *)

Lemma add_exact x y v w :
  fin x v -> fin y w -> repr (v + w) -> fin (x + y)%float (v + w).
Proof.
  intros Hx Hy (M & E & HC & HE & HM).
  apply fin_canonical in Hx, Hy.
  destruct Hx as (mx & ex & Hx & Hvx & Hcx & _), Hy as (my & ey & Hy & Hvy & Hcy & _).
  pose proof (canonical_emin _ _ Hcx). pose proof (canonical_emin _ _ Hcy).
  destruct (SFadd_sandwich mx ex my ey) as (m2 & e2 & Hm2 & Hc2 & Hres & Hlo & Hhi); try lia.
  specialize (Hlo M E HC ltac:(lia)). specialize (Hhi M E HC ltac:(lia)).
  pose proof (val_pos M E (proj1 HC) ltac:(pose proof (canonical_emin _ _ HC); lia)).
  assert (0 < m2).
  { destruct (Z.eq_dec m2 0) as [E0|]; [|lia]. rewrite E0 in Hlo. unfold val in Hlo at 2. lia. }
  destruct (canonical_unique m2 e2 M E (Hc2 H2) HC ltac:(lia)) as [-> ->].
  apply (round_result_fin _ M E); auto. rewrite add_spec, Hx, Hy. exact Hres.
Qed.

Lemma sub_exact x y v w :
  fin x v -> fin y w -> w < v -> repr (v - w) -> fin (x - y)%float (v - w).
Proof.
  intros Hx Hy Hlt (M & E & HC & HE & HM).
  apply fin_canonical in Hx, Hy.
  destruct Hx as (mx & ex & Hx & Hvx & Hcx & _), Hy as (my & ey & Hy & Hvy & Hcy & _).
  pose proof (canonical_emin _ _ Hcx). pose proof (canonical_emin _ _ Hcy).
  destruct (SFsub_pos mx ex my ey) as (m2 & e2 & Hm2 & Hc2 & Hres & Hlo & Hhi); try lia.
  specialize (Hlo M E HC ltac:(lia)). specialize (Hhi M E HC ltac:(lia)).
  pose proof (val_pos M E (proj1 HC) ltac:(pose proof (canonical_emin _ _ HC); lia)).
  assert (0 < m2).
  { destruct (Z.eq_dec m2 0) as [E0|]; [|lia]. rewrite E0 in Hlo. unfold val in Hlo at 2. lia. }
  destruct (canonical_unique m2 e2 M E (Hc2 H2) HC ltac:(lia)) as [-> ->].
  apply (round_result_fin _ M E); auto. rewrite sub_spec, Hx, Hy. exact Hres.
Qed.

Lemma sub_self x v : fin x v -> (x - x)%float = 0.0%float.
Proof.
  intros (m & e & Hx & _). apply Prim2SF_inj. rewrite sub_spec, Hx.
  unfold SF64sub. cbn [SFsub cond_Zopp]. rewrite Z.sub_diag. reflexivity.
Qed.

(** *** [fmod] *)

Lemma fmod_fin x y v w :
  fin x v -> fin y w ->
  (v mod w = 0 -> Py.fmod x y = 0.0%float) /\
  (0 < v mod w -> fin (Py.fmod x y) (v mod w)).
Proof.
  intros Hx Hy. apply fin_canonical in Hx, Hy.
  destruct Hx as (mx & ex & Hx & Hvx & Hcx & Hex), Hy as (my & ey & Hy & Hvy & Hcy & Hey).
  pose proof (canonical_emin _ _ Hcx). pose proof (canonical_emin _ _ Hcy).
  pose proof (canonical_lt_2_53 _ _ Hcx). pose proof (canonical_lt_2_53 _ _ Hcy).
  unfold Py.fmod. rewrite Hx, Hy. cbn [Py.SFfmod cond_Zopp].
  set (e := Z.min ex ey).
  set (X := Z.pos mx * 2 ^ (ex - e)). set (Y := Z.pos my * 2 ^ (ey - e)).
  pose proof (pow2_gt0 (ex - e) ltac:(lia)). pose proof (pow2_gt0 (ey - e) ltac:(lia)).
  pose proof (pow2_gt0 (e + K) ltac:(lia)) as Hpe.
  assert (HX : v = X * 2 ^ (e + K)).
  { rewrite <- Hvx. unfold val, X. rewrite <- Z.mul_assoc, <- pow2_add by lia.
    f_equal. f_equal. lia. }
  assert (HY : w = Y * 2 ^ (e + K)).
  { rewrite <- Hvy. unfold val, Y. rewrite <- Z.mul_assoc, <- pow2_add by lia.
    f_equal. f_equal. lia. }
  assert (HY0 : 0 < Y) by (unfold Y; nia).
  assert (HX0 : 0 < X) by (unfold X; nia).
  assert (Hmod : v mod w = (X mod Y) * 2 ^ (e + K)).
  { rewrite HX, HY. apply Z.mul_mod_distr_r; lia. }
  pose proof (Z.mod_pos_bound X Y HY0) as Hr.
  assert (Hrx : X mod Y <= X) by (apply Z.mod_le; lia).
  assert (Hr53 : X mod Y < 2 ^ 53).
  { destruct (Z_le_gt_dec ex ey).
    - assert (X = Z.pos mx); [|lia].
      unfold X. replace (ex - e) with 0 by lia. lia.
    - assert (Y = Z.pos my); [|lia].
      unfold Y. replace (ey - e) with 0 by lia. lia. }
  destruct (X mod Y) as [|r|r] eqn:Er; try lia.
  - split; [intros _; reflexivity|]. rewrite Hmod. lia.
  - split; [rewrite Hmod; lia|]. intros _. rewrite Hmod.
    destruct (repr_dyadic (Z.pos r) e ltac:(lia) ltac:(lia)) as (M & E & HC & HE & HM).
    cbn [binary_normalize].
    rewrite (binary_round_exact false r e M E ltac:(lia) HC ltac:(unfold val at 1; lia)).
    destruct HC as [HM0 HC]. destruct M as [|p|p]; try lia.
    unfold round_result.
    replace (E <=? emax - prec) with true
      by (symmetry; apply Z.leb_le; change (emax - prec) with 971; lia).
    exists p, E. split; [|exact HM].
    apply Prim2SF_SF2Prim. apply bounded_canonical. split; [split; assumption|lia].
Qed.

Lemma fmod_small x y v w : fin x v -> fin y w -> v < w -> Py.fmod x y = x.
Proof.
  intros Hx Hy Hlt. pose proof (fin_pos _ _ Hx).
  destruct (fmod_fin x y v w Hx Hy) as [_ H1].
  rewrite Z.mod_small in H1 by lia. specialize (H1 ltac:(lia)).
  apply (fin_inj _ _ v); assumption.
Qed.

(** *** Tests on a positive finite float *)

Lemma fin_eqb_zero x v : fin x v -> (x =? 0.0)%float = false.
Proof. intros (m & e & Hx & _). rewrite eqb_spec, Hx. reflexivity. Qed.

Lemma fin_ltb_zero x v : fin x v -> (x <? 0.0)%float = false.
Proof. intros (m & e & Hx & _). rewrite ltb_spec, Hx. reflexivity. Qed.

Lemma float_div_mod_pos vx wx r v :
  Py.fmod vx wx = r -> fin r v -> (wx <? 0.0)%float = false ->
  Py.float_div_mod vx wx = (snap ((vx - r) / wx)%float vx wx, r).
Proof.
  intros Hr Hv Hw. unfold Py.float_div_mod. rewrite Hr.
  rewrite (fin_eqb_zero r v Hv), (fin_ltb_zero r v Hv), Hw. reflexivity.
Qed.

Lemma float_div_mod_zero vx wx :
  Py.fmod vx wx = 0.0%float ->
  Py.float_div_mod vx wx
  = (snap ((vx - 0.0) / wx)%float vx wx, Py.copysign_zero wx).
Proof.
  intros Hr. unfold Py.float_div_mod. rewrite Hr. reflexivity.
Qed.

Lemma fin_360 : fin 360.0%float (46080 * u7). Proof. fin_const. Qed.
Lemma fin_30 : fin 30.0%float (3840 * u7). Proof. fin_const. Qed.

Lemma fin_segment_start k :
  (1 <= k <= 12)%nat -> fin (segment_start k) (3840 * Z.of_nat k * u7).
Proof.
  intros Hk.
  do 13 (destruct k as [|k]; [try lia; cbn [Z.of_nat]; fin_const|]). lia.
Qed.

Lemma float_rem_small lon v :
  fin lon v -> v < 46080 * u7 -> Py.float_rem lon 360.0%float = lon.
Proof.
  intros Hv Hlt. unfold Py.float_rem.
  pose proof (fmod_small lon _ v _ Hv fin_360 Hlt) as Hm.
  rewrite (float_div_mod_pos lon _ lon v Hm Hv); reflexivity.
Qed.

Lemma nonneg_sign x : nonneg x -> Py.copysign_zero x = 0.0%float.
Proof.
  unfold Py.copysign_zero.
  intros [H|[(v & m & e & H & _)|H]]; rewrite H; reflexivity.
Qed.

Lemma snap_whole k vx wx :
  (1 <= k < 12)%nat -> snap (segment_start k / 30.0)%float vx wx = whole k.
Proof.
  intros Hk.
  do 12 (destruct k as [|k]; [try lia; vm_compute; reflexivity|]). lia.
Qed.

Lemma float_floor_div_30 lon v k :
  fin lon v -> (k < 12)%nat ->
  3840 * Z.of_nat k * u7 <= v < 3840 * (Z.of_nat k + 1) * u7 ->
  Py.float_floor_div lon 30.0%float = whole k.
Proof.
  intros Hv Hk Hb. pose proof u7_pos as Hu. unfold Py.float_floor_div.
  assert (Hq : v / (3840 * u7) = Z.of_nat k)
    by (symmetry; apply Z.div_unique with (v - 3840 * u7 * Z.of_nat k); lia).
  assert (Hmod : v mod (3840 * u7) = v - 3840 * Z.of_nat k * u7).
  { pose proof (Z.div_mod v (3840 * u7) ltac:(lia)). rewrite Hq in H. lia. }
  destruct (fmod_fin lon _ v _ Hv fin_30) as [H0 H1]. rewrite Hmod in H0, H1.
  destruct (Z.eq_dec v (3840 * Z.of_nat k * u7)) as [E|NE].
  - (* on a boundary *)
    rewrite (float_div_mod_zero _ _ (H0 ltac:(lia))). cbn [fst].
    assert (1 <= k)%nat by (pose proof (fin_pos _ _ Hv); nia).
    assert (lon = segment_start k).
    { apply (fin_inj _ _ v); [exact Hv|]. rewrite E. apply fin_segment_start. lia. }
    subst lon. revert H. clear - Hk. intros H.
    do 12 (destruct k as [|k]; [try lia; vm_compute; reflexivity|]). lia.
  - specialize (H1 ltac:(lia)).
    rewrite (float_div_mod_pos _ _ _ _ eq_refl H1) by reflexivity. cbn [fst].
    destruct k as [|k].
    + (* the first segment *)
      cbn [Z.of_nat] in *. replace (v - 3840 * 0 * u7) with v in H1 by lia.
      rewrite <- (fin_inj _ _ v Hv H1). rewrite (sub_self lon v Hv).
      unfold snap. change (0.0 / 30.0 =? 0.0)%float with true. cbn [negb].
      apply nonneg_sign. eapply div_nonneg; [|apply fin_30]. right; left; eauto.
    + assert (Hd : fin (lon - Py.fmod lon 30.0)%float (3840 * Z.of_nat (S k) * u7)).
      { replace (3840 * Z.of_nat (S k) * u7)
          with (v - (v - 3840 * Z.of_nat (S k) * u7)) by lia.
        apply sub_exact; [exact Hv|exact H1|lia|].
        replace (v - (v - 3840 * Z.of_nat (S k) * u7))
          with ((3840 * Z.of_nat (S k)) * u7) by lia.
        apply repr_u7. change (2 ^ 53) with 9007199254740992. lia. }
      rewrite (fin_inj _ _ _ Hd (fin_segment_start (S k) ltac:(lia))).
      apply snap_whole. lia.
Qed.

Lemma int_of_whole k : (k < 12)%nat -> Py.int_of_float (whole k) = Ok (Z.of_nat k).
Proof.
  intros Hk.
  do 12 (destruct k as [|k]; [vm_compute; reflexivity|]). lia.
Qed.

Lemma index_signs k :
  (k < 12)%nat -> Py.index Engine.signs (Z.of_nat k) = Ok (nth k Engine.signs EmptyString).
Proof.
  intros Hk.
  do 12 (destruct k as [|k]; [vm_compute; reflexivity|]). lia.
Qed.

Lemma zero_float s x : Prim2SF x = S754_zero s -> x = 0.0%float \/ x = (-0.0)%float.
Proof.
  intros H. destruct s; [right|left]; apply Prim2SF_inj; rewrite H; reflexivity.
Qed.

(** The sign of a longitude of the range [[0, 360)]. *)
Lemma infer_sign_in_range lon :
  (0.0 <=? lon)%float = true -> (lon <? 360.0)%float = true ->
  exists k, (k < 12)%nat /\ in_segment lon k = true /\
            Engine._infer_sign_from_lon lon = Ok (nth k Engine.signs EmptyString).
Proof.
  intros H0 H360. pose proof u7_pos as Hu.
  destruct (leb_zero_cases lon H0) as [(s & Hs)|[(v & Hv)|Hinf]].
  - exists 0%nat. split; [lia|].
    destruct (zero_float s lon Hs) as [-> | ->]; split; vm_compute; reflexivity.
  - rewrite (ltb_fin _ _ _ _ Hv fin_360) in H360. apply Z.ltb_lt in H360.
    pose proof (fin_pos _ _ Hv) as Hv0.
    set (q := v / (3840 * u7)).
    pose proof (Z.div_mod v (3840 * u7) ltac:(lia)) as Hdm.
    pose proof (Z.mod_pos_bound v (3840 * u7) ltac:(lia)) as Hmb.
    fold q in Hdm.
    assert (Hq : 0 <= q < 12) by (split; [apply Z.div_pos; lia|apply Z.div_lt_upper_bound; lia]).
    exists (Z.to_nat q). split; [lia|].
    assert (Hb : 3840 * Z.of_nat (Z.to_nat q) * u7 <= v
                 < 3840 * (Z.of_nat (Z.to_nat q) + 1) * u7) by (rewrite Z2Nat.id; lia).
    split.
    + unfold in_segment. apply andb_true_iff. split.
      * destruct (Z.to_nat q) as [|k] eqn:Ek.
        -- exact H0.
        -- rewrite (leb_fin _ _ _ _ (fin_segment_start (S k) ltac:(lia)) Hv).
           apply Z.leb_le. lia.
      * rewrite (ltb_fin _ _ _ _ Hv (fin_segment_start (S (Z.to_nat q)) ltac:(lia))).
        apply Z.ltb_lt. rewrite Nat2Z.inj_succ. lia.
    + unfold Engine._infer_sign_from_lon.
      rewrite (float_rem_small lon v Hv H360).
      rewrite (float_floor_div_30 lon v (Z.to_nat q) Hv ltac:(lia) Hb).
      rewrite int_of_whole by lia. cbn [bind]. apply index_signs. lia.
  - rewrite ltb_spec, Hinf in H360. discriminate.
Qed.

(** ** Dictionaries *)

Section DictFacts.
Context {V : Type}.
Implicit Types (d : Py.dict V) (k : string) (v : V).

Lemma get_in d k v : Py.get d k = Some v -> In (k, v) d.
Proof.
  induction d as [|[k' v'] d IH]; cbn; [discriminate|].
  destruct (String.eqb_spec k' k) as [->|Hne].
  - intros [= ->]. left; reflexivity.
  - intros H. right. apply IH, H.
Qed.

Lemma get_some_keys d k v : Py.get d k = Some v -> In k (Py.keys d).
Proof. intros H. apply get_in in H. apply (in_map fst) in H. exact H. Qed.

Lemma get_none_keys d k : Py.get d k = None <-> ~ In k (Py.keys d).
Proof.
  induction d as [|[k' v'] d IH]; cbn; [tauto|].
  destruct (String.eqb_spec k' k) as [->|Hne].
  - split; [discriminate|]. intros H. exfalso. apply H. left; reflexivity.
  - rewrite IH. unfold Py.keys. intuition congruence.
Qed.

Lemma get_app_in d d' k :
  In k (Py.keys d) -> Py.get (d ++ d') k = Py.get d k.
Proof.
  induction d as [|[k' v'] d IH]; cbn; [tauto|].
  destruct (String.eqb_spec k' k) as [->|Hne]; [reflexivity|].
  intros [H|H]; [congruence|]. apply IH, H.
Qed.

Lemma get_app_new d k v :
  ~ In k (Py.keys d) -> Py.get (d ++ [(k, v)]) k = Some v.
Proof.
  induction d as [|[k' v'] d IH]; cbn; intros H.
  - rewrite String.eqb_refl. reflexivity.
  - destruct (String.eqb_spec k' k) as [->|Hne]; [tauto|]. apply IH. tauto.
Qed.

Lemma get_set_same d k v : Py.get (Py.set d k v) k = Some v.
Proof.
  induction d as [|[k' v'] d IH]; cbn.
  - rewrite String.eqb_refl. reflexivity.
  - destruct (String.eqb_spec k' k) as [->|Hne]; cbn.
    + rewrite String.eqb_refl. reflexivity.
    + destruct (String.eqb_spec k' k); [congruence|]. exact IH.
Qed.

Lemma keys_cons k0 v0 d : Py.keys ((k0, v0) :: d) = k0 :: Py.keys d.
Proof. reflexivity. Qed.

Lemma keys_set_in d k v :
  In k (Py.keys d) -> Py.keys (Py.set d k v) = Py.keys d.
Proof.
  induction d as [|[k' v'] d IH]; [intros []|].
  rewrite keys_cons. cbn [Py.set].
  destruct (String.eqb_spec k' k) as [->|Hne]; [reflexivity|].
  intros [H|H]; [congruence|]. rewrite !keys_cons, IH by exact H. reflexivity.
Qed.

Lemma keys_set_new d k v :
  ~ In k (Py.keys d) -> Py.keys (Py.set d k v) = Py.keys d ++ [k].
Proof.
  induction d as [|[k' v'] d IH]; [reflexivity|].
  rewrite keys_cons. cbn [Py.set]. intros H.
  destruct (String.eqb_spec k' k) as [->|Hne].
  - exfalso. apply H. left; reflexivity.
  - rewrite !keys_cons, IH; [reflexivity|]. intros Hi. apply H. right; exact Hi.
Qed.

Lemma in_set d k v k' x :
  NoDup (Py.keys d) ->
  In (k', x) (Py.set d k v) -> (k' = k /\ x = v) \/ (k' <> k /\ In (k', x) d).
Proof.
  induction d as [|[k0 v0] d IH]; [cbn; intros _; intros [[= <- <-]|[]]; left; auto|].
  rewrite keys_cons. cbn [Py.set]. intros Hnd.
  - inversion Hnd as [|? ? Hni Hnd']; subst.
    destruct (String.eqb_spec k0 k) as [->|Hne].
    + intros [[= <- <-]|H]; [left; auto|].
      right. split; [|right; exact H].
      intros ->. apply Hni. apply (in_map fst) in H. exact H.
    + intros [[= <- <-]|H]; [right; split; [exact Hne|left; reflexivity]|].
      destruct (IH Hnd' H) as [?|[? ?]]; [left; assumption|right; split; [assumption|right; assumption]].
Qed.

Lemma nodup_keys_set d k v : NoDup (Py.keys d) -> NoDup (Py.keys (Py.set d k v)).
Proof.
  intros H. destruct (in_dec string_dec k (Py.keys d)) as [Hi|Hi].
  - rewrite keys_set_in by exact Hi. exact H.
  - rewrite keys_set_new by exact Hi.
    apply NoDup_app; [exact H|repeat constructor; intros []|].
    intros a Ha [<-|[]]. exact (Hi Ha).
Qed.
End DictFacts.

(** ** Well-formed charts *)



Lemma getattr_lon_in_range chart k pos :
  well_formed chart -> In (k, pos) (positions chart) ->
  lon_in_range (Engine.getattr_lon pos) = true.
Proof.
  intros Hwf Hin. destruct pos as [|p|]; [reflexivity| |reflexivity].
  exact (Hwf k p Hin).
Qed.

Lemma infer_sign_total x :
  lon_in_range x = true -> exists s, Engine._infer_sign_from_lon x = Ok s.
Proof.
  unfold lon_in_range. intros H. apply andb_true_iff in H. destruct H as [H0 H1].
  destruct (infer_sign_in_range x H0 H1) as (k & _ & _ & Hk). eauto.
Qed.

Lemma contributor_sign_total chart p :
  well_formed chart -> exists s, Engine.contributor_sign chart p = Ok s.
Proof.
  intros Hwf. unfold Engine.contributor_sign.
  destruct (String.eqb p "Rising"); [eauto|].
  destruct (String.eqb p "Sun"); [eauto|].
  destruct (String.eqb p "Moon"); [eauto|].
  destruct (Py.get (positions chart) p) as [pos|] eqn:Eg; [|eauto].
  pose proof (getattr_lon_in_range chart p pos Hwf (get_in _ _ _ Eg)) as Hr.
  destruct (infer_sign_total _ Hr) as (s & Hs).
  destruct pos; eauto; rewrite Hs; cbn [bind]; eauto.
Qed.

Lemma vote_total T chart st p :
  well_formed chart -> exists st', Engine.vote T chart st p = Ok st'.
Proof.
  intros Hwf. unfold Engine.vote.
  destruct (contributor_sign_total chart p Hwf) as ([s|] & Hs); rewrite Hs; cbn [bind]; eauto.
Qed.

Lemma votes_total T chart ps : forall st,
  well_formed chart -> exists st', Engine.votes T chart st ps = Ok st'.
Proof.
  induction ps as [|p ps IH]; intros st Hwf; cbn [Engine.votes]; [eauto|].
  destruct (vote_total T chart st p Hwf) as (st' & Hst). rewrite Hst. cbn [bind].
  apply IH, Hwf.
Qed.

(** ** Contributors that cast no vote *)

Lemma vote_no_position T chart st p :
  Engine.contributor_sign chart p = Ok None -> Engine.vote T chart st p = Ok st.
Proof. intros H. unfold Engine.vote. rewrite H. reflexivity. Qed.

Lemma contributor_sign_missing chart p :
  ~ In p ["Sun"; "Moon"; "Rising"]%string ->
  Py.get (positions chart) p = None \/ Py.get (positions chart) p = Some PosNone ->
  Engine.contributor_sign chart p = Ok None.
Proof.
  intros Hp Hg. unfold Engine.contributor_sign.
  destruct (String.eqb_spec p "Rising") as [->|_]; [exfalso; apply Hp; cbn; tauto|].
  destruct (String.eqb_spec p "Sun") as [->|_]; [exfalso; apply Hp; cbn; tauto|].
  destruct (String.eqb_spec p "Moon") as [->|_]; [exfalso; apply Hp; cbn; tauto|].
  destruct Hg as [-> | ->]; reflexivity.
Qed.

Lemma vote_no_row T chart st p s :
  Engine.contributor_sign chart p = Ok (Some s) ->
  Py.get (modal_index T) s = None ->
  Engine.vote T chart st p = Ok st.
Proof.
  intros H Hrow. unfold Engine.vote. rewrite H. cbn [bind].
  unfold Py.get_default. rewrite Hrow. destruct st. reflexivity.
Qed.


Lemma vote_none T chart st p :
  casts_no_vote T chart p -> Engine.vote T chart st p = Ok st.
Proof.
  intros [H|(s & H & Hrow)];
    [apply vote_no_position; exact H|eapply vote_no_row; eauto].
Qed.

Lemma votes_none T chart ps : forall st,
  (forall p, In p ps -> casts_no_vote T chart p) ->
  Engine.votes T chart st ps = Ok st.
Proof.
  induction ps as [|p ps IH]; intros st H; cbn [Engine.votes]; [reflexivity|].
  rewrite vote_none by (apply H; left; reflexivity). cbn [bind].
  apply IH. intros q Hq. apply H. right; exact Hq.
Qed.

Lemma aggregate_unknown T chart :
  (forall p, In p (Engine.contributors chart) -> casts_no_vote T chart p) ->
  Engine._aggregate_canonical_modes T chart = Ok ("UNKNOWN", "UNKNOWN")%string.
Proof.
  intros H. unfold Engine._aggregate_canonical_modes.
  rewrite votes_none by exact H. reflexivity.
Qed.

Lemma empty_table_no_vote T chart p :
  well_formed chart -> modal_index T = [] -> casts_no_vote T chart p.
Proof.
  intros Hwf HT. destruct (contributor_sign_total chart p Hwf) as ([s|] & Hs).
  - right. exists s. split; [exact Hs|]. rewrite HT. reflexivity.
  - left. exact Hs.
Qed.

(** ** Scores are exact: they count halves *)


Lemma halves_u7 h : halves h = 64 * h * u7.
Proof.
  unfold halves, u7. replace (-1 + K) with (6 + (K - 7)) by lia.
  rewrite pow2_add by lia. change (2 ^ 6) with 64. ring.
Qed.

Lemma halves_repr h : 0 < h < 2 ^ 53 -> repr (halves h).
Proof. intros H. apply repr_dyadic; lia. Qed.

Lemma halves_lt h h' : halves h < halves h' <-> h < h'.
Proof. unfold halves. pose proof (pow2_gt0 (-1 + K) ltac:(lia)). nia. Qed.

Lemma zero_add w v : fin w v -> (0.0 + w)%float = w.
Proof.
  intros (m & e & Hw & _). apply Prim2SF_inj. rewrite add_spec, Hw. reflexivity.
Qed.

Lemma planet_weight_halves p :
  exists hw, 2 <= hw <= 6 /\ fin (Engine._get_planet_weight p) (halves hw).
Proof.
  unfold Engine._get_planet_weight, Py.get_default, Engine.PLANET_WEIGHTS. cbn [Py.get].
  destruct (String.eqb "Sun" p); [exists 6; split; [lia|rewrite halves_u7; apply fin_3]|].
  destruct (String.eqb "Moon" p); [exists 5; split; [lia|rewrite halves_u7; apply fin_2_5]|].
  destruct (String.eqb "Rising" p); [exists 4; split; [lia|rewrite halves_u7; apply fin_2]|].
  exists 2. split; [lia|rewrite halves_u7; apply fin_1].
Qed.

Lemma planet_weight_default p :
  ~ In p ["Sun"; "Moon"; "Rising"]%string -> Engine._get_planet_weight p = 1.0%float.
Proof.
  intros Hp. unfold Engine._get_planet_weight, Py.get_default, Engine.PLANET_WEIGHTS.
  cbn [Py.get].
  destruct (String.eqb_spec "Sun" p) as [<-|_]; [exfalso; apply Hp; cbn; tauto|].
  destruct (String.eqb_spec "Moon" p) as [<-|_]; [exfalso; apply Hp; cbn; tauto|].
  destruct (String.eqb_spec "Rising" p) as [<-|_]; [exfalso; apply Hp; cbn; tauto|].
  reflexivity.
Qed.


Lemma scores_ok_mono n n' d : n <= n' -> scores_ok n d -> scores_ok n' d.
Proof.
  intros Hn [Hnd H]. split; [exact Hnd|]. intros k x Hin.
  destruct (H k x Hin) as (Hk & h & Hh & Hf). split; [exact Hk|]. exists h. split; [lia|exact Hf].
Qed.

Lemma scores_ok_nil : scores_ok 0 [].
Proof. split; [constructor|intros k x []]. Qed.

Lemma add_score_fin n d k w hw :
  scores_ok n d -> 0 <= n -> 6 * (n + 1) < 2 ^ 53 -> 0 < hw <= 6 -> fin w (halves hw) ->
  exists h, 0 < h <= 6 * (n + 1) /\
            fin (Py.get_default d k 0.0 + w)%float (halves h) /\
            (forall x h0, Py.get d k = Some x -> fin x (halves h0) -> h = h0 + hw).
Proof.
  intros [Hnd H] Hn Hb Hhw Hw. unfold Py.get_default.
  destruct (Py.get d k) as [x|] eqn:Eg.
  - destruct (H k x (get_in _ _ _ Eg)) as (_ & h & Hh & Hx).
    exists (h + hw). split; [lia|]. split.
    + replace (halves (h + hw)) with (halves h + halves hw) by (unfold halves; ring).
      apply add_exact; [exact Hx|exact Hw|].
      replace (halves h + halves hw) with (halves (h + hw)) by (unfold halves; ring).
      apply halves_repr. lia.
    + intros x0 h0 [= <-] Hx0. pose proof (fin_unique _ _ _ Hx Hx0) as E.
      unfold halves in E. pose proof (pow2_gt0 (-1 + K) ltac:(lia)). nia.
  - exists hw. split; [lia|]. split; [|discriminate].
    rewrite (zero_add w _ Hw). exact Hw.
Qed.

Lemma add_score_ok n d k w hw :
  scores_ok n d -> 0 <= n -> 6 * (n + 1) < 2 ^ 53 -> 0 < hw <= 6 -> fin w (halves hw) ->
  k <> EmptyString ->
  scores_ok (n + 1) (Engine.add_score d k w).
Proof.
  intros Hok Hn Hb Hhw Hw Hk.
  destruct (add_score_fin n d k w hw Hok Hn Hb Hhw Hw) as (h & Hh & Hf & _).
  destruct Hok as [Hnd H]. unfold Engine.add_score. split.
  - apply nodup_keys_set. exact Hnd.
  - intros k' x Hin. destruct (in_set _ _ _ _ _ Hnd Hin) as [[-> ->]|[Hne Hin']].
    + split; [exact Hk|]. exists h. split; [lia|exact Hf].
    + destruct (H k' x Hin') as (Hk' & h' & Hh' & Hf'). split; [exact Hk'|].
      exists h'. split; [lia|exact Hf'].
Qed.

Lemma truthy_nonempty k : Py.truthy (Some k) = true -> k <> EmptyString.
Proof. destruct k; [discriminate|discriminate]. Qed.

Lemma vote_for_ok n d id w hw :
  scores_ok n d -> 0 <= n -> 6 * (n + 1) < 2 ^ 53 -> 0 < hw <= 6 -> fin w (halves hw) ->
  scores_ok (n + 1) (Engine.vote_for d id w).
Proof.
  intros Hok Hn Hb Hhw Hw. unfold Engine.vote_for.
  destruct id as [k|]; [|apply (scores_ok_mono n); [lia|exact Hok]].
  destruct (Py.truthy (Some k)) eqn:Et; [|apply (scores_ok_mono n); [lia|exact Hok]].
  eapply add_score_ok; eauto. apply truthy_nonempty. exact Et.
Qed.

Lemma vote_ok T chart n st st' p :
  Engine.vote T chart st p = Ok st' -> 0 <= n -> 6 * (n + 1) < 2 ^ 53 ->
  scores_ok n (fst st) -> scores_ok n (snd st) ->
  scores_ok (n + 1) (fst st') /\ scores_ok (n + 1) (snd st').
Proof.
  unfold Engine.vote. intros H Hn Hb H1 H2.
  destruct (Engine.contributor_sign chart p) as [[s|]|e]; cbn [bind] in H; try discriminate.
  - injection H as <-. cbn [fst snd].
    destruct (planet_weight_halves p) as (hw & Hhw & Hw).
    split; eapply vote_for_ok; eauto; lia.
  - injection H as <-. split; eapply scores_ok_mono; eauto; lia.
Qed.

Lemma votes_ok T chart ps : forall n st st',
  Engine.votes T chart st ps = Ok st' -> 0 <= n ->
  6 * (n + Z.of_nat (List.length ps)) < 2 ^ 53 ->
  scores_ok n (fst st) -> scores_ok n (snd st) ->
  scores_ok (n + Z.of_nat (List.length ps)) (fst st') /\
  scores_ok (n + Z.of_nat (List.length ps)) (snd st').
Proof.
  induction ps as [|p ps IH]; intros n st st' H Hn Hb H1 H2; cbn [Engine.votes] in H.
  - injection H as <-. cbn [List.length Z.of_nat]. rewrite Z.add_0_r. auto.
  - rewrite length_cons, Nat2Z.inj_succ in *.
    destruct (Engine.vote T chart st p) as [st1|e] eqn:Ev; cbn [bind] in H; [|discriminate].
    destruct (vote_ok T chart n st st1 p Ev Hn ltac:(lia) H1 H2) as [H1' H2'].
    replace (n + Z.succ (Z.of_nat (List.length ps)))
      with ((n + 1) + Z.of_nat (List.length ps)) in * by lia.
    eapply IH; eauto; lia.
Qed.

(** ** The winner *)

Lemma max_from_top {A K0} (gt : K0 -> K0 -> bool) (key : A -> K0) (top : A) :
  forall rest best,
    In top (best :: rest) ->
    (forall y, In y (best :: rest) -> y <> top ->
               gt (key top) (key y) = true /\ gt (key y) (key top) = false) ->
    (forall y, y = top \/ y <> top) ->
    Py.max_from gt key best rest = top.
Proof.
  induction rest as [|x rest IH]; intros best Hin Hdom Hdec; cbn [Py.max_from].
  - destruct Hin as [->|[]]. reflexivity.
  - apply IH; [|intros y Hy Hne; apply Hdom; [|exact Hne]|exact Hdec].
    + destruct (Hdec best) as [->|Hb].
      * destruct (Hdec x) as [->|Hx].
        -- left. destruct (gt (key top) (key top)); reflexivity.
        -- left. destruct (Hdom x ltac:(right; left; reflexivity) Hx) as [_ ->]. reflexivity.
      * destruct Hin as [->|[->|Hin]]; [congruence| |right; exact Hin].
        left. destruct (Hdom best ltac:(left; reflexivity) Hb) as [-> _]. reflexivity.
    + destruct Hy as [Hy|Hy]; [|right; right; exact Hy].
      destruct (gt (key x) (key best)); [right; left; exact Hy|left; exact Hy].
Qed.


Lemma item_dec (y top : string * float) : y = top \/ y <> top.
Proof.
  destruct y as [k x], top as [k' x'].
  destruct (string_dec k k') as [->|Hk]; [|right; congruence].
  destruct (PrimFloat.Leibniz.eqb x x') eqn:E.
  - apply FloatAxioms.Leibniz.eqb_spec in E. left; congruence.
  - right. intros [= ->]. 
    assert (PrimFloat.Leibniz.eqb x' x' = true) by (apply FloatAxioms.Leibniz.eqb_spec; reflexivity).
    congruence.
Qed.

Lemma nodup_keys_unique {V} (d : Py.dict V) k x y :
  NoDup (Py.keys d) -> In (k, x) d -> In (k, y) d -> x = y.
Proof.
  induction d as [|[k0 v0] d IH]; [intros _ []|].
  rewrite keys_cons. intros Hnd H1 H2. inversion Hnd as [|? ? Hni Hnd']; subst.
  destruct H1 as [E1|H1]; destruct H2 as [E2|H2].
  - congruence.
  - exfalso. injection E1 as -> _. apply Hni. apply (in_map fst) in H2. exact H2.
  - exfalso. injection E2 as -> _. apply Hni. apply (in_map fst) in H1. exact H1.
  - eauto.
Qed.

Lemma primary_leads n scores w :
  scores_ok n scores -> leads scores w -> Engine.primary scores = w.
Proof.
  intros [Hnd Hok] (sw & Hg & Hdom). unfold Engine.primary, Py.max_by.
  pose proof (get_in _ _ _ Hg) as Hin.
  destruct scores as [|best rest]; [destruct Hin|].
  rewrite (max_from_top Py.float_gt snd (w, sw)); [reflexivity|exact Hin| |intros y; apply item_dec].
  intros [k x] Hy Hne. cbn [snd]. unfold Py.float_gt.
  assert (Hk : k <> w).
  { intros ->. apply Hne. f_equal. eapply nodup_keys_unique; eauto. }
  pose proof (Hdom k x Hy Hk) as Hlt.
  destruct (Hok k x Hy) as (_ & h & _ & Hx). destruct (Hok w sw Hin) as (_ & h' & _ & Hs).
  rewrite (ltb_fin _ _ _ _ Hx Hs) in *. rewrite (ltb_fin _ _ _ _ Hs Hx).
  split; [exact Hlt|]. apply Z.ltb_lt in Hlt. apply Z.ltb_ge. lia.
Qed.

(** ** The list of contributors *)

Lemma fold_set_keys (l : list string) : forall (d : Py.dict unit) k,
  In k (Py.keys (fold_left (fun d k => Py.set d k tt) l d)) <->
  In k l \/ In k (Py.keys d).
Proof.
  induction l as [|a l IH]; intros d k; cbn [fold_left].
  - cbn. tauto.
  - rewrite IH. cbn [In].
    destruct (in_dec string_dec a (Py.keys d)) as [Hi|Hi].
    + rewrite keys_set_in by exact Hi. split; [tauto|].
      intros [[<-|H]|H]; auto.
    + rewrite keys_set_new by exact Hi. rewrite in_app_iff. cbn [In]. tauto.
Qed.

Lemma in_fromkeys l k : In k (Py.fromkeys l) <-> In k l.
Proof. unfold Py.fromkeys. rewrite fold_set_keys. cbn. tauto. Qed.

Lemma fromkeys_snoc l p :
  ~ In p l -> Py.fromkeys (l ++ [p]) = Py.fromkeys l ++ [p].
Proof.
  intros Hp. unfold Py.fromkeys. rewrite fold_left_app. cbn [fold_left].
  apply keys_set_new. rewrite fold_set_keys. cbn. tauto.
Qed.

Lemma fold_set_length (l : list string) : forall (d : Py.dict unit),
  (List.length (Py.keys (fold_left (fun d k => Py.set d k tt) l d))
   <= List.length l + List.length (Py.keys d))%nat.
Proof.
  induction l as [|a l IH]; intros d; cbn [fold_left List.length]; [lia|].
  specialize (IH (Py.set d a tt)).
  destruct (in_dec string_dec a (Py.keys d)) as [Hi|Hi].
  - rewrite keys_set_in in IH by exact Hi. lia.
  - rewrite keys_set_new in IH by exact Hi. rewrite length_app in IH. cbn in IH. lia.
Qed.

Lemma length_contributors chart :
  (List.length (Engine.contributors chart) <= 3 + List.length (positions chart))%nat.
Proof.
  unfold Engine.contributors, Py.fromkeys.
  pose proof (fold_set_length (["Sun"; "Moon"; "Rising"]%string ++ Py.keys (positions chart)) []) as H.
  rewrite length_app in H.
  assert (E : List.length (Py.keys (positions chart)) = List.length (positions chart))
    by apply length_map.
  rewrite E in H. cbn in H. cbn. lia.
Qed.

(** ** One more position *)



Lemma contributors_add chart p pos :
  ~ In p (luminaries ++ Py.keys (positions chart)) ->
  Engine.contributors (add_position chart p pos) = Engine.contributors chart ++ [p].
Proof.
  intros Hp. unfold Engine.contributors, add_position. cbn [positions].
  unfold Py.keys at 1. rewrite map_app. cbn [map fst]. rewrite app_assoc.
  apply fromkeys_snoc. exact Hp.
Qed.

Lemma contributor_sign_add chart p pos q :
  In q (luminaries ++ Py.keys (positions chart)) ->
  Engine.contributor_sign (add_position chart p pos) q = Engine.contributor_sign chart q.
Proof.
  intros Hq. unfold Engine.contributor_sign. cbn [rising_sign sun_sign moon_sign positions add_position].
  destruct (String.eqb_spec q "Rising"); [reflexivity|].
  destruct (String.eqb_spec q "Sun"); [reflexivity|].
  destruct (String.eqb_spec q "Moon"); [reflexivity|].
  rewrite get_app_in; [reflexivity|].
  apply in_app_iff in Hq. destruct Hq as [Hq|Hq]; [|exact Hq].
  cbn in Hq. intuition congruence.
Qed.

Lemma vote_add T chart p pos st q :
  In q (luminaries ++ Py.keys (positions chart)) ->
  Engine.vote T (add_position chart p pos) st q = Engine.vote T chart st q.
Proof.
  intros Hq. unfold Engine.vote. rewrite contributor_sign_add by exact Hq. reflexivity.
Qed.

Lemma votes_add T chart p pos qs : forall st,
  (forall q, In q qs -> In q (luminaries ++ Py.keys (positions chart))) ->
  Engine.votes T (add_position chart p pos) st qs = Engine.votes T chart st qs.
Proof.
  induction qs as [|q qs IH]; intros st H; cbn [Engine.votes]; [reflexivity|].
  rewrite vote_add by (apply H; left; reflexivity).
  destruct (Engine.vote T chart st q); cbn [bind]; [|reflexivity].
  apply IH. intros q' Hq'. apply H. right; exact Hq'.
Qed.

Lemma votes_app T chart l l' : forall st,
  Engine.votes T chart st (l ++ l')
  = (st' <- Engine.votes T chart st l ;; Engine.votes T chart st' l').
Proof.
  induction l as [|p l IH]; intros st; cbn [app Engine.votes bind]; [reflexivity|].
  destruct (Engine.vote T chart st p); cbn [bind]; [apply IH|reflexivity].
Qed.

(** ** Vote monotonicity *)

Lemma leads_after_vote n scores w :
  scores_ok n scores -> 0 <= n -> 6 * (n + 1) < 2 ^ 53 -> leads scores w ->
  exists sw sw',
    Py.get scores w = Some sw /\
    Py.get (Engine.vote_for scores (Some w) 1.0%float) w = Some sw' /\
    (sw <? sw')%float = true /\
    scores_ok (n + 1) (Engine.vote_for scores (Some w) 1.0%float) /\
    leads (Engine.vote_for scores (Some w) 1.0%float) w.
Proof.
  intros Hok Hn Hb (sw & Hg & Hdom).
  pose proof (get_in _ _ _ Hg) as Hin.
  destruct Hok as [Hnd Hall]. destruct (Hall w sw Hin) as (Hw & h & Hh & Hsw).
  assert (Hone : fin 1.0%float (halves 2)) by (rewrite halves_u7; apply fin_1).
  assert (Ht : Py.truthy (Some w) = true) by (destruct w; [congruence|reflexivity]).
  unfold Engine.vote_for. rewrite Ht.
  destruct (add_score_fin n scores w 1.0%float 2 (conj Hnd Hall) Hn Hb ltac:(lia) Hone)
    as (h' & Hh' & Hf' & Heq).
  specialize (Heq sw h Hg Hsw). subst h'.
  exists sw, (Py.get_default scores w 0.0 + 1.0)%float.
  split; [exact Hg|]. split; [apply get_set_same|]. split.
  { rewrite (ltb_fin _ _ _ _ Hsw Hf'). apply Z.ltb_lt. apply (proj2 (halves_lt _ _)). lia. }
  split.
  { apply (add_score_ok n scores w 1.0%float 2);
      [split; assumption|assumption|assumption|lia|assumption|assumption]. }
  exists (Py.get_default scores w 0.0 + 1.0)%float. split; [apply get_set_same|].
  intros k x Hk Hne. unfold Engine.add_score in Hk.
  destruct (in_set _ _ _ _ _ Hnd Hk) as [[-> _]|[_ Hk']]; [congruence|].
  pose proof (Hdom k x Hk' Hne) as Hlt.
  destruct (Hall k x Hk') as (_ & hx & _ & Hx).
  rewrite (ltb_fin _ _ _ _ Hx Hsw) in Hlt. apply Z.ltb_lt in Hlt.
  apply (proj1 (halves_lt _ _)) in Hlt.
  rewrite (ltb_fin _ _ _ _ Hx Hf'). apply Z.ltb_lt. apply (proj2 (halves_lt _ _)). lia.
Qed.

Lemma vote_monotone T chart p pos s w ps qs :
  Z.of_nat (List.length (positions chart)) < 2 ^ 40 ->
  ~ In p (luminaries ++ Py.keys (positions chart)) ->
  Engine.votes T chart ([], []) (Engine.contributors chart) = Ok (ps, qs) ->
  leads ps w ->
  Engine.contributor_sign (add_position chart p pos) p = Ok (Some s) ->
  Engine.pent_id_of (Py.get_default (modal_index T) s []) = Some w ->
  exists ps' qs' sw sw',
    Engine.votes T (add_position chart p pos) ([], [])
      (Engine.contributors (add_position chart p pos)) = Ok (ps', qs') /\
    Py.get ps w = Some sw /\ Py.get ps' w = Some sw' /\
    (sw <? sw')%float = true /\
    Engine.primary ps = w /\ Engine.primary ps' = w.
Proof.
  intros Hlen Hp Hv Hlead Hs Hid.
  pose proof (length_contributors chart) as Hlc.
  set (n := Z.of_nat (List.length (Engine.contributors chart))).
  assert (Hn : 0 <= n < 2 ^ 41).
  { unfold n. change (2 ^ 41) with (2 * 2 ^ 40). change (2 ^ 40) with 1099511627776 in *. lia. }
  destruct (votes_ok T chart (Engine.contributors chart) 0 _ _ Hv ltac:(lia))
    as [Hps Hqs]; cbn [fst snd]; try apply scores_ok_nil.
  { fold n. change (2 ^ 53) with (4096 * 2 ^ 41). lia. }
  rewrite Z.add_0_l in Hps, Hqs. fold n in Hps, Hqs. cbn [fst snd] in Hps, Hqs.
  destruct (leads_after_vote n ps w Hps ltac:(lia)) as (sw & sw' & Hg & Hg' & Hlt & Hok' & Hlead');
    [change (2 ^ 53) with (4096 * 2 ^ 41); lia|exact Hlead|].
  rewrite contributors_add by exact Hp.
  rewrite votes_app.
  rewrite votes_add by (intros q Hq; unfold Engine.contributors in Hq;
                        apply (proj1 (in_fromkeys _ _)) in Hq; exact Hq).
  rewrite Hv. cbn [bind Engine.votes]. unfold Engine.vote. rewrite Hs. cbn [bind fst snd].
  rewrite Hid.
  rewrite planet_weight_default by (intros H; apply Hp; apply in_app_iff; left; exact H).
  eexists _, _, sw, sw'. split; [reflexivity|].
  split; [exact Hg|]. split; [exact Hg'|]. split; [exact Hlt|]. split.
  - eapply primary_leads; eauto.
  - eapply primary_leads; eauto.
Qed.

(** * The claims *)

Local Open Scope string_scope.

(** ** C1: the tension formula *)





(** Off it they differ: [int] truncates. *)
Lemma floor_is_not_int :
  Py.int_of_float (-0.5)%float = Ok 0 /\ Spec.floor (-0.5)%float = Ok (-1).
Proof. split; vm_compute; reflexivity. Qed.



(** ** C2: the range of the tension index *)

(** Two oppositions whose deviation is about [-1.7e308]: each adds about
    [5.1e307] to the total, and [total / 40.0 * 100] leaves the binary64
    range, so that [int] raises. *)
Lemma C2_counterexample :
  Engine.tension_of_aspects Scenario.two_wide_oppositions = Raise OverflowError.
Proof. vm_compute. reflexivity. Qed.

(** C2, amended: on every aspect list the tension scorer either returns an
    integer between 0 and 100 or raises [OverflowError], the total having
    left the binary64 range; on the empty list it returns 0; and it returns,
    between 0 and 100, whenever no deviation is negative and the list has at
    most [2 ^ 43] records. *)
Theorem C2_tension_range :
  (forall l, Engine.tension_of_aspects l = Raise OverflowError \/
             exists k, Engine.tension_of_aspects l = Ok k /\ 0 <= k <= 100) /\
  Engine.tension_of_aspects [] = Ok 0 /\
  (forall l, orbs_nonneg l -> Z.of_nat (List.length l) <= 2 ^ 43 ->
             exists k, Engine.tension_of_aspects l = Ok k /\ 0 <= k <= 100).
Proof.
  split; [exact tension_range|]. split; [vm_compute; reflexivity|].
  intros l Ho Hlen. destruct (tension_returns l Ho Hlen) as (k & Hk & Hr & _). eauto.
Qed.

Lemma C2_witness :
  exists k, Engine.tension_of_aspects [Scenario.an_aspect "Square" 2.5%float] = Ok k /\
            0 <= k <= 100.
Proof.
  apply (proj2 (proj2 C2_tension_range)).
  - intros a [<-|[]]. reflexivity.
  - cbn. lia.
Defined.

(** ** C3: the tempo *)

Lemma tempo_ok_all : forallb tempo_ok (map Z.of_nat (seq 0 101)) = true.
Proof. vm_compute. reflexivity. Qed.

Lemma tempo_of_exact (t : Z) :
  0 <= t <= 100 -> Engine.tempo_of t = Ok (60 + t * 80 / 100).
Proof.
  intros Ht.
  pose proof tempo_ok_all as H.
  rewrite forallb_forall in H.
  specialize (H t).
  assert (Hin : In t (map Z.of_nat (seq 0 101))).
  { apply in_map_iff. exists (Z.to_nat t). split; [lia|].
    apply in_seq. lia. }
  specialize (H Hin). unfold tempo_ok in H.
  destruct (Engine.tempo_of t) as [bpm|e]; [|discriminate].
  apply Z.eqb_eq in H. now subst.
Qed.

(** C3: for a tension index [t] between 0 and 100, whatever the dominant
    element and the tables, the payload is built and its tempo is
    [60 + floor(t / 100 * 80)], the binary64 computation agreeing with the
    exact quotient; the tempo lies between 60 and 140 and does not decrease
    when the tension grows. *)
Theorem C3_tempo_formula_bounds_monotone :
  forall (T : Tables) (element : string) (t : Z),
    0 <= t <= 100 ->
    exists payload,
      Engine._build_sonic_payload T element t = Ok payload /\
      recommended_tempo_bpm payload = 60 + t * 80 / 100 /\
      60 <= recommended_tempo_bpm payload <= 140 /\
      forall (element' : string) (t' : Z) payload',
        t <= t' <= 100 ->
        Engine._build_sonic_payload T element' t' = Ok payload' ->
        recommended_tempo_bpm payload <= recommended_tempo_bpm payload'.
Proof.
  intros T element t Ht.
  unfold Engine._build_sonic_payload.
  rewrite (tempo_of_exact t Ht). cbn [bind].
  eexists. split; [reflexivity|]. cbn [recommended_tempo_bpm].
  split; [reflexivity|]. split.
  - assert (0 <= t * 80 / 100 <= 80); [|lia].
    split; [apply Z.div_pos; lia|].
    apply Z.div_le_upper_bound; lia.
  - intros element' t' payload' Ht' H.
    rewrite (tempo_of_exact t') in H by lia. cbn [bind] in H.
    assert (E : recommended_tempo_bpm payload' = 60 + t' * 80 / 100)
      by (injection H as <-; reflexivity).
    rewrite E.
    assert (t * 80 / 100 <= t' * 80 / 100); [|lia].
    apply Z.div_le_mono; lia.
Qed.

Lemma C3_witness :
  exists payload,
    Engine._build_sonic_payload Scenario.tables "Fire" 37 = Ok payload /\
    recommended_tempo_bpm payload = 89.
Proof.
  destruct (C3_tempo_formula_bounds_monotone Scenario.tables "Fire" 37)
    as (payload & H1 & H2 & _); [lia|].
  exists payload. split; [exact H1|]. rewrite H2. reflexivity.
Defined.

(** ** C4: the votes of the scenario *)

(** C4: for the chart with Sun in Leo, Moon in Gemini, Leo rising in
    Aquarius and no position, against any table whose rows give Leo the
    pentatonic mode PENT-LEO-1, Gemini PENT-GEM-1 and Aquarius PENT-AQU-1,
    the pentatonic scores are PENT-LEO-1 = 3.0, PENT-GEM-1 = 2.5 and
    PENT-AQU-1 = 2.0, and the primary pentatonic mode is PENT-LEO-1. *)
Theorem C4_scenario_votes :
  forall T : Tables,
    Engine.pent_id_of (Py.get_default (modal_index T) "Leo" []) = Some "PENT-LEO-1" ->
    Engine.pent_id_of (Py.get_default (modal_index T) "Gemini" []) = Some "PENT-GEM-1" ->
    Engine.pent_id_of (Py.get_default (modal_index T) "Aquarius" []) = Some "PENT-AQU-1" ->
    exists quad_scores primary_quad,
      Engine.votes T Scenario.chart ([], []) (Engine.contributors Scenario.chart)
      = Ok ([("PENT-LEO-1", 3.0%float); ("PENT-GEM-1", 2.5%float);
             ("PENT-AQU-1", 2.0%float)], quad_scores) /\
      Engine._aggregate_canonical_modes T Scenario.chart
      = Ok ("PENT-LEO-1", primary_quad).
Proof.
  intros T HL HG HA.
  assert (Hc : Engine.contributors Scenario.chart = ["Sun"; "Moon"; "Rising"])
    by reflexivity.
  unfold Engine._aggregate_canonical_modes. rewrite Hc.
  cbn [Engine.votes]. unfold Engine.vote.
  change (Engine.contributor_sign Scenario.chart "Sun")
    with (Ok (A:=option string) (Some "Leo")).
  change (Engine.contributor_sign Scenario.chart "Moon")
    with (Ok (A:=option string) (Some "Gemini")).
  change (Engine.contributor_sign Scenario.chart "Rising")
    with (Ok (A:=option string) (Some "Aquarius")).
  cbn [bind fst snd]. rewrite HL, HG, HA.
  eexists _, _. split; reflexivity.
Qed.

Lemma C4_witness :
  exists quad_scores primary_quad,
    Engine.votes Scenario.tables Scenario.chart ([], [])
      (Engine.contributors Scenario.chart)
    = Ok ([("PENT-LEO-1", 3.0%float); ("PENT-GEM-1", 2.5%float);
           ("PENT-AQU-1", 2.0%float)], quad_scores) /\
    Engine._aggregate_canonical_modes Scenario.tables Scenario.chart
    = Ok ("PENT-LEO-1", primary_quad).
Proof. apply (C4_scenario_votes Scenario.tables); reflexivity. Defined.

(** ** C5: the sentinel *)

Lemma scenario_well_formed : well_formed Scenario.chart.
Proof. intros k p []. Qed.

(** C5: for every chart of the data model (its longitudes in [[0, 360)]),
    if the modal family table is empty, or if no contributor's sign has a
    row in it, the aggregator returns the pair ("UNKNOWN", "UNKNOWN"). *)
Theorem C5_unknown_sentinel :
  forall (T : Tables) (chart : Chart),
    well_formed chart ->
    modal_index T = [] \/
    (forall p, In p (Engine.contributors chart) -> casts_no_vote T chart p) ->
    Engine._aggregate_canonical_modes T chart = Ok ("UNKNOWN", "UNKNOWN").
Proof.
  intros T chart Hwf [HT|H]; apply aggregate_unknown.
  - intros p _. apply empty_table_no_vote; assumption.
  - exact H.
Qed.

Lemma C5_witness :
  Engine._aggregate_canonical_modes Scenario.empty_tables Scenario.chart
  = Ok ("UNKNOWN", "UNKNOWN").
Proof.
  apply C5_unknown_sentinel; [exact scenario_well_formed|left; reflexivity].
Defined.

(** ** C6: missing rows and missing positions *)

(** C6: a contributor other than Sun, Moon and Rising whose position is
    missing, and a contributor whose sign has no row in the table, leave
    both score dictionaries as they were, without an error, and the loop
    goes on with the remaining contributors; on a chart of the data model
    the aggregator returns, whatever the table. *)
Theorem C6_missing_rows_and_positions :
  forall (T : Tables) (chart : Chart) (p : string),
    (~ In p luminaries /\
     (Py.get (positions chart) p = None \/ Py.get (positions chart) p = Some PosNone)) \/
    (exists s, Engine.contributor_sign chart p = Ok (Some s) /\
               Py.get (modal_index T) s = None) ->
    (forall st, Engine.vote T chart st p = Ok st) /\
    (forall st rest, Engine.votes T chart st (p :: rest) = Engine.votes T chart st rest) /\
    (well_formed chart ->
     exists modes, Engine._aggregate_canonical_modes T chart = Ok modes).
Proof.
  intros T chart p H.
  assert (Hv : forall st, Engine.vote T chart st p = Ok st).
  { intros st. apply vote_none. destruct H as [[Hp Hg]|H].
    - left. apply contributor_sign_missing; assumption.
    - right. exact H. }
  split; [exact Hv|]. split.
  - intros st rest. cbn [Engine.votes]. rewrite Hv. reflexivity.
  - intros Hwf. unfold Engine._aggregate_canonical_modes.
    destruct (votes_total T chart (Engine.contributors chart) ([], []) Hwf) as (st & ->).
    cbn [bind]. eauto.
Qed.

Lemma C6_witness :
  Engine.vote Scenario.tables Scenario.chart_with_gap
    ([("PENT-LEO-1", 3.0%float)], []) "Mars"
  = Ok ([("PENT-LEO-1", 3.0%float)], []) /\
  Engine._aggregate_canonical_modes Scenario.tables Scenario.chart_with_gap
  = Ok ("PENT-LEO-1", "QUAD-LEO-1").
Proof.
  split.
  - apply (C6_missing_rows_and_positions Scenario.tables Scenario.chart_with_gap "Mars").
    left. split; [|right; reflexivity].
    intros [H|[H|[H|[]]]]; discriminate.
  - vm_compute. reflexivity.
Defined.

(** ** C7: the sign of a longitude *)

Lemma fin_eqb_refl x v : fin x v -> (x =? x)%float = true.
Proof.
  intros H. apply fin_canonical in H. destruct H as (m & e & Hx & _ & Hc & _).
  rewrite eqb_spec, Hx. unfold SFeqb. rewrite SFcompare_pos by assumption.
  rewrite Z.compare_refl. reflexivity.
Qed.

Lemma float_rem_in_range lon :
  (0.0 <=? lon)%float = true -> (lon <? 360.0)%float = true ->
  (Py.float_rem lon 360.0 =? lon)%float = true.
Proof.
  intros H0 H360. destruct (leb_zero_cases lon H0) as [(s & Hs)|[(v & Hv)|Hinf]].
  - destruct (zero_float s lon Hs) as [-> | ->]; vm_compute; reflexivity.
  - rewrite (ltb_fin _ _ _ _ Hv fin_360) in H360. apply Z.ltb_lt in H360.
    rewrite (float_rem_small lon v Hv H360). apply (fin_eqb_refl lon v Hv).
  - rewrite ltb_spec, Hinf in H360. discriminate.
Qed.

(** C7: for every longitude [lon] with [0 <= lon < 360], [lon % 360] is
    [lon], and the sign inferred is [signs[k]] for the segment [k] of
    [lon], [30 k <= lon < 30 (k + 1)], that is [k = floor(lon / 30)]: [k]
    is below 12, the indexing raises nothing, the result is one of the
    twelve labels, and it is Aries on [[0, 30)]. *)
Theorem C7_sign_of_longitude :
  forall lon : float,
    (0.0 <=? lon)%float = true -> (lon <? 360.0)%float = true ->
    (Py.float_rem lon 360.0 =? lon)%float = true /\
    exists k, (k < 12)%nat /\ in_segment lon k = true /\
      Engine._infer_sign_from_lon lon = Ok (nth k Engine.signs EmptyString) /\
      In (nth k Engine.signs EmptyString) Engine.signs /\
      (k = 0%nat -> Engine._infer_sign_from_lon lon = Ok "Aries").
Proof.
  intros lon H0 H360. split; [apply float_rem_in_range; assumption|].
  destruct (infer_sign_in_range lon H0 H360) as (k & Hk & Hseg & Hres).
  exists k. split; [exact Hk|]. split; [exact Hseg|]. split; [exact Hres|]. split.
  - apply nth_In. exact Hk.
  - intros ->. exact Hres.
Qed.

Lemma C7_witness :
  (Py.float_rem 123.5 360.0 =? 123.5)%float = true /\
  exists k, (k < 12)%nat /\ in_segment 123.5%float k = true /\
    Engine._infer_sign_from_lon 123.5%float = Ok (nth k Engine.signs EmptyString) /\
    In (nth k Engine.signs EmptyString) Engine.signs /\
    (k = 0%nat -> Engine._infer_sign_from_lon 123.5%float = Ok "Aries").
Proof. apply C7_sign_of_longitude; reflexivity. Defined.

(** ** C8: vote monotonicity *)

(** C8: when the pentatonic mode [w] leads, its score strictly greater than
    every other, a further position whose sign resolves to [w] strictly
    increases the score of [w], and [w] is the primary pentatonic mode
    before and after.  The chart has fewer than [2 ^ 40] positions, so that
    the binary64 sums of weights are exact. *)
Theorem C8_vote_monotonicity :
  forall (T : Tables) (chart : Chart) (p : string) (pos : position_value)
         (s w : string) (pent_scores quad_scores : Py.dict float),
    Z.of_nat (List.length (positions chart)) < 2 ^ 40 ->
    ~ In p (luminaries ++ Py.keys (positions chart)) ->
    Engine.votes T chart ([], []) (Engine.contributors chart)
      = Ok (pent_scores, quad_scores) ->
    leads pent_scores w ->
    Engine.contributor_sign (add_position chart p pos) p = Ok (Some s) ->
    Engine.pent_id_of (Py.get_default (modal_index T) s []) = Some w ->
    exists pent_scores' quad_scores' before after,
      Engine.votes T (add_position chart p pos) ([], [])
        (Engine.contributors (add_position chart p pos))
        = Ok (pent_scores', quad_scores') /\
      Py.get pent_scores w = Some before /\
      Py.get pent_scores' w = Some after /\
      (before <? after)%float = true /\
      Engine._aggregate_canonical_modes T chart
        = Ok (w, Engine.primary quad_scores) /\
      Engine._aggregate_canonical_modes T (add_position chart p pos)
        = Ok (w, Engine.primary quad_scores').
Proof.
  intros T chart p pos s w ps qs Hlen Hp Hv Hlead Hs Hid.
  destruct (vote_monotone T chart p pos s w ps qs Hlen Hp Hv Hlead Hs Hid)
    as (ps' & qs' & sw & sw' & Hv' & Hg & Hg' & Hlt & Hw & Hw').
  exists ps', qs', sw, sw'. repeat (split; [assumption|]).
  unfold Engine._aggregate_canonical_modes. rewrite Hv, Hv'. cbn [bind fst snd].
  rewrite Hw, Hw'. split; reflexivity.
Qed.

Lemma C8_witness :
  exists pent_scores' quad_scores' before after,
    Engine.votes Scenario.tables (add_position Scenario.chart "Mars" Scenario.mars)
      ([], [])
      (Engine.contributors (add_position Scenario.chart "Mars" Scenario.mars))
      = Ok (pent_scores', quad_scores') /\
    Py.get [("PENT-LEO-1", 3.0%float); ("PENT-GEM-1", 2.5%float);
            ("PENT-AQU-1", 2.0%float)] "PENT-LEO-1" = Some before /\
    Py.get pent_scores' "PENT-LEO-1" = Some after /\
    (before <? after)%float = true /\
    Engine._aggregate_canonical_modes Scenario.tables Scenario.chart
      = Ok ("PENT-LEO-1",
            Engine.primary [("QUAD-LEO-1", 3.0%float); ("QUAD-GEM-1", 2.5%float);
                            ("QUAD-AQU-1", 2.0%float)]) /\
    Engine._aggregate_canonical_modes Scenario.tables
      (add_position Scenario.chart "Mars" Scenario.mars)
      = Ok ("PENT-LEO-1", Engine.primary quad_scores').
Proof.
  apply (C8_vote_monotonicity Scenario.tables Scenario.chart "Mars" Scenario.mars "Leo").
  - cbn. lia.
  - cbn. intros [H|[H|[H|[]]]]; discriminate.
  - vm_compute. reflexivity.
  - exists 3.0%float. split; [reflexivity|].
    intros k x [[= <- <-]|[[= <- <-]|[[= <- <-]|[]]]] Hk;
      [congruence|reflexivity|reflexivity].
  - vm_compute. reflexivity.
  - reflexivity.
Defined.

(** ** C9: the scenario, end to end *)

(** C9: for the chart with Sun in Leo, Moon in Gemini, Aquarius rising, no
    position and no aspect, whatever the tables: the tension index is 0,
    the element tally is Fire 1, Air 2, the dominant element is Air, and
    the engine returns a result with that index and element, the waveform
    "triangle" and a tempo of 60. *)
Theorem C9_scenario_result :
  forall T : Tables,
    Engine._compute_harmonic_tension Scenario.chart = Ok 0 /\
    Engine.element_tally Scenario.chart = Ok [("Fire", 1); ("Air", 2)] /\
    Engine._determine_dominant_element Scenario.chart = Ok "Air" /\
    exists result,
      Engine.run_harmonic_engine T Scenario.chart = Ok result /\
      harmonic_tension_index result = 0 /\
      dominant_element result = "Air" /\
      waveform (sonic_payload result) = "triangle" /\
      recommended_tempo_bpm (sonic_payload result) = 60.
Proof.
  intros T.
  assert (Ht : Engine._compute_harmonic_tension Scenario.chart = Ok 0)
    by (vm_compute; reflexivity).
  assert (He : Engine._determine_dominant_element Scenario.chart = Ok "Air")
    by (vm_compute; reflexivity).
  split; [exact Ht|]. split; [vm_compute; reflexivity|]. split; [exact He|].
  unfold Engine.run_harmonic_engine, Engine._aggregate_canonical_modes.
  destruct (votes_total T Scenario.chart (Engine.contributors Scenario.chart) ([], [])
              scenario_well_formed) as (st & ->).
  cbn [bind]. rewrite Ht, He. cbn [bind].
  unfold Engine._build_sonic_payload.
  change (Engine.tempo_of 0) with (Ok 60). cbn [bind].
  eexists. split; [reflexivity|]. cbn. repeat split; reflexivity.
Qed.

(** ** C10: a non-empty aspect list *)

(** The two oppositions of C2 again: the list is not empty and the scorer
    returns nothing. *)
Lemma C10_counterexample :
  Scenario.two_wide_oppositions <> [] /\
  Engine.tension_of_aspects Scenario.two_wide_oppositions = Raise OverflowError.
Proof. split; [discriminate|vm_compute; reflexivity]. Qed.

(** C10, amended: on every non-empty aspect list the tension scorer returns
    at least 2, unless it raises [OverflowError], the total having left the
    binary64 range; it does return, at least 2, when no deviation is
    negative and the list has at most [2 ^ 43] records; and it returns 0 if
    and only if the list is empty. *)
Theorem C10_tension_of_nonempty :
  (forall l, l <> [] ->
     Engine.tension_of_aspects l = Raise OverflowError \/
     exists k, Engine.tension_of_aspects l = Ok k /\ 2 <= k) /\
  (forall l, l <> [] -> orbs_nonneg l -> Z.of_nat (List.length l) <= 2 ^ 43 ->
     exists k, Engine.tension_of_aspects l = Ok k /\ 2 <= k) /\
  (forall l, Engine.tension_of_aspects l = Ok 0 <-> l = []).
Proof.
  split; [|split].
  - intros l Hl. destruct (tension_nonempty l Hl) as [H|(k & H & Hk)]; [left; exact H|].
    right. exists k. split; [exact H|lia].
  - intros l Hl Ho Hlen. destruct (tension_returns l Ho Hlen) as (k & Hk & _ & H2).
    exists k. split; [exact Hk|exact (H2 Hl)].
  - intros l. split.
    + intros H. destruct l as [|a l]; [reflexivity|]. exfalso.
      destruct (tension_nonempty (a :: l) ltac:(discriminate)) as [E|(k & E & Hk)];
        rewrite H in E; [discriminate|]. injection E as <-. lia.
    + intros ->. vm_compute. reflexivity.
Qed.

Lemma C10_witness :
  exists k, Engine.tension_of_aspects [Scenario.an_aspect "Quincunx" 25.0%float] = Ok k /\
            2 <= k.
Proof.
  apply (proj1 (proj2 C10_tension_of_nonempty)).
  - discriminate.
  - intros a [<-|[]]. reflexivity.
  - cbn. lia.
Defined.

(** * Further properties *)

Local Open Scope Z_scope.

(** ** Indexing *)

Lemma index_in {A} (l : list A) i a : Py.index l i = Ok a -> In a l.
Proof.
  unfold Py.index. cbn zeta.
  destruct (_ && _); [|discriminate].
  destruct (nth_error l _) eqn:E; [|discriminate].
  intros [= <-]. eapply nth_error_In, E.
Qed.

Lemma index_range {A} (l : list A) i a :
  Py.index l i = Ok a -> - Z.of_nat (List.length l) <= i < Z.of_nat (List.length l).
Proof.
  unfold Py.index. cbn zeta.
  destruct (i <? 0) eqn:Hi; destruct (_ && _) eqn:Hb; try discriminate;
    intros _; apply andb_prop in Hb; destruct Hb as [H1 H2];
    apply Z.leb_le in H1; apply Z.ltb_lt in H2;
    [apply Z.ltb_lt in Hi|apply Z.ltb_ge in Hi]; lia.
Qed.

(** An index in range is the index modulo the length: negative indices
    count from the end. *)
Lemma index_mod {A} (l : list A) i a :
  Py.index l i = Ok a -> Py.index l (i mod Z.of_nat (List.length l)) = Ok a.
Proof.
  intros H. pose proof (index_range l i a H) as Hr. revert H.
  unfold Py.index. cbn zeta.
  set (n := Z.of_nat (List.length l)) in *.
  assert (Hn : 0 < n) by lia.
  pose proof (Z.mod_pos_bound i n Hn) as Hm.
  destruct (i mod n <? 0) eqn:Hlt; [apply Z.ltb_lt in Hlt; lia|].
  destruct (i <? 0) eqn:Hi.
  - apply Z.ltb_lt in Hi.
    replace (i mod n) with (i + n); [tauto|].
    apply (Z.mod_unique i n (-1) (i + n)); lia.
  - apply Z.ltb_ge in Hi. rewrite Z.mod_small by lia. tauto.
Qed.

Lemma index_outside {A} (l : list A) i :
  i < - Z.of_nat (List.length l) \/ Z.of_nat (List.length l) <= i ->
  Py.index l i = Raise IndexError.
Proof.
  intros H. unfold Py.index. cbn zeta.
  set (n := Z.of_nat (List.length l)) in *.
  destruct (i <? 0) eqn:Hi; [apply Z.ltb_lt in Hi|apply Z.ltb_ge in Hi].
  - replace (0 <=? i + n) with false by (symmetry; apply Z.leb_gt; lia).
    reflexivity.
  - replace (i <? n) with false by (symmetry; apply Z.ltb_ge; lia).
    rewrite andb_false_r. reflexivity.
Qed.

Lemma index_inside {A} (l : list A) i :
  0 <= i < Z.of_nat (List.length l) -> exists a, Py.index l i = Ok a /\ In a l.
Proof.
  intros H. unfold Py.index. cbn zeta.
  replace (i <? 0) with false by (symmetry; apply Z.ltb_ge; lia).
  replace (0 <=? i) with true by (symmetry; apply Z.leb_le; lia).
  replace (i <? Z.of_nat (List.length l)) with true
    by (symmetry; apply Z.ltb_lt; lia).
  cbn [andb].
  destruct (nth_error l (Z.to_nat i)) eqn:E.
  - exists a. split; [reflexivity|]. eapply nth_error_In, E.
  - apply nth_error_None in E. lia.
Qed.

(** X14: Whenever the engine's _infer_sign_from_lon returns a sign for a
    longitude, zodiac_sign_from_longitude returns the same sign. *)
Theorem zodiac_sign_agrees_with_engine :
  forall (lon : float) (s : string),
    Engine._infer_sign_from_lon lon = Ok s ->
    Calculator.zodiac_sign_from_longitude lon = Ok s.
Proof.
  intros lon s. unfold Engine._infer_sign_from_lon,
    Calculator.zodiac_sign_from_longitude, Calculator.normalize_angle.
  cbn zeta.
  destruct (Py.int_of_float _) as [i|e]; cbn [bind]; [|discriminate].
  intros H. apply index_mod in H. exact H.
Qed.

Lemma zodiac_sign_agrees_witness :
  Calculator.zodiac_sign_from_longitude 200.25%float = Ok "Libra".
Proof.
  apply zodiac_sign_agrees_with_engine. vm_compute. reflexivity.
Defined.

(** ** The aspect finder *)

Lemma abs_leb_nonneg x c :
  (abs x <=? c)%float = true -> (0.0 <=? abs x)%float = true.
Proof.
  rewrite !leb_spec, abs_spec.
  change (Prim2SF 0.0) with (S754_zero false).
  destruct (Prim2SF x) as [s|s| |s m e]; cbn; try reflexivity.
  discriminate.
Qed.

Lemma first_aspect_within a b diff kinds r :
  AspectFinder.first_aspect a b diff kinds = Some r ->
  planet_a r = a /\ planet_b r = b /\ difference r = diff /\
  exists kind exact limit o,
    In (kind, exact, limit) kinds /\
    aspect r = Some kind /\ angle r = exact /\ orb r = Some o /\
    o = abs (diff - exact)%float /\
    (0.0 <=? o)%float = true /\ (o <=? limit)%float = true.
Proof.
  induction kinds as [|[[kind exact] limit] kinds IH]; cbn [AspectFinder.first_aspect];
    [discriminate|].
  destruct (abs (diff - exact) <=? limit)%float eqn:E.
  - intros [= <-]. cbn. repeat (split; [reflexivity|]).
    exists kind, exact, limit, (abs (diff - exact))%float.
    split; [left; reflexivity|]. repeat (split; [reflexivity|]).
    split; [eapply abs_leb_nonneg, E|exact E].
  - intros H. destruct (IH H) as (Ha & Hb & Hd & kind' & exact' & limit' & o & Hin & Hr).
    repeat (split; [assumption|]).
    exists kind', exact', limit', o. split; [right; exact Hin|exact Hr].
Qed.

Lemma first_aspect_within_orb a b diff r :
  AspectFinder.first_aspect a b diff AspectFinder.ASPECTS = Some r ->
  within_orb r /\ planet_a r = a /\ planet_b r = b.
Proof.
  intros H. apply first_aspect_within in H.
  destruct H as (Ha & Hb & Hd & kind & exact & limit & o & Hin & Hk & He & Ho & Hv & H0 & Hl).
  split; [|split; assumption].
  exists kind, exact, limit, o. rewrite Hd. repeat (split; [assumption|]). assumption.
Qed.

(** What the loops keep: every record is within orb, and joins a name to
    a later one. *)
Section Loops.
Variable positions : Py.dict (Py.dict float).
Variable P : Aspect -> Prop.

Lemma pairs_with_forall a later : forall results out,
  (forall b r diff, In b later ->
     AspectFinder.first_aspect a b diff AspectFinder.ASPECTS = Some r -> P r) ->
  Forall P results ->
  AspectFinder.pairs_with positions a later results = Found out ->
  Forall P out.
Proof.
  induction later as [|b later IH]; intros results out HP Hres;
    cbn [AspectFinder.pairs_with].
  - intros [= <-]. exact Hres.
  - destruct (AspectFinder.lon_of positions a) as [lon_a|]; cbn [bind_found]; [|discriminate].
    destruct (AspectFinder.lon_of positions b) as [lon_b|]; cbn [bind_found]; [|discriminate].
    cbn zeta. apply IH.
    + intros b' r diff Hb'. apply HP. right; exact Hb'.
    + destruct (AspectFinder.first_aspect a b _ _) as [r|] eqn:E; [|exact Hres].
      apply Forall_app. split; [exact Hres|]. constructor; [|constructor].
      eapply HP; [left; reflexivity|exact E].
Qed.

End Loops.

Lemma pairs_forall positions (P : Aspect -> Prop) names : forall results out,
  (forall a b r diff l1 l2 l3, names = (l1 ++ a :: l2 ++ b :: l3)%list ->
     AspectFinder.first_aspect a b diff AspectFinder.ASPECTS = Some r -> P r) ->
  Forall P results ->
  AspectFinder.pairs positions names results = Found out ->
  Forall P out.
Proof.
  induction names as [|a names IH]; intros results out HP Hres;
    cbn [AspectFinder.pairs].
  - intros [= <-]. exact Hres.
  - destruct (AspectFinder.pairs_with positions a names results) as [mid|] eqn:E;
      cbn [bind_found]; [|discriminate].
    apply IH.
    + intros a' b r diff l1 l2 l3 ->. apply (HP a' b r diff (a :: l1) l2 l3). reflexivity.
    + eapply pairs_with_forall; [| exact Hres | exact E].
      intros b r diff Hb. apply in_split in Hb. destruct Hb as (l2 & l3 & ->).
      apply (HP a b r diff [] l2 l3). reflexivity.
Qed.

Lemma find_aspects_forall positions (P : Aspect -> Prop) out :
  (forall a b r diff, precedes (Py.keys positions) a b ->
     AspectFinder.first_aspect a b diff AspectFinder.ASPECTS = Some r -> P r) ->
  AspectFinder.find_aspects positions = Found out ->
  Forall P out.
Proof.
  intros HP. unfold AspectFinder.find_aspects.
  apply (pairs_forall positions P (Py.keys positions) [] out); [|constructor].
  intros a b r diff l1 l2 l3 E. apply HP. exists l1, l2, l3. exact E.
Qed.

(** X17: Every record find_aspects returns has one of the five kinds with
    that kind's exact angle, an orb equal to |difference - angle| that lies
    between 0 and the kind's limit, and joins a planet to one that comes
    later in the key order, whatever the longitudes are. *)
Theorem find_aspects_within_orb :
  forall (positions : Py.dict (Py.dict float)) (out : list Aspect),
    AspectFinder.find_aspects positions = Found out ->
    Forall (fun r => within_orb r /\
                     precedes (Py.keys positions) (planet_a r) (planet_b r))
           out.
Proof.
  intros positions out. apply find_aspects_forall.
  intros a b r diff Hp E. apply first_aspect_within_orb in E.
  destruct E as (Hw & -> & ->). split; assumption.
Qed.

(** ** How many aspects *)

Lemma pairs_with_length positions a later : forall results out,
  AspectFinder.pairs_with positions a later results = Found out ->
  (List.length out <= List.length results + List.length later)%nat.
Proof.
  induction later as [|b later IH]; intros results out; cbn [AspectFinder.pairs_with].
  - intros [= <-]. lia.
  - destruct (AspectFinder.lon_of positions a) as [lon_a|]; cbn [bind_found]; [|discriminate].
    destruct (AspectFinder.lon_of positions b) as [lon_b|]; cbn [bind_found]; [|discriminate].
    cbn zeta. intros H. apply IH in H.
    destruct (AspectFinder.first_aspect a b _ _); [rewrite length_app in H|];
      cbn [List.length] in *; lia.
Qed.

Lemma pairs_length positions names : forall results out,
  AspectFinder.pairs positions names results = Found out ->
  2 * Z.of_nat (List.length out)
  <= 2 * Z.of_nat (List.length results)
     + Z.of_nat (List.length names) * (Z.of_nat (List.length names) - 1).
Proof.
  induction names as [|a names IH]; intros results out; cbn [AspectFinder.pairs].
  - intros [= <-]. cbn. lia.
  - destruct (AspectFinder.pairs_with positions a names results) as [mid|] eqn:E;
      cbn [bind_found]; [|discriminate].
    intros H. apply IH in H. apply pairs_with_length in E.
    cbn [List.length]. nia.
Qed.

Lemma find_aspects_length positions out :
  AspectFinder.find_aspects positions = Found out ->
  2 * Z.of_nat (List.length out)
  <= Z.of_nat (List.length positions) * (Z.of_nat (List.length positions) - 1).
Proof.
  intros H. apply pairs_length in H. unfold Py.keys in H.
  rewrite length_map in H. cbn [List.length] in H. lia.
Qed.

(** ** When the finder returns *)

Lemma lon_of_key positions a :
  In a (Py.keys positions) ->
  readable positions a \/ AspectFinder.lon_of positions a = KeyError "lon".
Proof.
  intros Hin. unfold readable, AspectFinder.lon_of, item.
  destruct (Py.get positions a) as [v|] eqn:E.
  - cbn [bind_found]. destruct (Py.get v "lon") as [x|]; [left; eauto|right; reflexivity].
  - apply get_none_keys in E. contradiction.
Qed.

Lemma pairs_with_total positions a later : forall results,
  readable positions a -> (forall b, In b later -> readable positions b) ->
  exists out, AspectFinder.pairs_with positions a later results = Found out.
Proof.
  induction later as [|b later IH]; intros results Ha Hl; cbn [AspectFinder.pairs_with].
  - eauto.
  - destruct Ha as (x & Hx). destruct (Hl b (or_introl eq_refl)) as (y & Hy).
    rewrite Hx, Hy. cbn [bind_found]. cbn zeta. apply IH; [exists x; exact Hx|].
    intros b' Hb'. apply Hl. right; exact Hb'.
Qed.

Lemma pairs_total positions names : forall results,
  (forall a, In a names -> readable positions a) ->
  exists out, AspectFinder.pairs positions names results = Found out.
Proof.
  induction names as [|a names IH]; intros results Hn; cbn [AspectFinder.pairs].
  - eauto.
  - destruct (pairs_with_total positions a names results) as (mid & ->).
    + apply Hn. left; reflexivity.
    + intros b Hb. apply Hn. right; exact Hb.
    + cbn [bind_found]. apply IH. intros a' Ha'. apply Hn. right; exact Ha'.
Qed.

Lemma pairs_with_key_error positions a later : forall results k,
  In a (Py.keys positions) -> (forall b, In b later -> In b (Py.keys positions)) ->
  AspectFinder.pairs_with positions a later results = KeyError k -> k = "lon".
Proof.
  induction later as [|b later IH]; intros results k Ha Hl; cbn [AspectFinder.pairs_with].
  - discriminate.
  - destruct (lon_of_key positions a Ha) as [(x & ->)| ->]; cbn [bind_found];
      [|intros [= <-]; reflexivity].
    destruct (lon_of_key positions b (Hl b (or_introl eq_refl))) as [(y & ->)| ->];
      cbn [bind_found]; [|intros [= <-]; reflexivity].
    cbn zeta. apply IH; [exact Ha|]. intros b' Hb'. apply Hl. right; exact Hb'.
Qed.

Lemma pairs_key_error positions names : forall results k,
  (forall a, In a names -> In a (Py.keys positions)) ->
  AspectFinder.pairs positions names results = KeyError k -> k = "lon".
Proof.
  induction names as [|a names IH]; intros results k Hn; cbn [AspectFinder.pairs].
  - discriminate.
  - destruct (AspectFinder.pairs_with positions a names results) as [mid|k'] eqn:E;
      cbn [bind_found].
    + apply IH. intros a' Ha'. apply Hn. right; exact Ha'.
    + intros [= <-]. eapply pairs_with_key_error; [| |exact E].
      * apply Hn. left; reflexivity.
      * intros b Hb. apply Hn. right; exact Hb.
Qed.

Lemma pairs_with_found positions a later : forall results out,
  AspectFinder.pairs_with positions a later results = Found out ->
  later = [] \/ (readable positions a /\ forall b, In b later -> readable positions b).
Proof.
  induction later as [|b later IH]; intros results out; cbn [AspectFinder.pairs_with].
  - left; reflexivity.
  - destruct (AspectFinder.lon_of positions a) as [lon_a|] eqn:Ea; cbn [bind_found];
      [|discriminate].
    destruct (AspectFinder.lon_of positions b) as [lon_b|] eqn:Eb; cbn [bind_found];
      [|discriminate].
    cbn zeta. intros H. right. split; [exists lon_a; exact Ea|].
    intros b' [<-|Hb']; [exists lon_b; exact Eb|].
    apply IH in H. destruct H as [->|[_ H]]; [destruct Hb'|apply H, Hb'].
Qed.

Lemma pairs_found positions names : forall results out,
  AspectFinder.pairs positions names results = Found out ->
  (List.length names < 2)%nat \/ forall a, In a names -> readable positions a.
Proof.
  induction names as [|a names IH]; intros results out; cbn [AspectFinder.pairs].
  - left. cbn. lia.
  - destruct (AspectFinder.pairs_with positions a names results) as [mid|] eqn:E;
      cbn [bind_found]; [|discriminate].
    intros H. apply pairs_with_found in E. destruct E as [->|[Ha Hl]].
    + left. cbn. lia.
    + right. intros a' [<-|Ha']; [exact Ha|apply Hl, Ha'].
Qed.

Lemma readable_has_lon positions k v :
  NoDup (Py.keys positions) -> In (k, v) positions ->
  readable positions k -> has_lon v.
Proof.
  intros Hnd Hin (x & Hx). unfold AspectFinder.lon_of, item in Hx.
  destruct (Py.get positions k) as [v'|] eqn:E; cbn [bind_found] in Hx; [|discriminate].
  apply get_in in E. rewrite (nodup_keys_unique positions k v v' Hnd Hin E).
  unfold has_lon. destruct (Py.get v' "lon"); [discriminate|discriminate].
Qed.

Lemma has_lon_readable positions a :
  (forall k v, In (k, v) positions -> has_lon v) ->
  In a (Py.keys positions) -> readable positions a.
Proof.
  intros H Ha. unfold readable, AspectFinder.lon_of, item.
  destruct (Py.get positions a) as [v|] eqn:E.
  - cbn [bind_found]. apply get_in in E. apply H in E. unfold has_lon in E.
    destruct (Py.get v "lon") as [x|]; [eauto|contradiction].
  - apply get_none_keys in E. contradiction.
Qed.

(** X18: find_aspects returns [] on fewer than two positions, reading no
    longitude; it returns a list when every position holds 'lon'; with two
    or more positions of which one lacks 'lon' it raises KeyError('lon'). *)
Theorem find_aspects_returns :
  forall positions : Py.dict (Py.dict float),
    NoDup (Py.keys positions) ->
    ((List.length positions < 2)%nat ->
     AspectFinder.find_aspects positions = Found []) /\
    ((forall k v, In (k, v) positions -> has_lon v) ->
     exists out, AspectFinder.find_aspects positions = Found out) /\
    ((2 <= List.length positions)%nat ->
     (exists k v, In (k, v) positions /\ ~ has_lon v) ->
     AspectFinder.find_aspects positions = KeyError "lon").
Proof.
  intros positions Hnd. split; [|split].
  - intros Hlen. destruct positions as [|[k v] [|? ?]]; cbn in Hlen; try lia; reflexivity.
  - intros H. apply pairs_total. intros a Ha. apply has_lon_readable; assumption.
  - intros Hlen (k & v & Hin & Hbad).
    destruct (AspectFinder.find_aspects positions) as [out|k'] eqn:E.
    + exfalso. apply pairs_found in E. unfold Py.keys in E. rewrite length_map in E.
      destruct E as [E|E]; [lia|]. apply Hbad.
      apply (readable_has_lon positions k v Hnd Hin). apply E.
      change (In (fst (k, v)) (map fst positions)). apply in_map, Hin.
    + f_equal. eapply pairs_key_error; [|exact E]. intros a Ha. exact Ha.
Qed.

(** ** The tension of the aspects found *)

Lemma within_orb_nonneg r :
  within_orb r -> (0.0 <=? Engine.aspect_orb r)%float = true.
Proof.
  intros (kind & exact & limit & o & _ & _ & _ & Ho & _ & H0 & _).
  unfold Engine.aspect_orb. rewrite Ho. exact H0.
Qed.

(** X19: On the aspects find_aspects returns for up to 2^20 positions,
    _compute_harmonic_tension returns an index in [0, 100], at least 2 when
    an aspect was found: the scorer's OverflowError cannot occur on the
    finder's output. *)
Theorem tension_of_found_aspects :
  forall (positions : Py.dict (Py.dict float)) (out : list Aspect),
    Z.of_nat (List.length positions) <= 2 ^ 20 ->
    AspectFinder.find_aspects positions = Found out ->
    exists k, Engine.tension_of_aspects out = Ok k /\ 0 <= k <= 100 /\
              (out <> [] -> 2 <= k).
Proof.
  intros positions out Hlen H. apply tension_returns.
  - intros a Ha. apply find_aspects_within_orb in H.
    rewrite Forall_forall in H. apply within_orb_nonneg, (H a Ha).
  - apply find_aspects_length in H.
    assert (Z.of_nat (List.length positions) * (Z.of_nat (List.length positions) - 1)
            <= 2 ^ 20 * 2 ^ 20) by nia.
    change (2 ^ 20 * 2 ^ 20) with (2 ^ 40) in *. change (2 ^ 43) with (8 * 2 ^ 40).
    lia.
Qed.

(** ** Counters *)

Lemma keys_set {V} (d : Py.dict V) k v k' :
  In k' (Py.keys (Py.set d k v)) <-> k' = k \/ In k' (Py.keys d).
Proof.
  destruct (in_dec string_dec k (Py.keys d)) as [Hin|Hout].
  - rewrite (keys_set_in d k v Hin). split; [tauto|]. intros [->|H]; assumption.
  - rewrite (keys_set_new d k v Hout), in_app_iff. cbn. split; intros [H|H]; auto.
    destruct H as [H|[]]; auto.
Qed.

Lemma set_not_nil {V} (d : Py.dict V) k v : Py.set d k v <> [].
Proof. destruct d as [|[k' v'] d]; cbn; [|destruct (String.eqb k' k)]; discriminate. Qed.

Lemma total_set (d : Py.dict Z) k x :
  tally_total (Py.set d k x) = tally_total d - Py.get_default d k 0 + x.
Proof.
  unfold tally_total, Py.values, Py.get_default.
  induction d as [|[k' v'] d IH]; cbn [Py.set Py.get map fold_right snd]; [lia|].
  destruct (String.eqb k' k); cbn [map fold_right snd]; lia.
Qed.

Lemma total_count d k n : tally_total (Engine.count d k n) = tally_total d + n.
Proof. unfold Engine.count. rewrite total_set. lia. Qed.

Lemma count_signs_total vs : forall counts out,
  Engine.count_signs counts vs = Ok out ->
  tally_total out = tally_total counts + Z.of_nat (List.length vs).
Proof.
  induction vs as [|v vs IH]; intros counts out; cbn [Engine.count_signs].
  - intros [= <-]. cbn. lia.
  - destruct (Engine._infer_sign_from_lon _) as [s|]; cbn [bind]; [|discriminate].
    intros H. apply IH in H. rewrite H, total_count. cbn [List.length]. lia.
Qed.

Lemma total_cons k n (d : Py.dict Z) : tally_total ((k, n) :: d) = n + tally_total d.
Proof. reflexivity. Qed.

Lemma count_elements_total sc : forall acc,
  tally_total (fold_left Engine.count_element sc acc) = tally_total acc + tally_total sc.
Proof.
  induction sc as [|[s n] sc IH]; intros acc; cbn [fold_left].
  - change (tally_total []) with 0. lia.
  - rewrite IH, total_cons. unfold Engine.count_element. rewrite total_count.
    cbn [snd]. lia.
Qed.

Lemma infer_sign_in_signs x s :
  Engine._infer_sign_from_lon x = Ok s -> In s Engine.signs.
Proof.
  unfold Engine._infer_sign_from_lon.
  destruct (Py.int_of_float _) as [i|]; cbn [bind]; [|discriminate].
  apply index_in.
Qed.

Lemma count_signs_keys vs : forall counts out,
  Engine.count_signs counts vs = Ok out ->
  forall k, In k (Py.keys out) -> In k (Py.keys counts) \/ In k Engine.signs.
Proof.
  induction vs as [|v vs IH]; intros counts out; cbn [Engine.count_signs].
  - intros [= <-] k Hk. left; exact Hk.
  - destruct (Engine._infer_sign_from_lon _) as [s|] eqn:E; cbn [bind]; [|discriminate].
    intros H k Hk. destruct (IH _ _ H k Hk) as [Hc|Hs]; [|right; exact Hs].
    unfold Engine.count in Hc. apply keys_set in Hc. destruct Hc as [->|Hc].
    + right. eapply infer_sign_in_signs, E.
    + left; exact Hc.
Qed.

Lemma count_signs_returns vs : forall counts,
  (forall pos, In pos vs -> lon_in_range (Engine.getattr_lon pos) = true) ->
  exists out, Engine.count_signs counts vs = Ok out.
Proof.
  induction vs as [|v vs IH]; intros counts Hr; cbn [Engine.count_signs]; [eauto|].
  destruct (infer_sign_total _ (Hr v (or_introl eq_refl))) as (s & ->). cbn [bind].
  apply IH. intros pos Hp. apply Hr. right; exact Hp.
Qed.

Lemma element_of_label s : In (element_of s) element_labels.
Proof.
  unfold element_of, Py.get_default, Engine.ELEMENT_BY_SIGN. cbn [Py.get].
  repeat (destruct (String.eqb _ s); [cbn; tauto|]). cbn; tauto.
Qed.

Lemma element_of_sign s : In s Engine.signs -> element_of s <> "Unknown".
Proof.
  intros H. cbn in H.
  repeat (destruct H as [<-|H]; [vm_compute; discriminate|]). destruct H.
Qed.

Lemma count_elements_keys sc : forall acc k,
  In k (Py.keys (fold_left Engine.count_element sc acc)) ->
  In k (Py.keys acc) \/ exists s, In s (Py.keys sc) /\ k = element_of s.
Proof.
  induction sc as [|[s n] sc IH]; intros acc k; cbn [fold_left].
  - left; assumption.
  - intros H. apply IH in H. destruct H as [H|(s' & Hs' & ->)].
    + unfold Engine.count_element, Engine.count in H. apply keys_set in H.
      destruct H as [->|H]; [|left; exact H].
      right. exists s. split; [left; reflexivity|reflexivity].
    + right. exists s'. split; [right; exact Hs'|reflexivity].
Qed.

Lemma count_elements_not_nil sc : forall acc,
  sc <> [] \/ acc <> [] -> fold_left Engine.count_element sc acc <> [].
Proof.
  induction sc as [|[s n] sc IH]; intros acc H; cbn [fold_left].
  - destruct H as [H|H]; [contradiction|exact H].
  - apply IH. right. apply set_not_nil.
Qed.

(** ** The item [max] picks *)

Lemma max_from_in {A K0} (gt : K0 -> K0 -> bool) (key : A -> K0) rest : forall best,
  In (Py.max_from gt key best rest) (best :: rest).
Proof.
  induction rest as [|x rest IH]; intros best; cbn [Py.max_from]; [left; reflexivity|].
  destruct (IH (if gt (key x) (key best) then x else best)) as [H|H].
  - rewrite <- H. destruct (gt (key x) (key best)); [right; left|left]; reflexivity.
  - right; right; exact H.
Qed.

Lemma max_by_in {A K0} (gt : K0 -> K0 -> bool) (key : A -> K0) items x :
  Py.max_by gt key items = Some x -> In x items.
Proof.
  destruct items as [|y rest]; cbn [Py.max_by]; [discriminate|].
  intros [= <-]. apply max_from_in.
Qed.

Lemma max_from_int_ge {A} (key : A -> Z) rest : forall best y,
  In y (best :: rest) -> key y <= key (Py.max_from Py.int_gt key best rest).
Proof.
  induction rest as [|x rest IH]; intros best y; cbn [Py.max_from].
  - intros [<-|[]]. lia.
  - set (best' := if Py.int_gt (key x) (key best) then x else best).
    assert (Hb : key best <= key best' /\ key x <= key best').
    { unfold best', Py.int_gt. destruct (key best <? key x) eqn:E;
        [apply Z.ltb_lt in E|apply Z.ltb_ge in E]; lia. }
    intros [<-|[<-|H]].
    + pose proof (IH best' best' (or_introl eq_refl)). lia.
    + pose proof (IH best' best' (or_introl eq_refl)). lia.
    + apply IH. right; exact H.
Qed.

Lemma max_from_stays {A K0} (gt : K0 -> K0 -> bool) (key : A -> K0) rest : forall best,
  (forall y, In y rest -> gt (key y) (key best) = false) ->
  Py.max_from gt key best rest = best.
Proof.
  induction rest as [|x rest IH]; intros best H; cbn [Py.max_from]; [reflexivity|].
  rewrite (H x (or_introl eq_refl)). apply IH. intros y Hy. apply H. right; exact Hy.
Qed.

Lemma max_from_app {A K0} (gt : K0 -> K0 -> bool) (key : A -> K0) l1 : forall l2 best,
  Py.max_from gt key best (l1 ++ l2)
  = Py.max_from gt key (Py.max_from gt key best l1) l2.
Proof.
  induction l1 as [|x l1 IH]; intros l2 best; cbn [Py.max_from app]; [reflexivity|].
  apply IH.
Qed.

(** ** The dominant element *)

Lemma element_tally_returns chart :
  well_formed chart -> exists tally, Engine.element_tally chart = Ok tally.
Proof.
  intros Hwf. unfold Engine.element_tally. cbn zeta.
  destruct (count_signs_returns (Py.values (positions chart))
              (Engine.count (Engine.count (Engine.count [] (sun_sign chart) 1)
                                          (moon_sign chart) 1) (rising_sign chart) 1))
    as (sc & ->).
  - intros pos Hp. unfold Py.values in Hp. apply in_map_iff in Hp.
    destruct Hp as ([k pos'] & <- & Hin). eapply getattr_lon_in_range; eassumption.
  - cbn [bind]. eauto.
Qed.

Lemma element_tally_facts chart tally :
  Engine.element_tally chart = Ok tally ->
  tally <> [] /\
  tally_total tally = 3 + Z.of_nat (List.length (positions chart)) /\
  (forall k, In k (Py.keys tally) -> In k element_labels) /\
  (In (sun_sign chart) Engine.signs -> In (moon_sign chart) Engine.signs ->
   In (rising_sign chart) Engine.signs ->
   forall k, In k (Py.keys tally) -> k <> "Unknown").
Proof.
  unfold Engine.element_tally. cbn zeta.
  set (c3 := Engine.count (Engine.count (Engine.count [] (sun_sign chart) 1)
                                        (moon_sign chart) 1) (rising_sign chart) 1).
  destruct (Engine.count_signs c3 _) as [sc|] eqn:E; cbn [bind]; [|discriminate].
  intros [= <-].
  assert (Hc3 : forall k, In k (Py.keys c3) ->
            k = sun_sign chart \/ k = moon_sign chart \/ k = rising_sign chart).
  { intros k Hk. unfold c3, Engine.count in Hk.
    apply keys_set in Hk. destruct Hk as [->|Hk]; [tauto|].
    apply keys_set in Hk. destruct Hk as [->|Hk]; [tauto|].
    apply keys_set in Hk. destruct Hk as [->|Hk]; [tauto|]. destruct Hk. }
  split; [|split; [|split]].
  - apply count_elements_not_nil. left. intros ->.
    apply count_signs_total in E. unfold c3 in E. rewrite !total_count in E.
    change (tally_total []) with 0 in E. lia.
  - rewrite count_elements_total. apply count_signs_total in E. rewrite E.
    unfold c3. rewrite !total_count. change (tally_total []) with 0.
    unfold Py.values. rewrite length_map. lia.
  - intros k Hk. apply count_elements_keys in Hk.
    destruct Hk as [[]|(s & _ & ->)]. apply element_of_label.
  - intros Hs Hm Hr k Hk. apply count_elements_keys in Hk.
    destruct Hk as [[]|(s & Hs' & ->)]. apply element_of_sign.
    destruct (count_signs_keys _ _ _ E s Hs') as [H|H]; [|exact H].
    destruct (Hc3 s H) as [->|[->| ->]]; assumption.
Qed.

(** X9: On every chart of the data model the element counts of
    _determine_dominant_element sum to 3 plus the number of positions, and
    the element returned holds a count that no other element exceeds. *)
Theorem dominant_element_of_tally :
  forall chart : Chart,
    well_formed chart ->
    exists tally e n,
      Engine.element_tally chart = Ok tally /\
      Engine._determine_dominant_element chart = Ok e /\
      In (e, n) tally /\
      (forall k m, In (k, m) tally -> m <= n) /\
      tally_total tally = 3 + Z.of_nat (List.length (positions chart)).
Proof.
  intros chart Hwf. destruct (element_tally_returns chart Hwf) as (tally & Ht).
  destruct (element_tally_facts chart tally Ht) as (Hne & Htot & _).
  unfold Engine._determine_dominant_element. rewrite Ht. cbn [bind].
  destruct tally as [|x rest]; [contradiction|]. cbn [Py.max_by].
  pose proof (max_from_in Py.int_gt snd rest x) as Hin.
  pose proof (max_from_int_ge snd rest x) as Hge.
  destruct (Py.max_from Py.int_gt snd x rest) as [e n] eqn:E.
  exists (x :: rest), e, n. split; [reflexivity|]. split; [reflexivity|].
  split; [exact Hin|]. split; [|exact Htot].
  intros k m Hkm. apply (Hge (k, m) Hkm).
Qed.

Lemma dominant_element_returns :
  forall chart : Chart,
    well_formed chart ->
    exists e,
      Engine._determine_dominant_element chart = Ok e /\
      In e element_labels /\
      (In (sun_sign chart) Engine.signs -> In (moon_sign chart) Engine.signs ->
       In (rising_sign chart) Engine.signs -> e <> "Unknown").
Proof.
  intros chart Hwf. destruct (element_tally_returns chart Hwf) as (tally & Ht).
  destruct (element_tally_facts chart tally Ht) as (Hne & _ & Hlab & Hsig).
  unfold Engine._determine_dominant_element. rewrite Ht. cbn [bind].
  destruct (Py.max_by Py.int_gt snd tally) as [[e n]|] eqn:E.
  - apply max_by_in in E. exists e. split; [reflexivity|].
    assert (Hk : In e (Py.keys tally))
      by (change e with (fst (e, n)); apply in_map, E).
    split; [apply Hlab, Hk|]. intros Hs Hm Hr. apply (Hsig Hs Hm Hr e Hk).
  - destruct tally; [contradiction|discriminate].
Qed.

(** X8: On every chart of the data model (longitudes in [0, 360))
    _determine_dominant_element returns one of Fire, Earth, Air, Water,
    Unknown, and never Unknown when the Sun, Moon and Rising signs are
    zodiac signs. *)
Theorem dominant_element_label :
  forall chart : Chart,
    well_formed chart ->
    exists e,
      Engine._determine_dominant_element chart = Ok e /\
      In e element_labels /\
      (In (sun_sign chart) Engine.signs -> In (moon_sign chart) Engine.signs ->
       In (rising_sign chart) Engine.signs -> e <> "Unknown").
Proof. exact dominant_element_returns. Qed.

(** ** The sonic payload *)

Lemma waveform_of element :
  In (Py.get_default Engine.waveform_map element "sine") waveforms /\
  (~ In element ["Water"; "Fire"; "Air"; "Earth"] ->
   Py.get_default Engine.waveform_map element "sine" = "sine").
Proof.
  unfold Py.get_default, Engine.waveform_map. cbn [Py.get].
  destruct (String.eqb_spec "Water" element) as [<-|H1]; [cbn; tauto|].
  destruct (String.eqb_spec "Fire" element) as [<-|H2]; [cbn; tauto|].
  destruct (String.eqb_spec "Air" element) as [<-|H3]; [cbn; tauto|].
  destruct (String.eqb_spec "Earth" element) as [<-|H4]; [cbn; tauto|].
  cbn; tauto.
Qed.

Lemma payload_facts :
  forall (T : Tables) (element : string) (t : Z),
    0 <= t <= 100 ->
    exists payload,
      Engine._build_sonic_payload T element t = Ok payload /\
      In (waveform payload) waveforms /\
      (~ In element ["Water"; "Fire"; "Air"; "Earth"] -> waveform payload = "sine") /\
      timbres payload <> [] /\
      (forall ts, Py.get (timbre_map T) element = Some ts -> ts <> [] ->
                  timbres payload = ts).
Proof.
  intros T element t Ht. unfold Engine._build_sonic_payload.
  rewrite (tempo_of_exact t Ht). cbn [bind]. cbn zeta.
  eexists. split; [reflexivity|]. cbn [waveform timbres].
  destruct (waveform_of element) as [Hw Hs].
  split; [exact Hw|]. split; [exact Hs|]. split.
  - destruct (Py.get_default (timbre_map T) element []); [|discriminate].
    destruct (_ || _); discriminate.
  - intros ts Hts Hne. unfold Py.get_default. rewrite Hts.
    destruct ts; [contradiction|reflexivity].
Qed.

(** X10: For a tension index in [0, 100] _build_sonic_payload returns a
    payload whose waveform is sine, sawtooth, triangle or square (sine for
    an element outside Water, Fire, Air, Earth) and whose timbre list is
    never empty; a non-empty table entry for the element is used as it is. *)
Theorem sonic_payload_complete :
  forall (T : Tables) (element : string) (t : Z),
    0 <= t <= 100 ->
    exists payload,
      Engine._build_sonic_payload T element t = Ok payload /\
      In (waveform payload) waveforms /\
      (~ In element ["Water"; "Fire"; "Air"; "Earth"] -> waveform payload = "sine") /\
      timbres payload <> [] /\
      (forall ts, Py.get (timbre_map T) element = Some ts -> ts <> [] ->
                  timbres payload = ts).
Proof. exact payload_facts. Qed.

(** ** Where the mode identifiers come from *)

Lemma vote_for_keys scores id w k :
  In k (Py.keys (Engine.vote_for scores id w)) ->
  In k (Py.keys scores) \/ id = Some k.
Proof.
  unfold Engine.vote_for. destruct id as [k'|]; [|tauto].
  destruct (Py.truthy (Some k')); [|tauto].
  unfold Engine.add_score. intros H. apply keys_set in H.
  destruct H as [->|H]; [right; reflexivity|left; exact H].
Qed.

Section Offered.
Variables (T : Tables) (chart : Chart).

Let sound (st : Py.dict float * Py.dict float) : Prop :=
  (forall k, In k (Py.keys (fst st)) -> offered Engine.pent_id_of T chart k) /\
  (forall k, In k (Py.keys (snd st)) -> offered Engine.quad_id_of T chart k).

Lemma vote_sound st st' p :
  In p (Engine.contributors chart) -> sound st ->
  Engine.vote T chart st p = Ok st' -> sound st'.
Proof.
  intros Hp [H1 H2]. unfold Engine.vote. cbn zeta.
  destruct (Engine.contributor_sign chart p) as [[sign|]|] eqn:E; cbn [bind];
    [|intros [= <-]; split; assumption|discriminate].
  intros [= <-]. split; cbn [fst snd]; intros k Hk; apply vote_for_keys in Hk;
    (destruct Hk as [Hk|Hk]; [auto|]); exists p, sign; auto.
Qed.

Lemma votes_sound ps : forall st st',
  (forall p, In p ps -> In p (Engine.contributors chart)) -> sound st ->
  Engine.votes T chart st ps = Ok st' -> sound st'.
Proof.
  induction ps as [|p ps IH]; intros st st' Hps Hst; cbn [Engine.votes].
  - intros [= <-]. exact Hst.
  - destruct (Engine.vote T chart st p) as [st1|] eqn:E; cbn [bind]; [|discriminate].
    apply IH; [intros q Hq; apply Hps; right; exact Hq|].
    eapply vote_sound; [apply Hps; left; reflexivity|exact Hst|exact E].
Qed.

Lemma votes_offered st :
  Engine.votes T chart ([], []) (Engine.contributors chart) = Ok st -> sound st.
Proof.
  apply votes_sound; [auto|]. split; intros k [].
Qed.

End Offered.

Lemma primary_key scores :
  Engine.primary scores = "UNKNOWN" \/ In (Engine.primary scores) (Py.keys scores).
Proof.
  unfold Engine.primary. destruct (Py.max_by Py.float_gt snd scores) as [x|] eqn:E.
  - right. apply max_by_in in E. apply in_map, E.
  - left; reflexivity.
Qed.

(** X3: Whenever _aggregate_canonical_modes returns, each primary mode is
    either 'UNKNOWN' or an identifier offered by the modal family row (as
    map_sign_to_modal_family reads it) of the sign some contributor votes
    with: the aggregator invents no identifier. *)
Theorem primary_modes_offered :
  forall (T : Tables) (chart : Chart) (primary_pent primary_quad : string),
    Engine._aggregate_canonical_modes T chart = Ok (primary_pent, primary_quad) ->
    (primary_pent = "UNKNOWN" \/ offered Engine.pent_id_of T chart primary_pent) /\
    (primary_quad = "UNKNOWN" \/ offered Engine.quad_id_of T chart primary_quad).
Proof.
  intros T chart pp pq. unfold Engine._aggregate_canonical_modes.
  destruct (Engine.votes _ _ _ _) as [st|] eqn:E; cbn [bind]; [|discriminate].
  intros [= <- <-]. apply votes_offered in E. destruct E as [H1 H2].
  split.
  - destruct (primary_key (fst st)) as [H|H]; [left; exact H|right; apply H1, H].
  - destruct (primary_key (snd st)) as [H|H]; [left; exact H|right; apply H2, H].
Qed.

(** ** Ties *)

(** X4: Ties go to the earliest vote: a mode whose score is strictly greater
    than every score inserted before it, and that no later score exceeds, is
    the primary mode. *)
Theorem primary_first_maximum :
  forall (before after : Py.dict float) (w : string) (x : float),
    (forall k y, In (k, y) before -> (y <? x)%float = true) ->
    (forall k y, In (k, y) after -> (x <? y)%float = false) ->
    Engine.primary (before ++ (w, x) :: after)%list = w.
Proof.
  intros pre post w x Hpre Hpost. unfold Engine.primary.
  assert (Hstay : Py.max_from Py.float_gt snd (w, x) post = (w, x)).
  { apply max_from_stays. intros [k y] Hy. cbn [snd]. unfold Py.float_gt.
    eapply Hpost, Hy. }
  destruct pre as [|b pre]; cbn [app Py.max_by].
  - rewrite Hstay. reflexivity.
  - rewrite max_from_app. cbn [Py.max_from].
    pose proof (max_from_in Py.float_gt snd pre b) as Hin.
    destruct (Py.max_from Py.float_gt snd b pre) as [k y] eqn:E.
    cbn [snd]. change (Py.float_gt x y) with (y <? x)%float. rewrite (Hpre k y Hin).
    rewrite Hstay. reflexivity.
Qed.

(** ** The engine, end to end *)

(** X11: On every chart of the data model whose aspects have non-negative
    orbs (at most 2^43 of them) run_harmonic_engine returns a result: its
    modes are those of the aggregator, its tension index lies in [0, 100],
    its tempo is 60 + floor(80 t / 100) and lies in [60, 140], its element
    is one of the five labels, its waveform one of the four, and its timbres
    are not empty. *)
Theorem run_harmonic_engine_returns :
  forall (T : Tables) (chart : Chart),
    well_formed chart -> orbs_nonneg (aspects chart) ->
    Z.of_nat (List.length (aspects chart)) <= 2 ^ 43 ->
    exists result,
      Engine.run_harmonic_engine T chart = Ok result /\
      Engine._aggregate_canonical_modes T chart
        = Ok (primary_pentatonic_mode result, primary_quadratonic_mode result) /\
      0 <= harmonic_tension_index result <= 100 /\
      In (dominant_element result) element_labels /\
      recommended_tempo_bpm (sonic_payload result)
        = 60 + harmonic_tension_index result * 80 / 100 /\
      60 <= recommended_tempo_bpm (sonic_payload result) <= 140 /\
      In (waveform (sonic_payload result)) waveforms /\
      timbres (sonic_payload result) <> [].
Proof.
  intros T chart Hwf Ho Hlen. unfold Engine.run_harmonic_engine.
  unfold Engine._aggregate_canonical_modes.
  destruct (votes_total T chart (Engine.contributors chart) ([], []) Hwf) as (st & ->).
  cbn [bind]. unfold Engine._compute_harmonic_tension.
  destruct (tension_returns (aspects chart) Ho Hlen) as (t & -> & Ht & _).
  cbn [bind].
  destruct (dominant_element_returns chart Hwf) as (e & -> & He & _). cbn [bind].
  destruct (payload_facts T e t Ht) as (payload & Hp & Hw & _ & Hts & _).
  rewrite Hp. cbn [bind]. eexists. split; [reflexivity|].
  cbn [primary_pentatonic_mode primary_quadratonic_mode harmonic_tension_index
       dominant_element sonic_payload fst snd].
  split; [reflexivity|]. split; [exact Ht|]. split; [exact He|].
  unfold Engine._build_sonic_payload in Hp. rewrite (tempo_of_exact t Ht) in Hp.
  cbn [bind] in Hp.
  assert (E : recommended_tempo_bpm payload = 60 + t * 80 / 100)
    by (injection Hp as <-; reflexivity).
  split; [exact E|]. split; [|split; assumption].
  rewrite E.
  assert (0 <= t * 80 / 100 <= 80); [|lia].
  split; [apply Z.div_pos; lia|apply Z.div_le_upper_bound; lia].
Qed.

(** ** A position stored under Sun, Moon or Rising *)

Lemma fromkeys_snoc_in l p : In p l -> Py.fromkeys (l ++ [p])%list = Py.fromkeys l.
Proof.
  intros Hp. unfold Py.fromkeys. rewrite fold_left_app. cbn [fold_left].
  apply keys_set_in. apply fold_set_keys. left; exact Hp.
Qed.

Lemma contributors_luminary chart p pos :
  In p luminaries ->
  Engine.contributors (add_position chart p pos) = Engine.contributors chart.
Proof.
  intros Hp. unfold Engine.contributors, add_position. cbn [positions].
  unfold Py.keys. rewrite map_app. cbn [map fst]. rewrite app_assoc.
  apply fromkeys_snoc_in. apply in_or_app. left; exact Hp.
Qed.

Lemma aggregate_luminary T chart p pos :
  In p luminaries ->
  Engine._aggregate_canonical_modes T (add_position chart p pos)
  = Engine._aggregate_canonical_modes T chart.
Proof.
  intros Hp. unfold Engine._aggregate_canonical_modes.
  rewrite (contributors_luminary chart p pos Hp), votes_add; [reflexivity|].
  intros q Hq. apply (proj1 (in_fromkeys _ q)). exact Hq.
Qed.

(** X6: A position stored in chart.positions under 'Sun', 'Moon' or 'Rising'
    adds no contributor and leaves the result of _aggregate_canonical_modes
    unchanged, yet _determine_dominant_element tallies it: the element
    counts sum to one more. *)
Theorem luminary_position_counted_once :
  forall (T : Tables) (chart : Chart) (p : string) (pos : position_value),
    In p luminaries -> ~ In p (Py.keys (positions chart)) ->
    Engine.contributors (add_position chart p pos) = Engine.contributors chart /\
    Engine._aggregate_canonical_modes T (add_position chart p pos)
      = Engine._aggregate_canonical_modes T chart /\
    forall tally tally',
      Engine.element_tally chart = Ok tally ->
      Engine.element_tally (add_position chart p pos) = Ok tally' ->
      tally_total tally' = tally_total tally + 1.
Proof.
  intros T chart p pos Hp _. split; [apply contributors_luminary, Hp|].
  split; [apply aggregate_luminary, Hp|].
  intros tally tally' H H'.
  apply element_tally_facts in H. apply element_tally_facts in H'.
  destruct H as (_ & -> & _). destruct H' as (_ & -> & _).
  unfold add_position. cbn [positions]. rewrite length_app. cbn [List.length]. lia.
Qed.

(** ** The chart mapper *)

(** X20: map_chart_to_modal_families returns a dictionary with exactly the
    keys Sun, Moon, Rising, in that order, and the row it holds for each is
    the row with which the aggregator casts that contributor's vote. *)
Theorem chart_mapper_rows :
  forall (T : Tables) (chart : Chart),
    Py.keys (ChartMapper.map_chart_to_modal_families T chart)
      = ["Sun"; "Moon"; "Rising"] /\
    forall p, In p luminaries ->
      exists sign row,
        Engine.contributor_sign chart p = Ok (Some sign) /\
        row = Py.get_default (modal_index T) sign [] /\
        Py.get (ChartMapper.map_chart_to_modal_families T chart) p = Some row /\
        forall st,
          Engine.vote T chart st p
          = Ok (Engine.vote_for (fst st) (Engine.pent_id_of row)
                                (Engine._get_planet_weight p),
                Engine.vote_for (snd st) (Engine.quad_id_of row)
                                (Engine._get_planet_weight p)).
Proof.
  intros T chart. split; [reflexivity|].
  intros p [<-|[<-|[<-|[]]]].
  - exists (sun_sign chart), (Py.get_default (modal_index T) (sun_sign chart) []).
    repeat split; reflexivity.
  - exists (moon_sign chart), (Py.get_default (modal_index T) (moon_sign chart) []).
    repeat split; reflexivity.
  - exists (rising_sign chart), (Py.get_default (modal_index T) (rising_sign chart) []).
    repeat split; reflexivity.
Qed.

(** ** Scales *)

Lemma climb_app from l1 : forall l2,
  climb from (l1 ++ l2)%list
  = (climb from l1 ++ climb (from + sum_intervals l1) l2)%list.
Proof.
  revert from. induction l1 as [|i l1 IH]; intros from l2; cbn [app climb].
  - unfold sum_intervals. cbn. rewrite Z.add_0_r. reflexivity.
  - rewrite IH. cbn [app]. do 3 f_equal. unfold sum_intervals. cbn. lia.
Qed.

Lemma climb_length from l : List.length (climb from l) = List.length l.
Proof. revert from. induction l as [|i l IH]; intros from; cbn; [|rewrite IH]; reflexivity. Qed.

Lemma add_intervals_climb intervals : forall current notes,
  Midi.add_intervals current notes intervals
  = (current + sum_intervals intervals, (notes ++ climb current intervals)%list).
Proof.
  induction intervals as [|i l IH]; intros current notes; cbn [Midi.add_intervals climb].
  - unfold sum_intervals. cbn. rewrite Z.add_0_r, app_nil_r. reflexivity.
  - rewrite IH. rewrite <- app_assoc. cbn [app]. f_equal.
    unfold sum_intervals. cbn. lia.
Qed.

Lemma add_octaves_climb intervals octaves : forall current notes,
  Midi.add_octaves octaves current notes intervals
  = (notes ++ climb current (cycle octaves intervals))%list.
Proof.
  induction octaves as [|n IH]; intros current notes; cbn [Midi.add_octaves].
  - cbn. rewrite app_nil_r. reflexivity.
  - rewrite add_intervals_climb, IH. unfold cycle. cbn [repeat List.concat].
    rewrite climb_app, <- app_assoc. reflexivity.
Qed.

Lemma sum_app l1 l2 :
  sum_intervals (l1 ++ l2)%list = sum_intervals l1 + sum_intervals l2.
Proof.
  unfold sum_intervals. induction l1 as [|i l1 IH]; cbn; [reflexivity|]. rewrite IH. lia.
Qed.

Lemma sum_cycle n l : sum_intervals (cycle n l) = Z.of_nat n * sum_intervals l.
Proof.
  unfold cycle. induction n as [|n IH]; [reflexivity|].
  cbn [repeat List.concat]. rewrite sum_app, IH. lia.
Qed.

Lemma length_cycle {A} n (l : list A) :
  List.length (cycle n l) = (n * List.length l)%nat.
Proof.
  unfold cycle. induction n as [|n IH]; [reflexivity|].
  cbn [repeat List.concat]. rewrite length_app, IH. lia.
Qed.

Lemma cycle_nil {A} n : cycle n (@nil A) = [].
Proof. unfold cycle. induction n as [|n IH]; [reflexivity|]. cbn. exact IH. Qed.

Lemma last_climb l : forall from d,
  last (from :: climb from l) d = from + sum_intervals l.
Proof.
  induction l as [|i l IH]; intros from d.
  - unfold sum_intervals. cbn. lia.
  - cbn [climb]. change (last (from :: from + i :: climb (from + i) l) d)
      with (last (from + i :: climb (from + i) l) d).
    rewrite IH. unfold sum_intervals. cbn. lia.
Qed.

Lemma generate_scale_notes_climb parse root pattern octaves :
  Midi.generate_scale_notes parse root pattern octaves
  = root :: climb root (cycle (Z.to_nat octaves) (parse pattern)).
Proof.
  unfold Midi.generate_scale_notes. cbn zeta.
  destruct (parse pattern) as [|i l] eqn:E.
  - rewrite cycle_nil. reflexivity.
  - rewrite add_octaves_climb. reflexivity.
Qed.

(** X21: generate_scale_notes returns the root followed by the running sums
    of the parsed intervals repeated octaves times: 1 + max(0, octaves) *
    len(intervals) notes, the last being root + max(0, octaves) *
    sum(intervals); without intervals, or with octaves <= 0, it returns
    [root]. *)
Theorem generate_scale_notes_shape :
  forall (parse_semitone_pattern : string -> list Z) (root_midi : Z)
         (pattern : string) (octaves : Z),
    let intervals := parse_semitone_pattern pattern in
    let scale := Midi.generate_scale_notes parse_semitone_pattern root_midi pattern octaves in
    scale = root_midi :: climb root_midi (cycle (Z.to_nat octaves) intervals) /\
    Z.of_nat (List.length scale) = 1 + Z.max 0 octaves * Z.of_nat (List.length intervals) /\
    last scale root_midi = root_midi + Z.max 0 octaves * sum_intervals intervals /\
    (intervals = [] \/ octaves <= 0 -> scale = [root_midi]).
Proof.
  intros parse root pattern octaves. cbn zeta.
  rewrite generate_scale_notes_climb. split; [reflexivity|].
  assert (Hn : Z.of_nat (Z.to_nat octaves) = Z.max 0 octaves) by lia.
  split; [|split].
  - cbn [List.length]. rewrite climb_length, length_cycle. lia.
  - rewrite last_climb, sum_cycle, Hn. reflexivity.
  - intros [-> | Ho].
    + rewrite cycle_nil. reflexivity.
    + replace (Z.to_nat octaves) with O by lia. reflexivity.
Qed.

Lemma climb_above from l :
  Forall (fun i => 0 < i) l -> Forall (Z.lt from) (climb from l).
Proof.
  revert from. induction l as [|i l IH]; intros from H; cbn [climb]; [constructor|].
  inversion H as [|? ? Hi Hl]; subst. constructor; [lia|].
  eapply Forall_impl; [|apply IH, Hl]. cbn. intros a Ha. lia.
Qed.

Lemma climb_sorted from l :
  Forall (fun i => 0 < i) l -> StronglySorted Z.lt (from :: climb from l).
Proof.
  revert from. induction l as [|i l IH]; intros from H; cbn [climb].
  - constructor; constructor.
  - constructor; [|apply (climb_above from (i :: l) H)].
    inversion H; subst. apply IH. assumption.
Qed.

Lemma cycle_forall {A} (P : A -> Prop) n l : Forall P l -> Forall P (cycle n l).
Proof.
  intros H. unfold cycle. induction n as [|n IH]; [constructor|].
  cbn [repeat List.concat]. apply Forall_app. split; assumption.
Qed.

(** X22: When every parsed interval is positive, the scale
    generate_scale_notes returns is strictly ascending. *)
Theorem generate_scale_notes_ascending :
  forall (parse_semitone_pattern : string -> list Z) (root_midi : Z)
         (pattern : string) (octaves : Z),
    Forall (fun i => 0 < i) (parse_semitone_pattern pattern) ->
    StronglySorted Z.lt
      (Midi.generate_scale_notes parse_semitone_pattern root_midi pattern octaves).
Proof.
  intros parse root pattern octaves H. rewrite generate_scale_notes_climb.
  apply climb_sorted, cycle_forall, H.
Qed.

(** ** Tracks *)

Lemma append_notes notes len vel : forall seq,
  fold_left
    (fun seq n =>
       (seq ++ [{| Midi.midi := n; Midi.length_beats := len; Midi.velocity := vel |}])%list)
    notes seq
  = (seq ++ map (fun n => {| Midi.midi := n; Midi.length_beats := len;
                             Midi.velocity := vel |}) notes)%list.
Proof.
  induction notes as [|n notes IH]; intros seq; cbn [fold_left map].
  - rewrite app_nil_r. reflexivity.
  - rewrite IH, <- app_assoc. reflexivity.
Qed.

Lemma repeat_notes_cycle notes len vel repeats : forall seq,
  Midi.repeat_notes repeats seq notes len vel
  = (seq ++ map (fun n => {| Midi.midi := n; Midi.length_beats := len;
                             Midi.velocity := vel |})
                (cycle repeats notes))%list.
Proof.
  induction repeats as [|r IH]; intros seq; cbn [Midi.repeat_notes].
  - cbn. rewrite app_nil_r. reflexivity.
  - rewrite IH, append_notes, <- app_assoc. unfold cycle. cbn [repeat List.concat].
    rewrite map_app. reflexivity.
Qed.

Lemma repeat_notes_facts notes len vel repeats :
  let seq := Midi.repeat_notes repeats [] notes len vel in
  map Midi.midi seq = cycle repeats notes /\
  Forall (fun nt => Midi.length_beats nt = len /\ Midi.velocity nt = vel) seq.
Proof.
  cbn zeta. rewrite repeat_notes_cycle. cbn [app]. split.
  - rewrite map_map. cbn [Midi.midi]. apply map_id.
  - apply Forall_forall. intros nt Hin. apply in_map_iff in Hin.
    destruct Hin as (n & <- & _). split; reflexivity.
Qed.

(** X23: build_arpeggio_track keeps the name and plays the notes in order,
    repeats times over (nothing when repeats <= 0), each note with the given
    length and velocity. *)
Theorem build_arpeggio_track_cycles :
  forall (name : string) (notes : list Z) (repeats : Z) (note_length : float)
         (velocity : Z),
    let track := Midi.build_arpeggio_track name notes repeats note_length velocity in
    Midi.name track = name /\
    map Midi.midi (Midi.notes track) = cycle (Z.to_nat repeats) notes /\
    Forall (fun nt => Midi.length_beats nt = note_length /\ Midi.velocity nt = velocity)
           (Midi.notes track).
Proof.
  intros name notes repeats len vel. cbn zeta. split; [reflexivity|].
  apply repeat_notes_facts.
Qed.

(** X24: build_bass_track cycles through the first four notes (or fewer) one
    octave lower, or through the single note 48 when it is given no note,
    each with the given length and velocity. *)
Theorem build_bass_track_octave_lower :
  forall (name : string) (notes : list Z) (repeats : Z) (note_length : float)
         (velocity : Z),
    let track := Midi.build_bass_track name notes repeats note_length velocity in
    (notes = [] -> map Midi.midi (Midi.notes track) = cycle (Z.to_nat repeats) [48]) /\
    (notes <> [] ->
     map Midi.midi (Midi.notes track)
     = cycle (Z.to_nat repeats) (map (fun n => n - 12) (firstn 4 notes))) /\
    Forall (fun nt => Midi.length_beats nt = note_length /\ Midi.velocity nt = velocity)
           (Midi.notes track).
Proof.
  intros name notes repeats len vel. cbn zeta. unfold Midi.build_bass_track. cbn zeta.
  cbn [Midi.notes]. split; [|split].
  - intros ->. apply repeat_notes_facts.
  - intros Hne. destruct notes; [contradiction|]. apply repeat_notes_facts.
  - apply repeat_notes_facts.
Qed.

(** X25: The composition generate_midi_from_result exports has a lead and a
    bass track and the tempo of the result; the lead cycles 8 times through
    a scale that starts at the root of the element (60, 62, 64 or 65), the
    bass through its first four notes an octave lower, so that the first
    bass note is root - 12. *)
Theorem composition_of_result_tracks :
  forall (parse_semitone_pattern : string -> list Z) (T : Tables)
         (result : HarmonicResult),
    let root := Py.get_default Midi.ELEMENT_ROOT (dominant_element result) 60 in
    exists scale lead bass,
      Midi.composition_of_result parse_semitone_pattern T result
        = {| Midi.tracks := [lead; bass];
             Midi.tempo_bpm := recommended_tempo_bpm (sonic_payload result) |} /\
      In root [60; 62; 64; 65] /\
      hd 0 scale = root /\
      map Midi.midi (Midi.notes lead) = cycle 8 scale /\
      map Midi.midi (Midi.notes bass) = cycle 8 (map (fun n => n - 12) (firstn 4 scale)) /\
      hd 0 (map Midi.midi (Midi.notes lead)) = root /\
      hd 0 (map Midi.midi (Midi.notes bass)) = root - 12.
Proof.
  intros parse T result. cbn zeta. unfold Midi.composition_of_result. cbn zeta.
  set (root := Py.get_default Midi.ELEMENT_ROOT (dominant_element result) 60).
  set (pattern := match _ with Some p => _ | None => _ end).
  set (scale := Midi.generate_scale_notes parse root pattern 2).
  assert (Hs : exists rest, scale = root :: rest).
  { unfold scale. rewrite generate_scale_notes_climb. eauto. }
  destruct Hs as (rest & Hs).
  exists scale, (Midi.build_arpeggio_track "lead" scale 8 0.5 90),
    (Midi.build_bass_track "bass" scale 8 2.0 70).
  split; [reflexivity|]. split.
  { unfold root, Py.get_default, Midi.ELEMENT_ROOT. cbn [Py.get].
    repeat (destruct (String.eqb _ _); [cbn; tauto|]). cbn; tauto. }
  split; [rewrite Hs; reflexivity|].
  assert (Hl : map Midi.midi (Midi.notes (Midi.build_arpeggio_track "lead" scale 8 0.5 90))
               = cycle 8 scale) by apply repeat_notes_facts.
  assert (Hb : map Midi.midi (Midi.notes (Midi.build_bass_track "bass" scale 8 2.0 70))
               = cycle 8 (map (fun n => n - 12) (firstn 4 scale))).
  { unfold Midi.build_bass_track. cbn zeta. cbn [Midi.notes].
    rewrite Hs. apply repeat_notes_facts. }
  split; [exact Hl|]. split; [exact Hb|]. rewrite Hl, Hb, Hs. split; reflexivity.
Qed.

(** ** Position records *)

Lemma set_new {V} (d : Py.dict V) k v :
  ~ In k (Py.keys d) -> Py.set d k v = (d ++ [(k, v)])%list.
Proof.
  induction d as [|[k' v'] d IH]; cbn [Py.set app]; [reflexivity|].
  intros H. cbn in H. destruct (String.eqb_spec k' k) as [->|Hne]; [tauto|].
  rewrite IH by tauto. reflexivity.
Qed.

Lemma planet_position_found n v :
  complete v -> exists p, Calculator.planet_position n v = Found p /\ record_of n v p.
Proof.
  intros (H1 & H2 & H3). unfold Calculator.planet_position, item, record_of.
  destruct (Py.get v "lon") as [x|]; [|contradiction].
  destruct (Py.get v "lat") as [y|]; [|contradiction].
  destruct (Py.get v "distance") as [z|]; [|contradiction].
  cbn [bind_found]. eexists. split; [reflexivity|]. cbn. repeat split; reflexivity.
Qed.

Lemma planet_position_result n v :
  (exists p, Calculator.planet_position n v = Found p /\ complete v) \/
  (exists k, Calculator.planet_position n v = KeyError k /\
             In k ["lon"; "lat"; "distance"] /\ ~ complete v).
Proof.
  unfold Calculator.planet_position, item, complete.
  destruct (Py.get v "lon") as [x|]; cbn [bind_found];
    [|right; eexists; split; [reflexivity|]; split; [cbn; tauto|tauto]].
  destruct (Py.get v "lat") as [y|]; cbn [bind_found];
    [|right; eexists; split; [reflexivity|]; split; [cbn; tauto|tauto]].
  destruct (Py.get v "distance") as [z|]; cbn [bind_found];
    [|right; eexists; split; [reflexivity|]; split; [cbn; tauto|tauto]].
  left. eexists. split; [reflexivity|]. repeat split; discriminate.
Qed.

Lemma planetposition_items_found items : forall out,
  NoDup (Py.keys out ++ Py.keys items) ->
  (forall n v, In (n, v) items -> complete v) ->
  exists tail,
    Calculator.planetposition_items out items = Found (out ++ tail)%list /\
    Forall2 (fun raw rec => fst rec = fst raw /\ record_of (fst raw) (snd raw) (snd rec))
            items tail.
Proof.
  induction items as [|[n v] items IH]; intros out Hnd Hc;
    cbn [Calculator.planetposition_items].
  - exists []. rewrite app_nil_r. split; [reflexivity|constructor].
  - destruct (planet_position_found n v (Hc n v (or_introl eq_refl))) as (p & -> & Hp).
    cbn [bind_found]. cbn [Py.keys map fst] in Hnd.
    assert (Hn : ~ In n (Py.keys out)).
    { intros Hin. apply NoDup_remove_2 in Hnd. apply Hnd, in_or_app. left; exact Hin. }
    rewrite (set_new out n p Hn).
    destruct (IH (out ++ [(n, p)])%list) as (tail & -> & Ht).
    + unfold Py.keys. rewrite map_app, <- app_assoc. exact Hnd.
    + intros n' v' H. apply (Hc n' v'). right; exact H.
    + exists ((n, p) :: tail). rewrite <- app_assoc. split; [reflexivity|].
      constructor; [split; [reflexivity|exact Hp]|exact Ht].
Qed.

Lemma planetposition_items_result items : forall out,
  (exists d, Calculator.planetposition_items out items = Found d /\
             forall n v, In (n, v) items -> complete v) \/
  (exists k, Calculator.planetposition_items out items = KeyError k /\
             In k ["lon"; "lat"; "distance"] /\
             exists n v, In (n, v) items /\ ~ complete v).
Proof.
  induction items as [|[n v] items IH]; intros out; cbn [Calculator.planetposition_items].
  - left. eexists. split; [reflexivity|]. intros n v [].
  - destruct (planet_position_result n v) as [(p & -> & Hc)|(k & -> & Hk & Hn)];
      cbn [bind_found].
    + destruct (IH (Py.set out n p)) as [(d & -> & Hd)|(k & -> & Hk & n' & v' & Hin & Hn)].
      * left. eexists. split; [reflexivity|].
        intros n' v' [[= <- <-]|H]; [exact Hc|apply (Hd n' v' H)].
      * right. exists k. split; [reflexivity|]. split; [exact Hk|].
        exists n', v'. split; [right; exact Hin|exact Hn].
    + right. exists k. split; [reflexivity|]. split; [exact Hk|].
      exists n, v. split; [left; reflexivity|exact Hn].
Qed.

(** X15: On raw positions that each hold lon, lat and distance,
    to_planetposition_dict returns a dictionary with the same keys in the
    same order, whose records carry the key as name and the same three
    values; if some raw position lacks a field it raises KeyError for 'lon',
    'lat' or 'distance'. *)
Theorem to_planetposition_dict_records :
  forall positions : Py.dict (Py.dict float),
    NoDup (Py.keys positions) ->
    ((forall n v, In (n, v) positions -> complete v) ->
     exists d,
       Calculator.to_planetposition_dict positions = Found d /\
       Py.keys d = Py.keys positions /\
       Forall2 (fun raw rec => fst rec = fst raw /\
                               record_of (fst raw) (snd raw) (snd rec))
               positions d) /\
    ((exists n v, In (n, v) positions /\ ~ complete v) ->
     exists k, Calculator.to_planetposition_dict positions = KeyError k /\
               In k ["lon"; "lat"; "distance"]).
Proof.
  intros positions Hnd. unfold Calculator.to_planetposition_dict. split.
  - intros Hc. destruct (planetposition_items_found positions [] Hnd Hc) as (d & -> & Hd).
    exists d. cbn [app]. split; [reflexivity|]. split; [|exact Hd].
    clear Hnd Hc. induction Hd as [|[n v] [n' p] l l' [H1 H2] Hd IH]; [reflexivity|].
    cbn in H1. subst n'. cbn. f_equal. exact IH.
  - intros (n & v & Hin & Hn).
    destruct (planetposition_items_result positions [])
      as [(d & _ & Hd)|(k & Hk & Hin' & _)].
    + exfalso. apply Hn, (Hd n v Hin).
    + exists k. split; assumption.
Qed.

(** ** Negative numbers

    A negative finite number is the opposite of a positive one: the
    operations commute with the sign. *)

Lemma binary_round_aux_opp s mx ex lx :
  binary_round_aux prec emax (negb s) mx ex lx
  = SFopp (binary_round_aux prec emax s mx ex lx).
Proof.
  unfold binary_round_aux.
  destruct (shr_fexp prec emax mx ex lx) as [mrs' e'].
  destruct (shr_fexp prec emax _ e' loc_Exact) as [mrs'' e''].
  destruct (shr_m mrs''); [reflexivity| |reflexivity].
  destruct (e'' <=? emax - prec); reflexivity.
Qed.

Lemma binary_round_opp s m e :
  binary_round prec emax (negb s) m e = SFopp (binary_round prec emax s m e).
Proof.
  unfold binary_round. destruct (shl_align m e _) as [mz ez].
  apply binary_round_aux_opp.
Qed.

Lemma binary_round_true m e :
  binary_round prec emax true m e = SFopp (binary_round prec emax false m e).
Proof. apply (binary_round_opp false). Qed.

Lemma binary_round_false m e :
  binary_round prec emax false m e = SFopp (binary_round prec emax true m e).
Proof.
  rewrite binary_round_true. destruct (binary_round prec emax false m e) as [[|]|[|]| |[|] ? ?];
    reflexivity.
Qed.

Lemma binary_normalize_opp n e :
  n <> 0 ->
  binary_normalize prec emax (- n) e false
  = SFopp (binary_normalize prec emax n e false).
Proof.
  intros Hn. destruct n as [|p|p]; [contradiction| |]; cbn [Z.opp binary_normalize].
  - apply binary_round_true.
  - apply binary_round_false.
Qed.

Lemma opp_fin_sf x v :
  fin x v -> exists m e, Prim2SF (- x) = S754_finite true m e /\ val (Z.pos m) e = v.
Proof.
  intros (m & e & Hx & Hv). exists m, e. rewrite opp_spec, Hx. split; [reflexivity|exact Hv].
Qed.

Lemma opp_opp x : (- - x)%float = x.
Proof.
  apply Prim2SF_inj. rewrite !opp_spec.
  destruct (Prim2SF x); cbn; rewrite ?negb_involutive; reflexivity.
Qed.

Lemma abs_opp_fin x v : fin x v -> abs (- x) = x.
Proof.
  intros (m & e & Hx & _). apply Prim2SF_inj. rewrite abs_spec, opp_spec, Hx. reflexivity.
Qed.

Lemma abs_fin x v : fin x v -> abs x = x.
Proof.
  intros (m & e & Hx & _). apply Prim2SF_inj. rewrite abs_spec, Hx. reflexivity.
Qed.

Lemma opp_fin_tests x v :
  fin x v -> (- x =? 0.0)%float = false /\ (- x <? 0.0)%float = true.
Proof.
  intros (m & e & Hx & _). rewrite eqb_spec, ltb_spec, opp_spec, Hx. split; reflexivity.
Qed.

(** [a - b = -(b - a)], the values being different. *)
Lemma sub_antisym x y v w :
  fin x v -> fin y w -> v <> w -> (x - y)%float = (- (y - x))%float.
Proof.
  intros Hx Hy Hne. apply fin_canonical in Hx, Hy.
  destruct Hx as (mx & ex & Hx & Hvx & Hcx & _), Hy as (my & ey & Hy & Hvy & Hcy & _).
  pose proof (canonical_emin _ _ Hcx). pose proof (canonical_emin _ _ Hcy).
  apply Prim2SF_inj. rewrite opp_spec, !sub_spec, Hx, Hy.
  unfold SF64sub. cbn [SFsub cond_Zopp].
  rewrite (Z.min_comm ey ex). set (ez := Z.min ex ey).
  pose proof (align_val mx ex ez ltac:(lia) ltac:(lia)) as Hax.
  pose proof (align_val my ey ez ltac:(lia) ltac:(lia)) as Hay.
  rewrite <- binary_normalize_opp by (intros E; nia).
  f_equal; lia.
Qed.

(** [-a + b = b - a] *)
Lemma add_opp_l x y v w : fin x v -> fin y w -> (- x + y)%float = (y - x)%float.
Proof.
  intros (mx & ex & Hx & _) (my & ey & Hy & _).
  apply Prim2SF_inj. rewrite add_spec, sub_spec, opp_spec, Hx, Hy.
  unfold SF64add, SF64sub. cbn [SFadd SFsub SFopp negb cond_Zopp].
  rewrite (Z.min_comm ey ex). f_equal; lia.
Qed.

Lemma sffmod_opp sx mx ex sy my ey :
  Py.SFfmod (S754_finite (negb sx) mx ex) (S754_finite sy my ey)
  = SFopp (Py.SFfmod (S754_finite sx mx ex) (S754_finite sy my ey)).
Proof.
  cbn [Py.SFfmod].
  destruct ((Z.pos mx * 2 ^ (ex - Z.min ex ey)) mod (Z.pos my * 2 ^ (ey - Z.min ex ey)))
    as [|r|r] eqn:E.
  - destruct sx; reflexivity.
  - destruct sx; cbn [cond_Zopp negb binary_normalize Z.opp].
    + apply binary_round_false.
    + apply binary_round_true.
  - destruct sx; cbn [cond_Zopp negb binary_normalize Z.opp].
    + apply binary_round_true.
    + apply binary_round_false.
Qed.

(** The remainder of two positive numbers, as [SFfmod] builds it. *)
Lemma sffmod_fin x y v w :
  fin x v -> fin y w ->
  (v mod w = 0 /\ Py.SFfmod (Prim2SF x) (Prim2SF y) = S754_zero false) \/
  (0 < v mod w /\
   exists p E, Py.SFfmod (Prim2SF x) (Prim2SF y) = S754_finite false p E /\
               bounded prec emax p E = true /\ val (Z.pos p) E = v mod w).
Proof.
  intros Hx Hy. apply fin_canonical in Hx, Hy.
  destruct Hx as (mx & ex & Hx & Hvx & Hcx & Hex), Hy as (my & ey & Hy & Hvy & Hcy & Hey).
  pose proof (canonical_emin _ _ Hcx). pose proof (canonical_emin _ _ Hcy).
  pose proof (canonical_lt_2_53 _ _ Hcx). pose proof (canonical_lt_2_53 _ _ Hcy).
  rewrite Hx, Hy. cbn [Py.SFfmod cond_Zopp].
  set (e := Z.min ex ey).
  set (X := Z.pos mx * 2 ^ (ex - e)). set (Y := Z.pos my * 2 ^ (ey - e)).
  pose proof (pow2_gt0 (ex - e) ltac:(lia)). pose proof (pow2_gt0 (ey - e) ltac:(lia)).
  pose proof (pow2_gt0 (e + K) ltac:(lia)) as Hpe.
  assert (HX : v = X * 2 ^ (e + K)).
  { rewrite <- Hvx. unfold val, X. rewrite <- Z.mul_assoc, <- pow2_add by lia.
    f_equal. f_equal. lia. }
  assert (HY : w = Y * 2 ^ (e + K)).
  { rewrite <- Hvy. unfold val, Y. rewrite <- Z.mul_assoc, <- pow2_add by lia.
    f_equal. f_equal. lia. }
  assert (HY0 : 0 < Y) by (unfold Y; nia).
  assert (HX0 : 0 < X) by (unfold X; nia).
  assert (Hmod : v mod w = (X mod Y) * 2 ^ (e + K)).
  { rewrite HX, HY. apply Z.mul_mod_distr_r; lia. }
  pose proof (Z.mod_pos_bound X Y HY0) as Hr.
  assert (Hrx : X mod Y <= X) by (apply Z.mod_le; lia).
  assert (Hr53 : X mod Y < 2 ^ 53).
  { destruct (Z_le_gt_dec ex ey).
    - assert (X = Z.pos mx); [|lia].
      unfold X. replace (ex - e) with 0 by lia. lia.
    - assert (Y = Z.pos my); [|lia].
      unfold Y. replace (ey - e) with 0 by lia. lia. }
  destruct (X mod Y) as [|r|r] eqn:Er; try lia.
  - left. split; [rewrite Hmod; lia|reflexivity].
  - right. split; [rewrite Hmod; lia|]. rewrite Hmod.
    destruct (repr_dyadic (Z.pos r) e ltac:(lia) ltac:(lia)) as (M & E & HC & HE & HM).
    cbn [binary_normalize].
    rewrite (binary_round_exact false r e M E ltac:(lia) HC ltac:(unfold val at 1; lia)).
    destruct HC as [HM0 HC]. destruct M as [|p|p]; try lia.
    unfold round_result.
    replace (E <=? emax - prec) with true
      by (symmetry; apply Z.leb_le; change (emax - prec) with 971; lia).
    exists p, E. split; [reflexivity|]. split; [|exact HM].
    apply bounded_canonical. split; [split; assumption|lia].
Qed.

(** [fmod(-x, y) = -fmod(x, y)] *)
Lemma fmod_opp x y v w :
  fin x v -> fin y w ->
  (v mod w = 0 -> Py.fmod (- x) y = (-0.0)%float) /\
  (0 < v mod w ->
   exists r, fin r (v mod w) /\ Py.fmod x y = r /\ Py.fmod (- x) y = (- r)%float).
Proof.
  intros Hx Hy.
  assert (E : Py.SFfmod (Prim2SF (- x)) (Prim2SF y)
              = SFopp (Py.SFfmod (Prim2SF x) (Prim2SF y))).
  { destruct Hx as (mx & ex & Hx & _), Hy as (my & ey & Hy & _).
    rewrite opp_spec, Hx, Hy. apply (sffmod_opp false). }
  unfold Py.fmod. rewrite E.
  destruct (sffmod_fin x y v w Hx Hy) as [[H0 ->]|(Hpos & p & e & -> & Hb & Hv)].
  - split; [intros _; reflexivity|lia].
  - split; [lia|]. intros _. exists (SF2Prim (S754_finite false p e)).
    assert (Hp : Prim2SF (SF2Prim (S754_finite false p e)) = S754_finite false p e)
      by (apply Prim2SF_SF2Prim; exact Hb).
    split; [exists p, e; split; [exact Hp|exact Hv]|]. split; [reflexivity|].
    apply Prim2SF_inj. rewrite opp_spec, Hp.
    apply Prim2SF_SF2Prim. exact Hb.
Qed.

(** ** A difference of positive numbers *)

Lemma unit_multiple m e : -1074 <= e -> val m e = (m * 2 ^ (e + 1074)) * val 1 (-1074).
Proof.
  intros He. unfold val. rewrite Z.mul_1_l, <- Z.mul_assoc, <- pow2_add by lia.
  f_equal. f_equal. lia.
Qed.

Lemma canonical_unit : canonical 1 (-1074).
Proof. split; [lia|reflexivity]. Qed.

Lemma sub_bounds x y v w :
  fin x v -> fin y w -> w < v ->
  exists u, fin (x - y)%float u /\ u <= v /\
            (forall c, repr c -> v - w <= c -> u <= c) /\
            (forall c, repr c -> c <= v - w -> c <= u).
Proof.
  intros Hx Hy Hlt. apply fin_canonical in Hx, Hy.
  destruct Hx as (mx & ex & Hx & Hvx & Hcx & Hex), Hy as (my & ey & Hy & Hvy & Hcy & Hey).
  pose proof (canonical_emin _ _ Hcx) as Hex'. pose proof (canonical_emin _ _ Hcy) as Hey'.
  destruct (SFsub_pos mx ex my ey) as (m2 & e2 & Hm2 & Hc2 & Hres & Hlo & Hhi); try lia.
  rewrite Hvx, Hvy in Hlo, Hhi.
  assert (Hu : val 1 (-1074) <= v - w).
  { pose proof (val_pos 1 (-1074) ltac:(lia) ltac:(lia)) as Hp.
    pose proof (unit_multiple (Z.pos mx) ex Hex') as Ex.
    pose proof (unit_multiple (Z.pos my) ey Hey') as Ey.
    rewrite Hvx in Ex. rewrite Hvy in Ey.
    set (U := val 1 (-1074)) in *.
    set (A := Z.pos mx * 2 ^ (ex + 1074)) in *.
    set (B := Z.pos my * 2 ^ (ey + 1074)) in *.
    assert (B < A) by nia. rewrite Ex, Ey. nia. }
  pose proof (Hlo 1 (-1074) canonical_unit Hu) as H1.
  pose proof (val_pos 1 (-1074) ltac:(lia) ltac:(lia)) as Hp.
  assert (H0 : 0 < m2).
  { destruct (Z.eq_dec m2 0) as [E0|]; [|lia]. rewrite E0 in H1.
    change (val 0 e2) with 0 in H1. lia. }
  specialize (Hc2 H0).
  assert (Hw : 0 < w) by (rewrite <- Hvy; apply val_pos; lia).
  assert (Hle : val m2 e2 <= v) by (rewrite <- Hvx; apply Hhi; [exact Hcx|lia]).
  assert (He2 : e2 <= 971).
  { pose proof (canonical_le_exp m2 e2 _ ex Hc2 Hcx ltac:(lia)). lia. }
  exists (val m2 e2). split; [|split; [exact Hle|split]].
  - apply (round_result_fin _ m2 e2); auto. rewrite sub_spec, Hx, Hy. exact Hres.
  - intros c (M & E & HC & _ & <-) Hc. apply Hhi; assumption.
  - intros c (M & E & HC & _ & <-) Hc. apply Hlo; assumption.
Qed.

(** ** The remainder by 360 *)

Lemma finite_cases x :
  finite x = true ->
  (exists s, Prim2SF x = S754_zero s) \/ (exists v, fin x v) \/
  (exists z v, x = (- z)%float /\ fin z v).
Proof.
  unfold finite. rewrite ltb_spec, abs_spec.
  change (Prim2SF infinity) with (S754_infinity false).
  destruct (Prim2SF x) as [s|s| |[|] m e] eqn:E; cbn; try discriminate; intros _.
  - left. eauto.
  - right; right. exists (- x)%float, (val (Z.pos m) e). split; [symmetry; apply opp_opp|].
    exists m, e. rewrite opp_spec, E. split; reflexivity.
  - right; left. exists (val (Z.pos m) e), m, e. auto.
Qed.

Lemma not_finite_cases x :
  finite x = false -> x = nan \/ x = infinity \/ x = neg_infinity.
Proof.
  unfold finite. rewrite ltb_spec, abs_spec.
  change (Prim2SF infinity) with (S754_infinity false).
  destruct (Prim2SF x) as [s|[|]| |[|] m e] eqn:E; cbn; try discriminate; intros _.
  - right; right. apply Prim2SF_inj. rewrite E. reflexivity.
  - right; left. apply Prim2SF_inj. rewrite E. reflexivity.
  - left. apply Prim2SF_inj. rewrite E. reflexivity.
Qed.

Lemma float_rem_zero s x : Prim2SF x = S754_zero s -> Py.float_rem x 360.0 = 0.0%float.
Proof.
  intros H. destruct (zero_float s x H) as [-> | ->]; vm_compute; reflexivity.
Qed.

Lemma float_rem_fin x v :
  fin x v ->
  (v mod (46080 * u7) = 0 /\ Py.float_rem x 360.0 = 0.0%float) \/
  (0 < v mod (46080 * u7) /\ fin (Py.float_rem x 360.0) (v mod (46080 * u7))).
Proof.
  intros Hx. pose proof u7_pos as Hu.
  destruct (fmod_fin x _ v _ Hx fin_360) as [H0 H1].
  pose proof (Z.mod_pos_bound v (46080 * u7) ltac:(lia)) as Hb.
  destruct (Z.eq_dec (v mod (46080 * u7)) 0) as [E|NE].
  - left. split; [exact E|]. unfold Py.float_rem.
    rewrite (float_div_mod_zero _ _ (H0 E)). reflexivity.
  - right. split; [lia|]. specialize (H1 ltac:(lia)). unfold Py.float_rem.
    rewrite (float_div_mod_pos _ _ _ _ eq_refl H1) by reflexivity. exact H1.
Qed.

Lemma float_rem_opp z v :
  fin z v ->
  (v mod (46080 * u7) = 0 /\ Py.float_rem (- z) 360.0 = 0.0%float) \/
  (0 < v mod (46080 * u7) /\
   exists r, fin r (v mod (46080 * u7)) /\
             Py.float_rem (- z) 360.0 = (360.0 - r)%float).
Proof.
  intros Hz. pose proof u7_pos as Hu.
  destruct (fmod_opp z _ v _ Hz fin_360) as [H0 H1].
  pose proof (Z.mod_pos_bound v (46080 * u7) ltac:(lia)) as Hb.
  destruct (Z.eq_dec (v mod (46080 * u7)) 0) as [E|NE].
  - left. split; [exact E|]. unfold Py.float_rem, Py.float_div_mod.
    rewrite (H0 E). reflexivity.
  - right. split; [lia|]. destruct (H1 ltac:(lia)) as (r & Hr & _ & Hm).
    exists r. split; [exact Hr|]. unfold Py.float_rem, Py.float_div_mod.
    rewrite Hm. destruct (opp_fin_tests r _ Hr) as [-> ->].
    change (360.0 <? 0.0)%float with false. cbn [negb Bool.eqb snd].
    apply (add_opp_l r _ _ _ Hr fin_360).
Qed.

(** The remainder by 360 of a finite number is [0.0] or a positive number
    up to 360, and 360 itself is reached. *)
Lemma float_rem_range x :
  finite x = true ->
  Py.float_rem x 360.0 = 0.0%float \/
  exists u, fin (Py.float_rem x 360.0) u /\ u <= 46080 * u7 /\
            ((0.0 <=? x)%float = true -> u < 46080 * u7).
Proof.
  intros Hf. pose proof u7_pos as Hu.
  destruct (finite_cases x Hf) as [(s & Hs)|[(v & Hv)|(z & v & -> & Hz)]].
  - left. eapply float_rem_zero, Hs.
  - pose proof (Z.mod_pos_bound v (46080 * u7) ltac:(lia)) as Hb.
    destruct (float_rem_fin x v Hv) as [[_ H]|[Hpos H]]; [left; exact H|].
    right. exists (v mod (46080 * u7)). split; [exact H|]. split; lia.
  - pose proof (Z.mod_pos_bound v (46080 * u7) ltac:(lia)) as Hb.
    destruct (float_rem_opp z v Hz) as [[_ H]|(Hpos & r & Hr & H)]; [left; exact H|].
    right. rewrite H.
    destruct (sub_bounds _ r _ _ fin_360 Hr ltac:(lia)) as (u & Hfu & Hle & _).
    exists u. split; [exact Hfu|]. split; [exact Hle|].
    intros H0. exfalso. destruct Hz as (m & e & Hz & _).
    rewrite leb_spec, opp_spec, Hz in H0. discriminate.
Qed.

(** ** The sign of a remainder *)

Lemma segment_of r u :
  fin r u -> u < 46080 * u7 ->
  exists k, (k < 12)%nat /\ in_segment r k = true /\
            Py.int_of_float (Py.float_floor_div r 30.0) = Ok (Z.of_nat k).
Proof.
  intros Hv H360. pose proof u7_pos as Hu.
  pose proof (fin_pos _ _ Hv) as Hv0.
  set (q := u / (3840 * u7)).
  pose proof (Z.div_mod u (3840 * u7) ltac:(lia)) as Hdm.
  pose proof (Z.mod_pos_bound u (3840 * u7) ltac:(lia)) as Hmb.
  fold q in Hdm.
  assert (Hq : 0 <= q < 12)
    by (split; [apply Z.div_pos; lia|apply Z.div_lt_upper_bound; lia]).
  exists (Z.to_nat q). split; [lia|].
  assert (Hb : 3840 * Z.of_nat (Z.to_nat q) * u7 <= u
               < 3840 * (Z.of_nat (Z.to_nat q) + 1) * u7) by (rewrite Z2Nat.id; lia).
  split.
  - unfold in_segment. apply andb_true_iff. split.
    + destruct (Z.to_nat q) as [|k] eqn:Ek.
      * destruct Hv as (m & e & Hr & _). cbn [segment_start nth].
        rewrite leb_spec, Hr. reflexivity.
      * rewrite (leb_fin _ _ _ _ (fin_segment_start (S k) ltac:(lia)) Hv).
        apply Z.leb_le. lia.
    + rewrite (ltb_fin _ _ _ _ Hv (fin_segment_start (S (Z.to_nat q)) ltac:(lia))).
      apply Z.ltb_lt. rewrite Nat2Z.inj_succ. lia.
  - rewrite (float_floor_div_30 r u (Z.to_nat q) Hv ltac:(lia) Hb).
    apply int_of_whole. lia.
Qed.

(** The index that both sign functions compute, on a finite longitude:
    a segment of the remainder, or 12 when the remainder is 360. *)
Lemma sign_index lon :
  finite lon = true ->
  (exists k, (k < 12)%nat /\ in_segment (Py.float_rem lon 360.0) k = true /\
             Py.int_of_float (Py.float_floor_div (Py.float_rem lon 360.0) 30.0)
             = Ok (Z.of_nat k)) \/
  (Py.float_rem lon 360.0 = 360.0%float /\ (0.0 <=? lon)%float = false /\
   Py.int_of_float (Py.float_floor_div (Py.float_rem lon 360.0) 30.0) = Ok 12).
Proof.
  intros Hf. destruct (float_rem_range lon Hf) as [E|(u & Hu & Hle & Hlt)].
  - left. exists 0%nat. rewrite E. split; [lia|]. split; vm_compute; reflexivity.
  - destruct (Z.eq_dec u (46080 * u7)) as [->|Hne].
    + right. rewrite (fin_inj _ _ _ Hu fin_360).
      split; [reflexivity|]. split; [|vm_compute; reflexivity].
      destruct (0.0 <=? lon)%float; [|reflexivity]. specialize (Hlt eq_refl). lia.
    + left. apply (segment_of _ u Hu). lia.
Qed.

Lemma nth_signs_in k : (k < 12)%nat -> In (nth k Engine.signs EmptyString) Engine.signs.
Proof. intros Hk. apply nth_In. exact Hk. Qed.

Lemma infer_sign_finite lon :
  finite lon = true ->
  (exists k, (k < 12)%nat /\ in_segment (Py.float_rem lon 360.0) k = true /\
             Engine._infer_sign_from_lon lon = Ok (nth k Engine.signs EmptyString)) \/
  (Py.float_rem lon 360.0 = 360.0%float /\ (0.0 <=? lon)%float = false /\
   Engine._infer_sign_from_lon lon = Raise IndexError /\
   Calculator.zodiac_sign_from_longitude lon = Ok "Aries").
Proof.
  intros Hf. unfold Engine._infer_sign_from_lon, Calculator.zodiac_sign_from_longitude,
    Calculator.normalize_angle. cbn zeta.
  destruct (sign_index lon Hf) as [(k & Hk & Hs & ->)|(E & H0 & ->)]; cbn [bind].
  - left. exists k. split; [exact Hk|]. split; [exact Hs|]. apply index_signs, Hk.
  - right. split; [exact E|]. split; [exact H0|]. split; reflexivity.
Qed.

Lemma infer_sign_not_finite lon :
  finite lon = false ->
  Engine._infer_sign_from_lon lon = Raise ValueError /\
  Calculator.zodiac_sign_from_longitude lon = Raise ValueError.
Proof.
  intros H. destruct (not_finite_cases lon H) as [->|[->| ->]];
    split; vm_compute; reflexivity.
Qed.

(** X1: For every finite longitude lon >= 0, however large,
    _infer_sign_from_lon(lon) returns the sign of lon % 360: the remainder r
    lies in [0, 360), a second % 360 leaves it unchanged, and the result is
    signs[k] for the segment k with 30k <= r < 30(k+1). *)
Theorem infer_sign_wraps_around :
  forall lon : float,
    finite lon = true -> (0.0 <=? lon)%float = true ->
    let r := Py.float_rem lon 360.0 in
    lon_in_range r = true /\ Py.float_rem r 360.0 = r /\
    exists k, (k < 12)%nat /\ in_segment r k = true /\
      Engine._infer_sign_from_lon lon = Ok (nth k Engine.signs EmptyString) /\
      Engine._infer_sign_from_lon r = Ok (nth k Engine.signs EmptyString).
Proof.
  intros lon Hf H0. cbn zeta. pose proof u7_pos as Hu7.
  assert (Hr : Py.float_rem lon 360.0 = 0.0%float \/
               exists u, fin (Py.float_rem lon 360.0) u /\ u < 46080 * u7).
  { destruct (float_rem_range lon Hf) as [E|(u & Hu & Hle & Hlt)]; [left; exact E|].
    right. exists u. split; [exact Hu|apply Hlt, H0]. }
  assert (Hidem : Py.float_rem (Py.float_rem lon 360.0) 360.0 = Py.float_rem lon 360.0).
  { destruct Hr as [->|(u & Hu & Hlt)]; [vm_compute; reflexivity|].
    apply (float_rem_small _ u Hu Hlt). }
  assert (Hrange : lon_in_range (Py.float_rem lon 360.0) = true).
  { destruct Hr as [->|(u & Hu & Hlt)]; [vm_compute; reflexivity|].
    unfold lon_in_range. apply andb_true_iff. split.
    - destruct Hu as (m & e & Hm & _). rewrite leb_spec, Hm. reflexivity.
    - rewrite (ltb_fin _ _ _ _ Hu fin_360). apply Z.ltb_lt. exact Hlt. }
  split; [exact Hrange|]. split; [exact Hidem|].
  destruct (infer_sign_finite lon Hf) as [(k & Hk & Hs & Hi)|(_ & Hn & _)];
    [|rewrite H0 in Hn; discriminate].
  exists k. split; [exact Hk|]. split; [exact Hs|]. split; [exact Hi|].
  unfold Engine._infer_sign_from_lon in *. rewrite Hidem. exact Hi.
Qed.

(** X2: _infer_sign_from_lon raises ValueError on nan and on both
    infinities. On a finite longitude it returns one of the twelve signs or
    raises IndexError, the latter only for a negative longitude whose lon %
    360 rounds to 360.0, as it does for -2^-67. *)
Theorem infer_sign_errors :
  (forall lon, finite lon = false ->
     Engine._infer_sign_from_lon lon = Raise ValueError) /\
  (forall lon, finite lon = true ->
     (exists s, Engine._infer_sign_from_lon lon = Ok s /\ In s Engine.signs) \/
     (Engine._infer_sign_from_lon lon = Raise IndexError /\
      (0.0 <=? lon)%float = false /\ Py.float_rem lon 360.0 = 360.0%float)) /\
  Engine._infer_sign_from_lon Sample.just_below_zero = Raise IndexError.
Proof.
  split; [|split].
  - intros lon H. apply infer_sign_not_finite, H.
  - intros lon Hf.
    destruct (infer_sign_finite lon Hf) as [(k & Hk & _ & Hi)|(E & Hn & Hi & _)].
    + left. eexists. split; [exact Hi|apply nth_signs_in, Hk].
    + right. split; [exact Hi|]. split; assumption.
  - vm_compute. reflexivity.
Qed.

(** X13: zodiac_sign_from_longitude returns one of the twelve signs for
    every finite longitude and raises ValueError on nan and the infinities;
    at -2^-67 it returns Aries where the engine's _infer_sign_from_lon
    raises IndexError. *)
Theorem zodiac_sign_total :
  (forall lon, finite lon = true ->
     exists s, Calculator.zodiac_sign_from_longitude lon = Ok s /\
               In s Calculator.SIGN_NAMES) /\
  (forall lon, finite lon = false ->
     Calculator.zodiac_sign_from_longitude lon = Raise ValueError) /\
  (Calculator.zodiac_sign_from_longitude Sample.just_below_zero = Ok "Aries" /\
   Engine._infer_sign_from_lon Sample.just_below_zero = Raise IndexError).
Proof.
  split; [|split].
  - intros lon Hf.
    destruct (infer_sign_finite lon Hf) as [(k & Hk & _ & Hi)|(_ & _ & _ & Hz)].
    + exists (nth k Engine.signs EmptyString). split; [|apply nth_signs_in, Hk].
      revert Hi. unfold Engine._infer_sign_from_lon,
        Calculator.zodiac_sign_from_longitude, Calculator.normalize_angle. cbn zeta.
      destruct (Py.int_of_float _) as [i|e]; cbn [bind]; [|discriminate].
      intros H. apply index_mod in H. exact H.
    + exists "Aries". split; [exact Hz|]. left; reflexivity.
  - intros lon H. apply infer_sign_not_finite, H.
  - split; vm_compute; reflexivity.
Qed.

(** ** Normalized angles *)

Lemma fin_leb_zero x v : fin x v -> (0.0 <=? x)%float = true.
Proof. intros (m & e & Hm & _). rewrite leb_spec, Hm. reflexivity. Qed.

(** X12: For every finite angle normalize_angle returns r with 0 <= r <=
    360; for an angle >= 0, r < 360, r is the exact remainder and
    normalizing again changes nothing. The bound 360, outside the documented
    [0, 360), is attained: normalize_angle(-2^-67) = 360.0. *)
Theorem normalize_angle_range :
  (forall angle, finite angle = true ->
     let r := Calculator.normalize_angle angle in
     (0.0 <=? r)%float = true /\ (r <=? 360.0)%float = true /\
     ((0.0 <=? angle)%float = true ->
      (r <? 360.0)%float = true /\ Calculator.normalize_angle r = r)) /\
  (forall angle v, fin angle v ->
     (v mod (360 * 2 ^ K) = 0 /\ Calculator.normalize_angle angle = 0.0%float) \/
     fin (Calculator.normalize_angle angle) (v mod (360 * 2 ^ K))) /\
  Calculator.normalize_angle Sample.just_below_zero = 360.0%float.
Proof.
  pose proof u7_pos as Hu7. split; [|split].
  - intros angle Hf. cbn zeta. unfold Calculator.normalize_angle.
    destruct (float_rem_range angle Hf) as [->|(u & Hu & Hle & Hlt)].
    + split; [reflexivity|]. split; [reflexivity|]. intros _. split; vm_compute; reflexivity.
    + split; [apply (fin_leb_zero _ u Hu)|]. split.
      * rewrite (leb_fin _ _ _ _ Hu fin_360). apply Z.leb_le. exact Hle.
      * intros H0. specialize (Hlt H0). split.
        -- rewrite (ltb_fin _ _ _ _ Hu fin_360). apply Z.ltb_lt. exact Hlt.
        -- apply (float_rem_small _ u Hu Hlt).
  - intros angle v Hv. unfold Calculator.normalize_angle.
    replace (360 * 2 ^ K) with (46080 * u7) by (rewrite unit_u7; lia).
    destruct (float_rem_fin angle v Hv) as [[H0 E]|[_ H]]; [left; split|right]; assumption.
  - vm_compute. reflexivity.
Qed.

(** ** The angle between two longitudes *)

Lemma fin_180 : fin 180.0%float (23040 * u7). Proof. fin_const. Qed.

Lemma fin_finite x v : fin x v -> finite x = true.
Proof.
  intros (m & e & Hx & _). unfold finite. rewrite ltb_spec, abs_spec, Hx. reflexivity.
Qed.

Lemma opp_finite z v : fin z v -> finite (- z) = true.
Proof.
  intros (m & e & Hx & _). unfold finite. rewrite ltb_spec, abs_spec, opp_spec, Hx.
  reflexivity.
Qed.

Lemma in_range_cases a :
  lon_in_range a = true ->
  (exists s, Prim2SF a = S754_zero s) \/ exists v, fin a v /\ v < 46080 * u7.
Proof.
  unfold lon_in_range. intros H. apply andb_true_iff in H. destruct H as [H0 H360].
  destruct (leb_zero_cases a H0) as [Hs|[(v & Hv)|Hinf]].
  - left; exact Hs.
  - right. exists v. split; [exact Hv|].
    rewrite (ltb_fin _ _ _ _ Hv fin_360) in H360. apply Z.ltb_lt. exact H360.
  - rewrite ltb_spec, Hinf in H360. discriminate.
Qed.

Lemma diff_finite a b :
  lon_in_range a = true -> lon_in_range b = true -> finite (a - b)%float = true.
Proof.
  intros Ha Hb.
  destruct (in_range_cases a Ha) as [(sa & Hsa)|(v & Hv & _)];
    destruct (in_range_cases b Hb) as [(sb & Hsb)|(w & Hw & _)].
  - destruct (zero_float _ _ Hsa) as [-> | ->], (zero_float _ _ Hsb) as [-> | ->];
      vm_compute; reflexivity.
  - destruct Hw as (m & e & Hw & _). unfold finite.
    rewrite ltb_spec, abs_spec, sub_spec, Hsa, Hw. reflexivity.
  - destruct Hv as (m & e & Hv & _). unfold finite.
    rewrite ltb_spec, abs_spec, sub_spec, Hsb, Hv. reflexivity.
  - destruct (Z.lt_trichotomy v w) as [Hlt|[Heq|Hgt]].
    + rewrite (sub_antisym a b v w Hv Hw ltac:(lia)).
      destruct (sub_bounds b a w v Hw Hv Hlt) as (u & Hu & _).
      apply (opp_finite _ u Hu).
    + subst w. rewrite (fin_inj _ _ _ Hw Hv), (sub_self a v Hv). reflexivity.
    + destruct (sub_bounds a b v w Hv Hw Hgt) as (u & Hu & _).
      apply (fin_finite _ u Hu).
Qed.

(** The fold of a remainder into [[0, 180]]. *)
Lemma fold_half_turn r :
  r = 0.0%float \/ (exists u, fin r u /\ u <= 46080 * u7) ->
  let diff := abs r in
  let d := if (180.0 <? diff)%float then (360.0 - diff)%float else diff in
  d = 0.0%float \/ exists u, fin d u /\ u <= 23040 * u7.
Proof.
  pose proof u7_pos as Hu7. intros [->|(u & Hu & Hle)]; cbn zeta.
  - left. vm_compute. reflexivity.
  - rewrite (abs_fin r u Hu). rewrite (ltb_fin _ _ _ _ fin_180 Hu).
    destruct (23040 * u7 <? u) eqn:E; [apply Z.ltb_lt in E|apply Z.ltb_ge in E].
    + destruct (Z.eq_dec u (46080 * u7)) as [->|Hne].
      * left. rewrite (fin_inj _ _ _ Hu fin_360). apply (sub_self _ _ fin_360).
      * right. destruct (sub_bounds _ r _ _ fin_360 Hu ltac:(lia)) as (u' & Hu' & _ & Hhi & _).
        exists u'. split; [exact Hu'|]. apply Hhi; [|lia].
        apply repr_u7. change (2 ^ 53) with 9007199254740992. lia.
    + right. exists u. split; [exact Hu|exact E].
Qed.

Lemma angle_difference_finite a b :
  finite (a - b)%float = true ->
  (0.0 <=? AspectFinder.angle_difference a b)%float = true /\
  (AspectFinder.angle_difference a b <=? 180.0)%float = true.
Proof.
  intros Hf. unfold AspectFinder.angle_difference.
  assert (Hr : Py.float_rem (a - b) 360.0 = 0.0%float \/
               exists u, fin (Py.float_rem (a - b) 360.0) u /\ u <= 46080 * u7).
  { destruct (float_rem_range _ Hf) as [E|(u & Hu & Hle & _)]; [left; exact E|].
    right. exists u. split; assumption. }
  destruct (fold_half_turn _ Hr) as [E|(u & Hu & Hle)]; cbn zeta in *.
  - rewrite E. split; reflexivity.
  - split; [apply (fin_leb_zero _ u Hu)|].
    rewrite (leb_fin _ _ _ _ Hu fin_180). apply Z.leb_le. exact Hle.
Qed.

(** X16: angle_difference(a, b) lies in [0, 180] whenever a - b is finite,
    in particular for longitudes in [0, 360); otherwise it is nan, and no
    aspect matches it. *)
Theorem angle_difference_range :
  (forall a b, finite (a - b)%float = true ->
     (0.0 <=? AspectFinder.angle_difference a b)%float = true /\
     (AspectFinder.angle_difference a b <=? 180.0)%float = true) /\
  (forall a b, lon_in_range a = true -> lon_in_range b = true ->
     (0.0 <=? AspectFinder.angle_difference a b)%float = true /\
     (AspectFinder.angle_difference a b <=? 180.0)%float = true) /\
  (forall a b, finite (a - b)%float = false ->
     AspectFinder.angle_difference a b = nan /\
     forall p q, AspectFinder.first_aspect p q (AspectFinder.angle_difference a b)
                   AspectFinder.ASPECTS = None).
Proof.
  split; [exact angle_difference_finite|]. split.
  - intros a b Ha Hb. apply angle_difference_finite, diff_finite; assumption.
  - intros a b Hf.
    assert (E : AspectFinder.angle_difference a b = nan).
    { unfold AspectFinder.angle_difference.
      destruct (not_finite_cases _ Hf) as [-> |[-> | ->]]; vm_compute; reflexivity. }
    split; [exact E|]. intros p q. rewrite E. vm_compute. reflexivity.
Qed.

(** ** Saturation of the tension index *)

Lemma add_at_least a b c x y :
  repr c -> c <= a + b -> at_least a x -> at_least b y -> at_least c (x + y)%float.
Proof.
  intros Hr Hab Hx Hy. pose proof (repr_pos c Hr) as Hc0.
  destruct Hr as (M & E & HC & _ & HM).
  destruct Hx as [Hx|(v & Hx & Hv)].
  - left. rewrite add_spec, Hx. unfold SF64add.
    destruct Hy as [Hy|(w & Hy & _)];
      [|apply fin_canonical in Hy; destruct Hy as (m & e & Hy & _)];
      rewrite Hy; reflexivity.
  - apply fin_canonical in Hx. destruct Hx as (mx & ex & Hx & Hvx & Hcx & Hex).
    destruct Hy as [Hy|(w & Hy & Hw)].
    + left. rewrite add_spec, Hx, Hy. reflexivity.
    + apply fin_canonical in Hy. destruct Hy as (my & ey & Hy & Hvy & Hcy & Hey).
      pose proof (canonical_emin _ _ Hcx). pose proof (canonical_emin _ _ Hcy).
      destruct (SFadd_sandwich mx ex my ey) as (m2 & e2 & Hm2 & Hc2 & Hres & Hlo & _);
        try lia.
      apply (round_result_at_least c m2 e2); try assumption.
      * rewrite add_spec, Hx, Hy. exact Hres.
      * rewrite <- HM. apply Hlo; [exact HC|]. lia.
Qed.

Lemma tension_fold_count l : forall score n,
  0 < n -> 128 * (n + Z.of_nat (List.length l)) < 2 ^ 53 ->
  at_least (128 * n * u7) score ->
  at_least (128 * (n + Z.of_nat (List.length l)) * u7)
           (fold_left Engine.tension_step l score).
Proof.
  pose proof u7_pos as Hu.
  induction l as [|a l IH]; intros score n Hn Hlen Hs; cbn [fold_left List.length] in *.
  - replace (n + Z.of_nat 0) with n by lia. exact Hs.
  - rewrite Nat2Z.inj_succ in *.
    replace (n + Z.succ (Z.of_nat (List.length l)))
      with ((n + 1) + Z.of_nat (List.length l)) in * by lia.
    apply IH; [lia|lia|]. unfold Engine.tension_step. cbn zeta.
    apply (add_at_least (128 * n * u7) (128 * u7)).
    + replace (128 * (n + 1) * u7) with ((128 * (n + 1)) * u7) by lia.
      apply repr_u7. lia.
    + lia.
    + exact Hs.
    + apply contribution_at_least.
Qed.

Lemma tension_total_count l :
  l <> [] -> 128 * Z.of_nat (List.length l) < 2 ^ 53 ->
  at_least (128 * Z.of_nat (List.length l) * u7)
           (fold_left Engine.tension_step l 0.0%float).
Proof.
  destruct l as [|a l]; [congruence|]. intros _ Hlen. cbn [fold_left].
  cbn [List.length] in *. rewrite Nat2Z.inj_succ in *.
  replace (Z.succ (Z.of_nat (List.length l))) with (1 + Z.of_nat (List.length l)) in * by lia.
  apply tension_fold_count; [lia|exact Hlen|].
  replace (128 * 1 * u7) with (128 * u7) by lia.
  apply tension_step_at_least, zero_nonneg.
Qed.

Lemma tension_saturated l :
  orbs_nonneg l -> 40 <= Z.of_nat (List.length l) <= 2 ^ 43 ->
  Engine.tension_of_aspects l = Ok 100.
Proof.
  intros Ho Hlen. pose proof u7_pos as Hu.
  assert (H43 : 2 ^ 43 = 8796093022208) by reflexivity.
  assert (H53 : 2 ^ 53 = 9007199254740992) by reflexivity.
  assert (Hl : l <> []) by (intros ->; cbn in Hlen; lia).
  assert (Hs : at_least (100 * 2 ^ K) (scaled_total l)).
  { unfold scaled_total. rewrite unit_u7.
    replace (100 * (128 * u7)) with (12800 * u7) by lia.
    apply (mul_at_least (128 * u7) (12800 * u7)).
    - apply repr_u7. lia.
    - lia.
    - lia.
    - rewrite unit_u7. nia.
    - apply (div_at_least (5120 * u7) (5120 * u7)).
      + apply repr_u7. lia.
      + lia.
      + rewrite unit_u7. nia.
      + eapply at_least_weaken; [|apply (tension_total_count l Hl); lia]. nia.
      + apply fin_40.
    - apply fin_at_least, fin_100. }
  destruct (tension_returns l Ho ltac:(lia)) as (k & Hk & Hr & _).
  rewrite Hk. f_equal.
  unfold Engine.tension_of_aspects in Hk. cbn zeta in Hk. fold (scaled_total l) in Hk.
  destruct (int_of_float_at_least 100 _ ltac:(lia) Hs) as [E|(k' & E & Hk')];
    rewrite E in Hk; cbn [bind] in Hk; [discriminate|].
  injection Hk as <-. lia.
Qed.

(** X7: For every aspect list with no negative orb and between 40 and 2^43
    records, _compute_harmonic_tension returns exactly 100. *)
Theorem tension_saturates :
  forall l : list Aspect,
    orbs_nonneg l -> 40 <= Z.of_nat (List.length l) <= 2 ^ 43 ->
    Engine.tension_of_aspects l = Ok 100.
Proof. exact tension_saturated. Qed.

(** ** Coalitions *)

Lemma truthy_some k : k <> EmptyString -> Py.truthy (Some k) = true.
Proof. destruct k; [congruence|reflexivity]. Qed.

(** X5: For a chart without positions, if the rows of the Moon sign and of
    the Rising sign give the same pentatonic mode b and the row of the Sun
    sign gives another mode a, the scores are a = 3.0 and b = 4.5 and the
    primary pentatonic mode is b. *)
Theorem moon_and_rising_outvote_sun :
  forall (T : Tables) (chart : Chart) (a b : string),
    positions chart = [] ->
    Engine.pent_id_of (Py.get_default (modal_index T) (sun_sign chart) []) = Some a ->
    Engine.pent_id_of (Py.get_default (modal_index T) (moon_sign chart) []) = Some b ->
    Engine.pent_id_of (Py.get_default (modal_index T) (rising_sign chart) []) = Some b ->
    a <> EmptyString -> b <> EmptyString -> a <> b ->
    exists quad_scores primary_quad,
      Engine.votes T chart ([], []) (Engine.contributors chart)
        = Ok ([(a, 3.0%float); (b, 4.5%float)], quad_scores) /\
      Engine._aggregate_canonical_modes T chart = Ok (b, primary_quad).
Proof.
  intros T chart a b Hp Ha Hm Hr Ha0 Hb0 Hab.
  assert (Hc : Engine.contributors chart = ["Sun"; "Moon"; "Rising"])
    by (unfold Engine.contributors; rewrite Hp; reflexivity).
  unfold Engine._aggregate_canonical_modes. rewrite Hc.
  cbn [Engine.votes]. unfold Engine.vote.
  change (Engine.contributor_sign chart "Sun") with (Ok (A:=option string) (Some (sun_sign chart))).
  change (Engine.contributor_sign chart "Moon") with (Ok (A:=option string) (Some (moon_sign chart))).
  change (Engine.contributor_sign chart "Rising")
    with (Ok (A:=option string) (Some (rising_sign chart))).
  cbn [bind fst snd]. rewrite Ha, Hm, Hr.
  assert (E : Engine.vote_for
                (Engine.vote_for (Engine.vote_for [] (Some a) (Engine._get_planet_weight "Sun"))
                                 (Some b) (Engine._get_planet_weight "Moon"))
                (Some b) (Engine._get_planet_weight "Rising")
              = [(a, 3.0%float); (b, 4.5%float)]).
  { unfold Engine.vote_for. rewrite (truthy_some a Ha0), (truthy_some b Hb0).
    unfold Engine.add_score, Py.get_default. cbn [Py.get Py.set].
    assert (Eab : String.eqb a b = false) by (apply String.eqb_neq; exact Hab).
    repeat (rewrite ?Eab, ?String.eqb_refl; cbn [Py.get Py.set]).
    vm_compute. reflexivity. }
  rewrite E. eexists _, _. split; [reflexivity|].
  cbn [bind fst snd].
  assert (Hprim : Engine.primary [(a, 3.0%float); (b, 4.5%float)] = b)
    by (vm_compute; reflexivity).
  rewrite Hprim. reflexivity.
Qed.

(** ** Prompt styles *)

(** X26: tension_to_dynamics and _get_structure_description switch together:
    the structure is the 'strong intro' one exactly when the index is at
    least 60, which is exactly when the dynamics are 'strong' or 'very
    strong'; below 20 the dynamics are 'very soft' and the structure is the
    ambient one. *)
Theorem dynamics_follow_structure :
  forall result : HarmonicResult,
    let hti := harmonic_tension_index result in
    (60 <= hti <->
     Style._get_structure_description result
     = "strong intro -> driving section -> intense climax -> release") /\
    (60 <= hti <->
     Style.tension_to_dynamics hti = "strong dynamics, pronounced accents" \/
     Style.tension_to_dynamics hti
     = "very strong, aggressive dynamics with heavy impact") /\
    (hti < 20 ->
     Style.tension_to_dynamics hti = "very soft, sparse dynamics" /\
     Style._get_structure_description result
     = "ambient intro -> gentle theme -> ambient outro").
Proof.
  intros result. cbn zeta. unfold Style._get_structure_description, Style.tension_to_dynamics.
  cbn zeta. set (hti := harmonic_tension_index result).
  destruct (hti <? 20) eqn:E20; destruct (hti <? 30) eqn:E30;
    destruct (hti <? 40) eqn:E40; destruct (hti <? 60) eqn:E60;
    destruct (hti <? 80) eqn:E80;
    repeat match goal with
           | H : (_ <? _) = true |- _ => apply Z.ltb_lt in H
           | H : (_ <? _) = false |- _ => apply Z.ltb_ge in H
           end;
    try lia;
    (split; [split; [intros; first [lia|reflexivity]|intros; first [lia|discriminate]]|]);
    (split; [split; [intros; first [lia|tauto]
                    |intros [?|?]; first [lia|discriminate]]|]);
    intros; first [lia|split; reflexivity].
Qed.

(** X27: _get_instrument_suggestions returns four distinct instruments for
    Fire, Water, Air and Earth and none for any other element; the cut to
    six never removes anything. *)
Theorem instrument_suggestions_distinct :
  forall result : HarmonicResult,
    let suggestions := Style._get_instrument_suggestions result in
    NoDup suggestions /\
    (In (dominant_element result) ["Fire"; "Water"; "Air"; "Earth"] ->
     List.length suggestions = 4%nat) /\
    (~ In (dominant_element result) ["Fire"; "Water"; "Air"; "Earth"] ->
     suggestions = []).
Proof.
  intros result. cbn zeta. unfold Style._get_instrument_suggestions. cbn zeta.
  set (elem := dominant_element result).
  destruct (String.eqb_spec elem "Fire") as [->|H1].
  { vm_compute. split; [|split; [reflexivity|tauto]].
    repeat (constructor; [cbn; intuition discriminate|]). constructor. }
  destruct (String.eqb_spec elem "Water") as [->|H2].
  { vm_compute. split; [|split; [reflexivity|tauto]].
    repeat (constructor; [cbn; intuition discriminate|]). constructor. }
  destruct (String.eqb_spec elem "Air") as [->|H3].
  { vm_compute. split; [|split; [reflexivity|tauto]].
    repeat (constructor; [cbn; intuition discriminate|]). constructor. }
  destruct (String.eqb_spec elem "Earth") as [->|H4].
  { vm_compute. split; [|split; [reflexivity|tauto]].
    repeat (constructor; [cbn; intuition discriminate|]). constructor. }
  split; [constructor|]. split; [|reflexivity].
  cbn. intuition congruence.
Qed.

(** ** Instances *)

Lemma sample_nodup : NoDup (Py.keys Sample.raw_positions).
Proof. repeat (constructor; [cbn; intuition discriminate|]). constructor. Qed.

Lemma sample_well_formed : well_formed Sample.chart_with_mars.
Proof. intros k p [[= <- <-]|[]]. vm_compute. reflexivity. Qed.

Lemma sample_orbs : orbs_nonneg (aspects Sample.chart_with_mars).
Proof. intros a [<-|[]]. vm_compute. reflexivity. Qed.

Lemma find_aspects_within_orb_witness :
  Forall (fun r => within_orb r /\
                   precedes (Py.keys Sample.raw_positions) (planet_a r) (planet_b r))
    [ {| planet_a := "Sun"; planet_b := "Moon"; aspect := Some "Sextile";
         angle := 60.0; difference := 59.5; orb := Some 0.5%float |};
      {| planet_a := "Sun"; planet_b := "Mars"; aspect := Some "Opposition";
         angle := 180.0; difference := 180.0; orb := Some 0.0%float |};
      {| planet_a := "Moon"; planet_b := "Mars"; aspect := Some "Trine";
         angle := 120.0; difference := 120.5; orb := Some 0.5%float |} ].
Proof.
  apply (find_aspects_within_orb Sample.raw_positions). vm_compute. reflexivity.
Defined.

Lemma find_aspects_returns_witness :
  ((List.length Sample.raw_positions < 2)%nat ->
   AspectFinder.find_aspects Sample.raw_positions = Found []) /\
  ((forall k v, In (k, v) Sample.raw_positions -> has_lon v) ->
   exists out, AspectFinder.find_aspects Sample.raw_positions = Found out) /\
  ((2 <= List.length Sample.raw_positions)%nat ->
   (exists k v, In (k, v) Sample.raw_positions /\ ~ has_lon v) ->
   AspectFinder.find_aspects Sample.raw_positions = KeyError "lon").
Proof. apply find_aspects_returns. exact sample_nodup. Defined.

Lemma tension_of_found_aspects_witness :
  exists out k,
    AspectFinder.find_aspects Sample.raw_positions = Found out /\
    Engine.tension_of_aspects out = Ok k /\ 0 <= k <= 100 /\ (out <> [] -> 2 <= k).
Proof.
  eexists.
  destruct (tension_of_found_aspects Sample.raw_positions _
              ltac:(vm_compute; discriminate) ltac:(vm_compute; reflexivity))
    as (k & Hk).
  exists k. split; [vm_compute; reflexivity|exact Hk].
Defined.

Lemma dominant_element_of_tally_witness :
  exists tally e n,
    Engine.element_tally Sample.chart_with_mars = Ok tally /\
    Engine._determine_dominant_element Sample.chart_with_mars = Ok e /\
    In (e, n) tally /\
    (forall k m, In (k, m) tally -> m <= n) /\
    tally_total tally = 3 + Z.of_nat (List.length (positions Sample.chart_with_mars)).
Proof. apply dominant_element_of_tally. exact sample_well_formed. Defined.

Lemma dominant_element_label_witness :
  exists e,
    Engine._determine_dominant_element Sample.chart_with_mars = Ok e /\
    In e element_labels /\
    (In (sun_sign Sample.chart_with_mars) Engine.signs ->
     In (moon_sign Sample.chart_with_mars) Engine.signs ->
     In (rising_sign Sample.chart_with_mars) Engine.signs -> e <> "Unknown").
Proof. apply dominant_element_label. exact sample_well_formed. Defined.

Lemma sonic_payload_complete_witness :
  exists payload,
    Engine._build_sonic_payload Scenario.tables "Air" 37 = Ok payload /\
    In (waveform payload) waveforms /\
    (~ In "Air" ["Water"; "Fire"; "Air"; "Earth"] -> waveform payload = "sine") /\
    timbres payload <> [] /\
    (forall ts, Py.get (timbre_map Scenario.tables) "Air" = Some ts -> ts <> [] ->
                timbres payload = ts).
Proof. apply sonic_payload_complete. lia. Defined.

Lemma primary_modes_offered_witness :
  ("PENT-LEO-1" = "UNKNOWN" \/
   offered Engine.pent_id_of Scenario.tables Sample.chart_with_mars "PENT-LEO-1") /\
  ("QUAD-LEO-1" = "UNKNOWN" \/
   offered Engine.quad_id_of Scenario.tables Sample.chart_with_mars "QUAD-LEO-1").
Proof.
  apply (primary_modes_offered Scenario.tables Sample.chart_with_mars).
  vm_compute. reflexivity.
Defined.

Lemma primary_first_maximum_witness :
  Engine.primary ([("PENT-GEM-1", 2.5%float)] ++
                  ("PENT-LEO-1", 3.0%float) ::
                  [("PENT-AQU-1", 3.0%float); ("PENT-CAN-1", 1.0%float)])%list
  = "PENT-LEO-1".
Proof.
  apply primary_first_maximum.
  - intros k y [[= <- <-]|[]]. reflexivity.
  - intros k y [[= <- <-]|[[= <- <-]|[]]]; reflexivity.
Defined.

Lemma run_harmonic_engine_returns_witness :
  exists result,
    Engine.run_harmonic_engine Scenario.tables Sample.chart_with_mars = Ok result /\
    Engine._aggregate_canonical_modes Scenario.tables Sample.chart_with_mars
      = Ok (primary_pentatonic_mode result, primary_quadratonic_mode result) /\
    0 <= harmonic_tension_index result <= 100 /\
    In (dominant_element result) element_labels /\
    recommended_tempo_bpm (sonic_payload result)
      = 60 + harmonic_tension_index result * 80 / 100 /\
    60 <= recommended_tempo_bpm (sonic_payload result) <= 140 /\
    In (waveform (sonic_payload result)) waveforms /\
    timbres (sonic_payload result) <> [].
Proof.
  apply run_harmonic_engine_returns.
  - exact sample_well_formed.
  - exact sample_orbs.
  - vm_compute. discriminate.
Defined.

Lemma luminary_position_counted_once_witness :
  Engine.contributors (add_position Scenario.chart "Sun" Scenario.mars)
    = Engine.contributors Scenario.chart /\
  Engine._aggregate_canonical_modes Scenario.tables
      (add_position Scenario.chart "Sun" Scenario.mars)
    = Engine._aggregate_canonical_modes Scenario.tables Scenario.chart /\
  forall tally tally',
    Engine.element_tally Scenario.chart = Ok tally ->
    Engine.element_tally (add_position Scenario.chart "Sun" Scenario.mars) = Ok tally' ->
    tally_total tally' = tally_total tally + 1.
Proof.
  apply luminary_position_counted_once.
  - left. reflexivity.
  - intros [].
Defined.

Lemma generate_scale_notes_ascending_witness :
  StronglySorted Z.lt
    (Midi.generate_scale_notes Sample.major_pentatonic 60 "2-2-3-2-3" 2).
Proof.
  apply generate_scale_notes_ascending.
  unfold Sample.major_pentatonic. repeat (constructor; [lia|]). constructor.
Defined.

Lemma to_planetposition_dict_records_witness :
  ((forall n v, In (n, v) Sample.raw_positions -> complete v) ->
   exists d,
     Calculator.to_planetposition_dict Sample.raw_positions = Found d /\
     Py.keys d = Py.keys Sample.raw_positions /\
     Forall2 (fun raw rec => fst rec = fst raw /\
                             record_of (fst raw) (snd raw) (snd rec))
             Sample.raw_positions d) /\
  ((exists n v, In (n, v) Sample.raw_positions /\ ~ complete v) ->
   exists k, Calculator.to_planetposition_dict Sample.raw_positions = KeyError k /\
             In k ["lon"; "lat"; "distance"]).
Proof. apply to_planetposition_dict_records. exact sample_nodup. Defined.

Lemma infer_sign_wraps_around_witness :
  let r := Py.float_rem 725.5 360.0 in
  lon_in_range r = true /\ Py.float_rem r 360.0 = r /\
  exists k, (k < 12)%nat /\ in_segment r k = true /\
    Engine._infer_sign_from_lon 725.5 = Ok (nth k Engine.signs EmptyString) /\
    Engine._infer_sign_from_lon r = Ok (nth k Engine.signs EmptyString).
Proof. apply infer_sign_wraps_around; reflexivity. Defined.

Lemma forty_trines_nonneg : orbs_nonneg Sample.forty_trines.
Proof.
  intros a Ha. apply repeat_spec in Ha. subst a. vm_compute. reflexivity.
Qed.

Lemma tension_saturates_witness :
  Engine.tension_of_aspects Sample.forty_trines = Ok 100.
Proof.
  apply tension_saturates; [exact forty_trines_nonneg|].
  unfold Sample.forty_trines. rewrite repeat_length. split; [lia|].
  change (2 ^ 43) with 8796093022208. lia.
Defined.

Lemma moon_and_rising_outvote_sun_witness :
  exists quad_scores primary_quad,
    Engine.votes
      {| pent := []; quad := [];
         modal_index := [("Leo", [("pentatonic_mode_id", "PENT-LEO-1")]);
                         ("Gemini", [("pentatonic_mode_id", "PENT-AIR-1")]);
                         ("Aquarius", [("pentatonic_mode_id", "PENT-AIR-1")])];
         timbre_map := [] |}
      Scenario.chart ([], []) (Engine.contributors Scenario.chart)
      = Ok ([("PENT-LEO-1", 3.0%float); ("PENT-AIR-1", 4.5%float)], quad_scores) /\
    Engine._aggregate_canonical_modes
      {| pent := []; quad := [];
         modal_index := [("Leo", [("pentatonic_mode_id", "PENT-LEO-1")]);
                         ("Gemini", [("pentatonic_mode_id", "PENT-AIR-1")]);
                         ("Aquarius", [("pentatonic_mode_id", "PENT-AIR-1")])];
         timbre_map := [] |}
      Scenario.chart = Ok ("PENT-AIR-1", primary_quad).
Proof.
  apply moon_and_rising_outvote_sun; try reflexivity; discriminate.
Defined.
